(** * A shallow embedding of Paddle's [NaiveExecutor] and of the IR patch parser

    The development follows two source files:
    - [paddle/fluid/framework/naive_executor.cc]: the sequential executor
      ([Prepare], [CreateOps], [CreateVariables], [FindTensor],
      [MakeReusePlan], [Run] and the hook registration);
    - [paddle/fluid/pir/serialize_deserialize/src/patch_util.cc]: the three
      patch parsers and the attribute and type builders.

    C++ objects reached through pointers (scopes, variables, tensors) live in
    explicit stores indexed by their address; member functions become state
    transformers in a small state-and-exception monad in which, as in C++, a
    thrown exception leaves behind whatever was mutated before the throw. *)

From Stdlib Require Import ZArith NArith Lia.
From stdpp Require Import base option list gmap strings.

Set Warnings "-register-all".

(** ** Errors and the execution monad *)

(** Undefined behaviour the C++ code can run into; the model stops there. *)
Inductive fault :=
| NullScope            (* [*scope_] or [scope_->...] on a null scope *)
| DanglingScope        (* a scope address that is not allocated *)
| DanglingTensor       (* a tensor address that is not allocated *)
| NullClusterBuffer    (* [cluster_buffer_[i]->...] on an unset slot *)
| ClusterIndexOutOfRange
| BlockIndexOutOfRange
| EmptySlotIndexed.     (* [v[0]] on an empty vector of names *)

(** [common::errors::*] raised through [PADDLE_ENFORCE_*], exceptions thrown
    by external collaborators, and the two ways a call can fail to return. *)
Inductive error :=
| InvalidArgument (msg : string)
| PreconditionNotMet (msg : string)
| NotFound (msg : string)
| External (code : nat)     (* thrown by an operator, a hook, a descriptor
                               accessor or the YAML library *)
| Fault (f : fault)
| Diverges.                 (* the loop does not terminate (fuel exhausted) *)

Inductive outcome (A : Type) :=
| Done (a : A)
| Raise (e : error).
Arguments Done {A} a.
Arguments Raise {A} e.

(** A computation over a state [S]: the state survives an exception. *)
Definition M (S A : Type) : Type := S → outcome A * S.

Global Instance M_ret {S} : MRet (M S) := λ A a s, (Done a, s).
Global Instance M_bind {S} : MBind (M S) := λ A B f m s,
  match m s with
  | (Done a, s') => f a s'
  | (Raise e, s') => (Raise e, s')
  end.

Definition raise {S A} (e : error) : M S A := λ s, (Raise e, s).
Definition get {S} : M S S := λ s, (Done s, s).
Definition gets {S A} (f : S → A) : M S A := λ s, (Done (f s), s).
Definition modify {S} (f : S → S) : M S unit := λ s, (Done tt, f s).

(** [for (auto &x : l) body(x);] *)
Fixpoint foreach {S A} (l : list A) (body : A → M S unit) : M S unit :=
  match l with
  | [] => mret tt
  | x :: l' => body x ;; foreach l' body
  end.

(** Lift a pure fallible value into the monad. *)
Definition lift {S A} (o : outcome A) : M S A := λ s, (o, s).

(** Run a computation on a component of the state. *)
Definition zoom {S T A} (proj : S → T) (upd : T → S → S) (m : M T A) : M S A :=
  λ s, let '(r, t') := m (proj s) in (r, upd t' s).

(** ** The data model: tensors, variables, scopes *)

(** A [phi::Allocation]: the backing buffer a tensor's [holder_] points to. *)
Record Allocation := { alloc_id : nat; alloc_size : N }.

(** Modelled from the spec: [phi::DenseTensor] is not part of the sources at
    hand. A tensor has a (possibly unset) backing allocation, shared between
    aliasing tensors, and its own shape metadata. *)
Record DenseTensor := { holder : option Allocation; dims : list Z }.

Definition empty_tensor : DenseTensor := {| holder := None; dims := [] |}.

(** Modelled from the spec: [DenseTensor::memory_size()], the capacity of the
    backing allocation (zero when there is none). *)
Definition memory_size (t : DenseTensor) : N :=
  match holder t with
  | None => 0%N
  | Some a => alloc_size a
  end.

(** Modelled from the spec: [self.ShareBufferWith(src, /*only_buffer=*/true)],
    "share buffer, keep own shape/metadata": only the backing allocation (and
    with it the capacity) is taken from [src]. *)
Definition ShareBufferWith (self src : DenseTensor) : DenseTensor :=
  {| holder := holder src; dims := dims self |}.

(** [proto::VarType::Type], the storage kinds of a variable. *)
Inductive VarType :=
| DENSE_TENSOR | SELECTED_ROWS | DENSE_TENSOR_ARRAY | FEED_MINIBATCH
| FETCH_LIST | STEP_SCOPES | READER | RAW.

Global Instance VarType_eq_dec : EqDecision VarType.
Proof. solve_decision. Defined.

(** What a variable holds: the kind of its storage object and the address of
    that object (for a dense tensor, an address in the tensor store). *)
Record Placeholder := { ph_type : VarType; ph_obj : nat }.

(** [framework::Variable] (the trailing underscore avoids the vernacular
    keyword): an object with an address of its own and a possibly empty
    holder. *)
Record Variable_ := { var_addr : nat; var_holder : option Placeholder }.

(** [var->IsType<phi::DenseTensor>()]. *)
Definition IsType_DenseTensor (v : Variable_) : bool :=
  match var_holder v with
  | Some ph => bool_decide (ph_type ph = DENSE_TENSOR)
  | None => false
  end.

(** [framework::Scope]: a name-to-variable map and a non-owning parent link. *)
Record Scope := { parent_ : option nat; vars_ : gmap string Variable_ }.

(** Everything the executor reaches through pointers: the scopes and the
    tensors by address, and the next unused object address. *)
Record World := {
  scopes : gmap nat Scope;
  tensors : gmap nat DenseTensor;
  next_addr : nat
}.

Definition set_scopes (f : gmap nat Scope → gmap nat Scope) (w : World) : World :=
  {| scopes := f (scopes w); tensors := tensors w; next_addr := next_addr w |}.
Definition set_tensors (f : gmap nat DenseTensor → gmap nat DenseTensor) (w : World) : World :=
  {| scopes := scopes w; tensors := f (tensors w); next_addr := next_addr w |}.
Definition bump_addr (w : World) : World :=
  {| scopes := scopes w; tensors := tensors w; next_addr := S (next_addr w) |}.
Definition set_var (name : string) (v : Variable_) (sc : Scope) : Scope :=
  {| parent_ := parent_ sc; vars_ := <[name := v]> (vars_ sc) |}.

(** Dereferencing a [Scope*] and a [DenseTensor*]. *)
Definition scope_at (w : World) (s : nat) : outcome Scope :=
  match scopes w !! s with
  | Some sc => Done sc
  | None => Raise (Fault DanglingScope)
  end.

Definition tensor_at (w : World) (p : nat) : outcome DenseTensor :=
  match tensors w !! p with
  | Some t => Done t
  | None => Raise (Fault DanglingTensor)
  end.

(** Modelled from the spec: [Scope::FindVar], the lookup that walks to the
    ancestors when the name is not found locally. The walk is bounded by
    [fuel]; on a cyclic parent chain the C++ loop does not return. *)
Fixpoint FindVar (fuel : nat) (w : World) (s : nat) (name : string)
  : outcome (option Variable_) :=
  match fuel with
  | 0 => Raise Diverges
  | S fuel' =>
      match scopes w !! s with
      | None => Raise (Fault DanglingScope)
      | Some sc =>
          match vars_ sc !! name with
          | Some v => Done (Some v)
          | None =>
              match parent_ sc with
              | None => Done None
              | Some p => FindVar fuel' w p name
              end
          end
      end
  end.

(** [while (anc->parent()) anc = anc->parent();] *)
Fixpoint root_of (fuel : nat) (w : World) (anc : nat) : outcome nat :=
  match fuel with
  | 0 => Raise Diverges
  | S fuel' =>
      match scopes w !! anc with
      | None => Raise (Fault DanglingScope)
      | Some sc =>
          match parent_ sc with
          | None => Done anc
          | Some p => root_of fuel' w p
          end
      end
  end.

(** A [Variable*] is modelled by the scope that owns the variable and the
    variable's name. *)
Definition var_ref : Type := nat * string.

(** Modelled from the spec: [Scope::Var(name)], create-if-absent in the scope
    itself. *)
Definition Scope_Var (s : nat) (name : string) : M World var_ref := λ w,
  match scopes w !! s with
  | None => (Raise (Fault DanglingScope), w)
  | Some sc =>
      match vars_ sc !! name with
      | Some _ => (Done (s, name), w)
      | None =>
          let v := {| var_addr := next_addr w; var_holder := None |} in
          (Done (s, name),
           bump_addr (set_scopes (λ m, <[s := set_var name v sc]> m) w))
      end
  end.

(** Modelled from the spec: [InitializeVariable(ptr, type)] gives the variable
    fresh zero-initialized storage of the declared kind, at an address no
    object had before; whatever the variable held is no longer reachable from
    it. *)
Definition InitializeVariable (ptr : var_ref) (ty : VarType) : M World unit := λ w,
  match scopes w !! ptr.1 with
  | None => (Raise (Fault DanglingScope), w)
  | Some sc =>
      match vars_ sc !! ptr.2 with
      | None => (Raise (Fault DanglingScope), w)
      | Some v =>
          let p := next_addr w in
          let v' := {| var_addr := var_addr v;
                       var_holder := Some {| ph_type := ty; ph_obj := p |} |} in
          let create (ts : gmap nat DenseTensor) :=
            if decide (ty = DENSE_TENSOR) then <[p := empty_tensor]> ts else ts in
          (Done tt,
           bump_addr
             (set_tensors create
                (set_scopes (λ m, <[ptr.1 := set_var ptr.2 v' sc]> m) w)))
      end
  end.

(** The variable a scope itself holds under a name. *)
Definition lookup_var (w : World) (s : nat) (name : string) : option Variable_ :=
  sc ← scopes w !! s; vars_ sc !! name.

(** ** Program descriptions *)

Record VarDesc := { vd_name : string; vd_persistable : bool; vd_type : VarType }.

(** A [VariableNameMap]: the named input or output slots of an operator, each
    with its list of variable names, in the order of the map. *)
Definition VariableNameMap : Type := list (string * list string).

Record OpDesc := {
  od_type : string;
  od_inputs : VariableNameMap;
  od_outputs : VariableNameMap
}.
Record BlockDesc := { AllVars : list VarDesc; AllOps : list OpDesc }.
Definition ProgramDesc : Type := list BlockDesc.

(** Modelled from the spec: the "named input/output variable-name lists" of
    an operator descriptor. [OpDesc::Input(name)] and [OpDesc::Output(name)]
    give the names of a slot and throw for a slot the descriptor does not
    have. *)
Fixpoint slot (name : string) (slots : VariableNameMap) : outcome (list string) :=
  match slots with
  | [] => Raise (External 2)
  | kv :: rest => if decide (kv.1 = name) then Done kv.2 else slot name rest
  end.

Definition Input (name : string) (d : OpDesc) : outcome (list string) :=
  slot name (od_inputs d).
Definition Output (name : string) (d : OpDesc) : outcome (list string) :=
  slot name (od_outputs d).

(** [v[0]] on a vector of names; indexing an empty vector is undefined. *)
Definition front (v : list string) : outcome string :=
  match v with
  | x :: _ => Done x
  | [] => Raise (Fault EmptySlotIndexed)
  end.

(** [desc.Block(block_id)]. *)
Definition Block (desc : ProgramDesc) (block_id : nat) : outcome BlockDesc :=
  match desc !! block_id with
  | Some b => Done b
  | None => Raise (Fault BlockIndexOutOfRange)
  end.

(** ** Operators, hooks and the executor object *)

(** A hook is a function value registered by the caller; the model names it
    and leaves what it does to [hook_call] below. *)
Definition HookFunc : Type := nat.

(** Modelled from the spec: [OperatorBase], the descriptor data an operator is
    built from ([Type()], the named input and output variable names) and the
    members [Run] writes to before executing it. *)
Record OperatorBase := {
  op_type : string;
  op_inputs : VariableNameMap;
  op_outputs : VariableNameMap;
  run_by_executor_ : bool;
  op_input_hookfuncs_ : list HookFunc;
  op_output_hookfuncs_ : list HookFunc
}.

Definition Type_ (op : OperatorBase) : string := op_type op.
(** [op->OutputVars(true)]: every output name, intermediate ones included,
    slot after slot. *)
Definition OutputVars (op : OperatorBase) : list string := concat (op_outputs op).*2.

Definition SetIsCalledByExecutor (x : bool) (op : OperatorBase) : OperatorBase :=
  {| op_type := op_type op; op_inputs := op_inputs op; op_outputs := op_outputs op;
     run_by_executor_ := x;
     op_input_hookfuncs_ := op_input_hookfuncs_ op;
     op_output_hookfuncs_ := op_output_hookfuncs_ op |}.
Definition SetOutputHooks (hs : list HookFunc) (op : OperatorBase) : OperatorBase :=
  {| op_type := op_type op; op_inputs := op_inputs op; op_outputs := op_outputs op;
     run_by_executor_ := run_by_executor_ op;
     op_input_hookfuncs_ := op_input_hookfuncs_ op;
     op_output_hookfuncs_ := hs |}.
Definition SetInputHooks (hs : list HookFunc) (op : OperatorBase) : OperatorBase :=
  {| op_type := op_type op; op_inputs := op_inputs op; op_outputs := op_outputs op;
     run_by_executor_ := run_by_executor_ op;
     op_input_hookfuncs_ := hs;
     op_output_hookfuncs_ := op_output_hookfuncs_ op |}.

(** Modelled from the spec: [OpRegistry::CreateOp], one operator object per
    descriptor, carrying the descriptor's type and variable names. *)
Definition CreateOp (d : OpDesc) : OperatorBase :=
  {| op_type := od_type d; op_inputs := od_inputs d; op_outputs := od_outputs d;
     run_by_executor_ := true;
     op_input_hookfuncs_ := []; op_output_hookfuncs_ := [] |}.

(** The delegated interpreter, as far as the executor writes to it. *)
Record InterpreterCore := {
  ic_input_hookfuncs_ : list HookFunc;
  ic_output_hookfuncs_ : list HookFunc
}.

(** The members of [NaiveExecutor]. An operator's address ([op.get()]) is its
    position in [ops_]: the vector only grows at its end and owns its
    operators, so positions and addresses correspond one to one. The two
    hash maps of the reuse plan are finite maps keyed by operator address and
    by tensor address. *)
Record NaiveExecutor := {
  place_ : nat;
  scope_ : option nat;
  ops_ : list OperatorBase;
  input_hookfuncs_ : list HookFunc;
  output_hookfuncs_ : list HookFunc;
  interpreter_core_ : option InterpreterCore;
  reuse_cache_ : gmap nat (gmap nat nat);
  cluster_buffer_ : list (option nat)
}.

(** A freshly constructed executor. *)
Definition new_executor (place : nat) : NaiveExecutor :=
  {| place_ := place; scope_ := None; ops_ := [];
     input_hookfuncs_ := []; output_hookfuncs_ := [];
     interpreter_core_ := None; reuse_cache_ := ∅; cluster_buffer_ := [] |}.

Definition set_scope_ (s : option nat) (e : NaiveExecutor) : NaiveExecutor :=
  {| place_ := place_ e; scope_ := s; ops_ := ops_ e;
     input_hookfuncs_ := input_hookfuncs_ e; output_hookfuncs_ := output_hookfuncs_ e;
     interpreter_core_ := interpreter_core_ e;
     reuse_cache_ := reuse_cache_ e; cluster_buffer_ := cluster_buffer_ e |}.
Definition set_ops_ (f : list OperatorBase → list OperatorBase) (e : NaiveExecutor)
  : NaiveExecutor :=
  {| place_ := place_ e; scope_ := scope_ e; ops_ := f (ops_ e);
     input_hookfuncs_ := input_hookfuncs_ e; output_hookfuncs_ := output_hookfuncs_ e;
     interpreter_core_ := interpreter_core_ e;
     reuse_cache_ := reuse_cache_ e; cluster_buffer_ := cluster_buffer_ e |}.
Definition set_reuse_cache_ (f : gmap nat (gmap nat nat) → gmap nat (gmap nat nat))
  (e : NaiveExecutor) : NaiveExecutor :=
  {| place_ := place_ e; scope_ := scope_ e; ops_ := ops_ e;
     input_hookfuncs_ := input_hookfuncs_ e; output_hookfuncs_ := output_hookfuncs_ e;
     interpreter_core_ := interpreter_core_ e;
     reuse_cache_ := f (reuse_cache_ e); cluster_buffer_ := cluster_buffer_ e |}.
Definition set_cluster_buffer_ (f : list (option nat) → list (option nat))
  (e : NaiveExecutor) : NaiveExecutor :=
  {| place_ := place_ e; scope_ := scope_ e; ops_ := ops_ e;
     input_hookfuncs_ := input_hookfuncs_ e; output_hookfuncs_ := output_hookfuncs_ e;
     interpreter_core_ := interpreter_core_ e;
     reuse_cache_ := reuse_cache_ e; cluster_buffer_ := f (cluster_buffer_ e) |}.

(** A call as the callee sees it: a hook called with an operator pointer and
    the scope pointer, or an operator's [Run(scope, place)]. The operator is
    named by its address [op]; [before] is the object as the callee finds it
    and [after] the object as the callee leaves it. *)
Inductive Call :=
| HookCall (h : HookFunc) (op : nat) (scope : option nat) (before after : OperatorBase)
| RunCall (op : nat) (scope place : nat) (before after : OperatorBase).

(** What a hook or an operator's [Run] can reach: the operator object it is
    handed by pointer, which it may change, the world behind the scope
    pointer, and a record of its own (a hook is a closure and an operator an
    object, both may hold state); in the model that record is the list of the
    calls the callees have noted. *)
Record Env := { env_op : OperatorBase; env_world : World; env_trace : list Call }.

(** The state a member function of the executor works on: the object itself,
    the world behind its pointers, and the record the callees keep, which no
    member function writes. *)
Record State := { world : World; exe : NaiveExecutor; trace : list Call }.

Definition on_world (f : World → World) (st : State) : State :=
  {| world := f (world st); exe := exe st; trace := trace st |}.
Definition on_exe (f : NaiveExecutor → NaiveExecutor) (st : State) : State :=
  {| world := world st; exe := f (exe st); trace := trace st |}.
(** A computation on the world, run from a member function. *)
Definition in_world {A} (m : M World A) : M State A :=
  zoom world (λ w st, on_world (λ _, w) st) m.

(** ** The member functions of [NaiveExecutor] *)

Section Executor.

(** [framework::kEmptyVarName], the reserved name of an unnamed variable; the
    constant is declared outside the sources at hand. *)
Variable kEmptyVarName : string.

(** What the external collaborators do: a registered hook called with the
    address of an operator and the scope pointer, and the [Run(scope, place)]
    of the operator at an address. Both work on the operator object at that
    address and on the world, and both may throw. *)
Variable hook_call : HookFunc → nat → option nat → M Env unit.
Variable op_run : nat → nat → nat → M Env unit.

(** [new framework::Scope]: a root scope at an unused address. *)
Definition new_Scope : M World nat := λ w,
  let s := fresh (dom (scopes w)) in
  (Done s, set_scopes (λ m, <[s := {| parent_ := None; vars_ := ∅ |}]> m) w).

(** The operands of the [LOG(INFO)] line for a skipped descriptor, evaluated
    from left to right: [op_desc->Input("X")[0]] and
    [op_desc->Output("Out")[0]]. *)
Definition log_skip (op_desc : OpDesc) : M State unit :=
  x ← lift (Input "X" op_desc);
  _ ← lift (front x);
  out ← lift (Output "Out" op_desc);
  _ ← lift (front out);
  mret tt.

Definition CreateOps (desc : ProgramDesc) (block_id : nat) : M State unit :=
  b ← lift (Block desc block_id);
  foreach (AllOps b) (λ op_desc,
    if decide (od_type op_desc = "feed" ∨ od_type op_desc = "fetch")
    then log_skip op_desc
    else modify (on_exe (set_ops_ (λ ops, ops ++ [CreateOp op_desc])))).

Definition Prepare (scope : option nat) (desc : ProgramDesc) (block_id : nat)
  : M State unit :=
  match scope with
  | None => s ← in_world new_Scope; modify (on_exe (set_scope_ (Some s)))
  | Some s => modify (on_exe (set_scope_ (Some s)))
  end ;;
  CreateOps desc block_id.


(** The body of the loop over [global_block.AllVars()]. *)
Definition create_variable (fuel : nat) (persistable : bool) (scope anc : nat)
  (var : VarDesc) : M World unit :=
  if decide (vd_name var = kEmptyVarName) then mret tt
  else if decide (persistable = vd_persistable var) then
    if persistable then
      w ← get;
      found ← lift (FindVar fuel w anc (vd_name var));
      match found with
      | None =>
          ptr ← Scope_Var anc (vd_name var);
          InitializeVariable ptr (vd_type var)
      | Some _ => mret tt
      end
    else
      ptr ← Scope_Var scope (vd_name var);
      InitializeVariable ptr (vd_type var)
  else mret tt.

Definition CreateVariables (fuel : nat) (desc : ProgramDesc) (block_id : nat)
  (persistable : bool) (scope : option nat) : M World unit :=
  s ← match scope with
      | None => raise (InvalidArgument "The Scope to hold variables is nullptr.")
      | Some s => mret s
      end;
  global_block ← lift (Block desc block_id);
  w ← get;
  sc ← lift (scope_at w s);
  (if decide (parent_ sc = Some s)
   then raise (InvalidArgument "Input scope should be child scope.")
   else mret tt) ;;
  anc ← lift (root_of fuel w s);
  foreach (AllVars global_block) (create_variable fuel persistable s anc).

(** Modelled from the spec: [var->Get<phi::DenseTensor>()], and
    [var->GetMutable<phi::DenseTensor>()] where the caller has checked
    [IsType] first: a tensor-kind variable yields the tensor it holds; on any
    other variable the accessor throws. *)
Definition Get_DenseTensor (v : Variable_) : outcome nat :=
  match var_holder v with
  | Some ph =>
      if decide (ph_type ph = DENSE_TENSOR) then Done (ph_obj ph) else Raise (External 0)
  | None => Raise (External 0)
  end.

Definition FindTensor (fuel : nat) (name : string) : M State nat :=
  e ← gets exe;
  s ← match scope_ e with
      | None => raise (PreconditionNotMet "Need to init scope in NaiveExecutor firstly.")
      | Some s => mret s
      end;
  w ← gets world;
  var ← lift (FindVar fuel w s name);
  v ← match var with
      | None => raise (NotFound ("No variable [" +:+ name +:+ "] in current scope."))
      | Some v => mret v
      end;
  lift (Get_DenseTensor v).

Definition ic_SetOutputHooks (hs : list HookFunc) (ic : InterpreterCore) : InterpreterCore :=
  {| ic_input_hookfuncs_ := ic_input_hookfuncs_ ic; ic_output_hookfuncs_ := hs |}.
Definition ic_SetInputHooks (hs : list HookFunc) (ic : InterpreterCore) : InterpreterCore :=
  {| ic_input_hookfuncs_ := hs; ic_output_hookfuncs_ := ic_output_hookfuncs_ ic |}.

Definition RegisterOutputHook (hookfunc : HookFunc) (e : NaiveExecutor) : NaiveExecutor :=
  let hs := output_hookfuncs_ e ++ [hookfunc] in
  {| place_ := place_ e; scope_ := scope_ e; ops_ := ops_ e;
     input_hookfuncs_ := input_hookfuncs_ e; output_hookfuncs_ := hs;
     interpreter_core_ := ic_SetOutputHooks hs <$> interpreter_core_ e;
     reuse_cache_ := reuse_cache_ e; cluster_buffer_ := cluster_buffer_ e |}.

Definition RegisterInputHook (hookfunc : HookFunc) (e : NaiveExecutor) : NaiveExecutor :=
  let hs := input_hookfuncs_ e ++ [hookfunc] in
  {| place_ := place_ e; scope_ := scope_ e; ops_ := ops_ e;
     input_hookfuncs_ := hs; output_hookfuncs_ := output_hookfuncs_ e;
     interpreter_core_ := ic_SetInputHooks hs <$> interpreter_core_ e;
     reuse_cache_ := reuse_cache_ e; cluster_buffer_ := cluster_buffer_ e |}.

(** *** The reuse planner *)

(** [clusters[it.second].insert(it.first)] over the whole table. *)
Definition clusters_of (reuse_table : gmap string string) : gmap string (gset string) :=
  map_fold (λ name target acc, <[target := {[name]} ∪ default ∅ (acc !! target)]> acc)
           ∅ reuse_table.

(** [cluster_names]: the keys of [clusters] in the map's iteration order, which
    C++ leaves unspecified; the model takes the order of [map_to_list]. *)
Definition cluster_names_of (reuse_table : gmap string string) : list string :=
  (map_to_list (clusters_of reuse_table)).*1.

(** [std::find(begin, end, x) - begin]: the first position of [x], or the
    length of the list when [x] does not occur. *)
Fixpoint find_index (x : string) (l : list string) : nat :=
  match l with
  | [] => 0
  | y :: l' => if decide (y = x) then 0 else S (find_index x l')
  end.

(** [cluster_buffer_[idx] = p]. *)
Definition store_cluster (idx : nat) (p : nat) : M State unit := λ st,
  if decide (idx < length (cluster_buffer_ (exe st)))
  then (Done tt, on_exe (set_cluster_buffer_ (λ cb, <[idx := Some p]> cb)) st)
  else (Raise (Fault ClusterIndexOutOfRange), st).

(** [m.emplace(k, v)]: no effect when the key is already there. *)
Definition emplace (k v : nat) (m : gmap nat nat) : gmap nat nat :=
  match m !! k with
  | Some _ => m
  | None => <[k := v]> m
  end.

(** The record step of the planner: [reuse_cache_[op].emplace(tensor, idx)],
    or a fresh one-entry map when the operator has none yet. *)
Definition record_reuse (op : nat) (tensor idx : nat) (e : NaiveExecutor) : NaiveExecutor :=
  set_reuse_cache_ (λ rc,
    match rc !! op with
    | Some m => <[op := emplace tensor idx m]> rc
    | None => <[op := {[tensor := idx]}]> rc
    end) e.

(** The body of the loop over [op->OutputVars(true)]. *)
Definition plan_output (fuel : nat) (reuse_table : gmap string string)
  (cluster_names : list string) (op : nat) (name : string) : M State unit :=
  match reuse_table !! name with
  | None => mret tt
  | Some reuse_name =>
      let idx := find_index reuse_name cluster_names in
      e ← gets exe;
      s ← match scope_ e with
          | None => raise (Fault NullScope)
          | Some s => mret s
          end;
      w ← gets world;
      var ← lift (FindVar fuel w s name);
      reuse_var ← lift (FindVar fuel w s reuse_name);
      match var, reuse_var with
      | Some v, Some rv =>
          if IsType_DenseTensor v && IsType_DenseTensor rv then
            tensor ← lift (Get_DenseTensor v);
            reuse_tensor ← lift (Get_DenseTensor rv);
            store_cluster idx reuse_tensor ;;
            modify (on_exe (record_reuse op tensor idx))
          else mret tt
      | _, _ => mret tt
      end
  end.

Definition MakeReusePlan (fuel : nat) (reuse_table : gmap string string) : M State unit :=
  let cluster_names := cluster_names_of reuse_table in
  modify (on_exe (set_cluster_buffer_ (resize (length cluster_names) None))) ;;
  e ← gets exe;
  foreach (imap pair (ops_ e)) (λ iop,
    foreach (OutputVars iop.2) (plan_output fuel reuse_table cluster_names iop.1)).

(** *** Running the operators *)

(** [cluster_buffer_[id]], dereferenced. *)
Definition load_cluster (id : nat) : M State nat := λ st,
  match cluster_buffer_ (exe st) !! id with
  | None => (Raise (Fault ClusterIndexOutOfRange), st)
  | Some None => (Raise (Fault NullClusterBuffer), st)
  | Some (Some p) => (Done p, st)
  end.

(** [p->memory_size()]. *)
Definition memory_size_at (p : nat) : M State N :=
  w ← gets world; t ← lift (tensor_at w p); mret (memory_size t).

(** [dst->ShareBufferWith] of the tensor at [src], buffer only. *)
Definition share_buffer (dst src : nat) : M State unit :=
  w ← gets world;
  d ← lift (tensor_at w dst);
  s ← lift (tensor_at w src);
  modify (on_world (set_tensors (λ ts, <[dst := ShareBufferWith d s]> ts))).

(** The two loops over [reuse_cache_] that re-alias a whole cluster. (C++
    leaves the iteration order of the hash maps unspecified; the model takes
    the order of [map_to_list].) *)
Definition realias_cluster (updated_cluster_id : nat) : M State unit :=
  e ← gets exe;
  foreach (map_to_list (reuse_cache_ e)) (λ op_map,
    foreach (map_to_list op_map.2) (λ it2,
      if decide (it2.2 = updated_cluster_id) then
        src ← load_cluster it2.2;
        share_buffer it2.1 src
      else mret tt)).

(** The body of the loop over [reuse_cache_[op.get()]]. *)
Definition update_cluster (it : nat * nat) : M State unit :=
  size ← memory_size_at it.1;
  buffer ← load_cluster it.2;
  buffer_size ← memory_size_at buffer;
  if decide (buffer_size < size)%N then
    store_cluster it.2 it.1 ;;
    realias_cluster it.2
  else mret tt.

(** "Update the shared_holder so that only records the max one." *)
Definition update_shared_holder (op : nat) : M State unit :=
  e ← gets exe;
  match reuse_cache_ e !! op with
  | Some entries => foreach (map_to_list entries) update_cluster
  | None => mret tt
  end.

Definition set_op (op : nat) (f : OperatorBase → OperatorBase) : M State unit :=
  modify (on_exe (set_ops_ (λ ops, alter f op ops))).

(** Work on the operator object at address [op], as it is now. ([Run] only
    passes addresses of [ops_].) *)
Definition with_op (op : nat) (k : OperatorBase → M State unit) : M State unit :=
  e ← gets exe;
  match ops_ e !! op with
  | Some o => k o
  | None => mret tt
  end.

(** A call of a collaborator on the operator at address [op]: the callee
    works on the object at that address, on the world and on the callees'
    record, and what it leaves is what the executor goes on with, also when
    the callee throws. *)
Definition hand_over (op : nat) (callee : M Env unit) : M State unit := λ st,
  match ops_ (exe st) !! op with
  | Some o =>
      let '(r, env) := callee {| env_op := o; env_world := world st;
                                 env_trace := trace st |} in
      (r, {| world := env_world env;
             exe := set_ops_ (λ ops, <[op := env_op env]> ops) (exe st);
             trace := env_trace env |})
  | None => (Done tt, st)
  end.

(** The body of the loop over [ops_], for the operator at address [op]. *)
Definition run_op (op : nat) : M State unit :=
  set_op op (SetIsCalledByExecutor false) ;;
  e ← gets exe;
  foreach (input_hookfuncs_ e) (λ func, hand_over op (hook_call func op (scope_ e))) ;;
  with_op op (λ o,
    if decide (Type_ o = "while" ∨ Type_ o = "conditional_block") then
      set_op op (SetOutputHooks (output_hookfuncs_ e)) ;;
      set_op op (SetInputHooks (input_hookfuncs_ e))
    else mret tt) ;;
  match scope_ e with
  | Some s => hand_over op (op_run op s (place_ e))
  | None => raise (Fault NullScope)
  end ;;
  update_shared_holder op ;;
  foreach (output_hookfuncs_ e) (λ func, hand_over op (hook_call func op (scope_ e))).

Definition Run : M State unit :=
  e ← gets exe;
  foreach (seq 0 (length (ops_ e))) run_op.

End Executor.

(** ** The patch parser ([patch_util.cc]) *)

Global Instance outcome_ret : MRet outcome := λ A a, Done a.
Global Instance outcome_bind : MBind outcome := λ A B f m,
  match m with
  | Done a => f a
  | Raise e => Raise e
  end.

Module PatchUtil.

(** A YAML node, as far as the parser looks into it. *)
Inductive Yaml :=
| YScalar (s : string)
| YSeq (items : list Yaml)
| YMap (fields : list (string * Yaml)).

(** A JSON value; an object keeps its fields as a list of key-value pairs. *)
Inductive Json :=
| JNull
| JInt (z : Z)
| JStr (s : string)
| JArr (items : list Json)
| JObj (fields : list (string * Json)).

(** The first value stored under [key] in a list of key-value pairs. *)
Fixpoint assoc {A} (key : string) (fields : list (string * A)) : option A :=
  match fields with
  | [] => None
  | kv :: rest => if decide (kv.1 = key) then Some kv.2 else assoc key rest
  end.

(** [node[key]]: the child, or an undefined node. *)
Definition yget (key : string) (node : Yaml) : option Yaml :=
  match node with
  | YMap fields => assoc key fields
  | _ => None
  end.

(** [node.as<std::string>()]; the YAML library throws on anything but a
    scalar. *)
Definition as_string (node : option Yaml) : outcome string :=
  match node with
  | Some (YScalar s) => Done s
  | _ => Raise (External 1)
  end.

(** A node that has to be there: [build] on the node, and the exception of
    the YAML library for the use of an invalid or undefined node otherwise. *)
Definition on_defined {A} (build : Yaml → outcome A) (node : option Yaml) : outcome A :=
  match node with
  | Some action => build action
  | None => Raise (External 1)
  end.

(** [obj[key]] for reading, and [obj[key] = v]. *)
Definition jget (key : string) (obj : Json) : Json :=
  match obj with
  | JObj fields => default JNull (assoc key fields)
  | _ => JNull
  end.

Fixpoint jset_fields (key : string) (v : Json) (fields : list (string * Json))
  : list (string * Json) :=
  match fields with
  | [] => [(key, v)]
  | kv :: rest =>
      if decide (kv.1 = key) then (key, v) :: rest else kv :: jset_fields key v rest
  end.

Definition jset (key : string) (v : Json) (obj : Json) : Json :=
  match obj with
  | JObj fields => JObj (jset_fields key v fields)
  | _ => JObj [(key, v)]
  end.

(** [arr.push_back(v)]; a null value becomes a one-element array. *)
Definition jpush_back (v : Json) (arr : Json) : Json :=
  match arr with
  | JArr items => JArr (items ++ [v])
  | _ => JArr [v]
  end.

(** [j_patch["patch"][col].push_back(item)]. *)
Definition push_patch (col : string) (item : Json) (j_patch : Json) : Json :=
  let patch := jget "patch" j_patch in
  jset "patch" (jset col (jpush_back item (jget col patch)) patch) j_patch.

(** In a condition, a string literal is a non-null [const char*] and converts
    to [true], whatever its characters. *)
Definition literal_as_condition (literal : string) : bool := true.

Section Documents.

(** The number the YAML library reads from the scalar of a map key when a
    node is indexed by a number ([convert<size_t>::decode]), if it reads one;
    the number syntax of the library is not spelled out here. *)
Variable key_index : string → option nat.

(** [node[i]] on a map: the value of the first pair whose key reads as [i]. *)
Fixpoint assoc_index (i : nat) (fields : list (string * Yaml)) : option Yaml :=
  match fields with
  | [] => None
  | kv :: rest => if decide (key_index kv.1 = Some i) then Some kv.2 else assoc_index i rest
  end.

(** The nodes [node[0] .. node[node.size() - 1]] a loop over [node] goes
    through. [size()] is the number of elements of a sequence and the number
    of pairs of a map, and zero for a scalar and for an undefined node; an
    index finds the element of a sequence, and in a map the value under a key
    that reads as that number, or nothing. *)
Definition yitems (node : option Yaml) : list (option Yaml) :=
  match node with
  | Some (YSeq items) => Some <$> items
  | Some (YMap fields) => (λ i, assoc_index i fields) <$> seq 0 (length fields)
  | _ => []
  end.

(** [node[i]] for a number [i]: nothing defined past the end of a sequence,
    in a map without such a key, and in a node that is missing itself. (On a
    scalar the library throws; every use below throws on an undefined node
    as well.) *)
Definition yindex (i : nat) (node : option Yaml) : option Yaml :=
  match node with
  | Some (YSeq items) => items !! i
  | Some (YMap fields) => assoc_index i fields
  | _ => None
  end.

Section Parser.

(** The column and field names of [schema.h], which is not at hand. *)
Variables NAME ATTR_TYPE ATTRS OPRESULTS_ATTRS OPRESULTS VALUE_ID TYPE_TYPE : string.

(** The attribute and type builders of the same file, [node.as<int>()] and
    [GetCompressOpName]: conversions of YAML scalars (floating point among
    them) that the action dispatch does not look into. *)
Variable BuildAttrJsonPatch : Yaml → outcome Json.
Variable BuildTypeJsonPatch : Yaml → outcome Json.
Variable as_int : option Yaml → outcome Z.
Variable GetCompressOpName : string → string.

(** The condition of the third branch of the dispatch, as written:
    [action_name == "modify_attr_name" || "modify_output_attr_name"]. *)
Definition modify_attr_name_condition (action_name : string) : bool :=
  bool_decide (action_name = "modify_attr_name")
  || literal_as_condition "modify_output_attr_name".

(** The body of the loop over [actions] in [ParseOpPatches]. *)
Definition parse_action (action : Yaml) (j_patch : Json) : outcome Json :=
  action_name ← as_string (yget "action" action);
  if decide (action_name = "add_attr" ∨ action_name = "modify_attr" ∨
             action_name = "delete_attr") then
    attr_name ← as_string (yget "object" action);
    attr_type ← BuildAttrJsonPatch action;
    mret (push_patch ATTRS (JObj [(NAME, JStr attr_name); (ATTR_TYPE, attr_type)]) j_patch)
  else if decide (action_name = "add_output_attr" ∨ action_name = "modify_output_attr" ∨
                  action_name = "delete_output_attr") then
    attr_name ← as_string (yget "object" action);
    attr_type ← BuildAttrJsonPatch action;
    mret (push_patch OPRESULTS_ATTRS
            (JObj [(NAME, JStr attr_name); (ATTR_TYPE, attr_type)]) j_patch)
  else if modify_attr_name_condition action_name then
    old_name ← as_string (yget "object" action);
    new_name ← as_string (yget "default" action);
    let col := if decide (action_name = "modify_attr_name") then ATTRS else OPRESULTS_ATTRS in
    mret (push_patch col (JObj [(NAME, JStr old_name); ("NEW_NAME", JStr new_name)]) j_patch)
  else if decide (action_name = "add_input" ∨ action_name = "modify_input" ∨
                  action_name = "delete_input") then
    mret j_patch
  else if decide (action_name = "add_output" ∨ action_name = "modify_output" ∨
                  action_name = "delete_output") then
    mret j_patch
  else if decide (action_name = "modify_output_type") then
    op_id ← as_int (yget "object" action);
    type_type ← BuildTypeJsonPatch action;
    mret (push_patch OPRESULTS (JObj [(VALUE_ID, JInt op_id); (TYPE_TYPE, type_type)]) j_patch)
  else mret j_patch.

Fixpoint parse_actions (actions : list (option Yaml)) (j_patch : Json) : outcome Json :=
  match actions with
  | [] => mret j_patch
  | action :: rest =>
      j ← on_defined (λ action, parse_action action j_patch) action;
      parse_actions rest j
  end.

(** The body of the loop over [root]. *)
Definition parse_op_patch (node : Yaml) : outcome Json :=
  op_name ← as_string (yget "op_name" node);
  let op_name := GetCompressOpName op_name in
  let op_name := if decide (op_name = "0.parameter") then "p" else op_name in
  parse_actions (yitems (yget "actions" node))
                (JObj [("op_name", JStr op_name); ("patch", JObj [])]).

Fixpoint parse_op_patches (nodes : list (option Yaml)) (json_patch : list Json)
  : outcome (list Json) :=
  match nodes with
  | [] => mret json_patch
  | node :: rest =>
      j ← on_defined parse_op_patch node; parse_op_patches rest (json_patch ++ [j])
  end.

Definition ParseOpPatches (root : Yaml) : outcome Json :=
  json_patch ← parse_op_patches (yitems (Some root)) []; mret (JArr json_patch).

End Parser.

(** [node[key].IsDefined()] on a constant node: the YAML library throws when
    a scalar is indexed. *)
Definition is_defined (key : string) (node : Yaml) : outcome bool :=
  match node with
  | YScalar _ => Raise (External 1)
  | _ => Done (bool_decide (is_Some (yget key node)))
  end.

(** The attribute classes [GetAttrJson] names: the builtin ones and the four
    of the operator dialect. *)
Inductive Attribute :=
| BoolAttribute | FloatAttribute | DoubleAttribute | Int32Attribute | Int64Attribute
| IndexAttribute | ArrayAttribute | TypeAttribute | TensorNameAttribute
| Complex64Attribute | Complex128Attribute | StrAttribute
| IntArrayAttribute | ScalarAttribute | DataTypeAttribute | PlaceAttribute.

(** The builtin type classes [BuildTypeJsonPatch] names. *)
Inductive BuiltinType :=
| BoolType | BFloat16Type | Float16Type | Float32Type | Float64Type | Int8Type
| UInt8Type | Int16Type | Int32Type | Int64Type | IndexType | Complex64Type
| Complex128Type | VectorType | DenseTensorType.

Section Builders.

(** The field names [ID] and [DATA] of [schema.h], and the compressed ids
    [DialectIdMap::Instance()->GetCompressDialectId(...)] of the builtin and
    of the operator dialect; none of them is defined in the sources at
    hand. *)
Variables ID DATA : string.
Variables builtin_dialect_id operator_dialect_id : string.

(** [X::name()] of an attribute class and of a type class. *)
Variable attribute_name : Attribute → string.
Variable builtin_type_name : BuiltinType → string.

(** The conversions [node.as<T>()] of the YAML library for the scalar and
    vector types, each with the JSON value the result is stored as; they
    throw on a node they cannot convert. *)
Variables as_bool as_float as_double as_int32_t as_int64_t : option Yaml → outcome Json.
Variables as_int as_int_vector as_int_matrix : option Yaml → outcome Json.

(** [json[ID] = dialect + X::name()]. *)
Definition set_id (dialect : string) (name : string) (json : Json) : Json :=
  jset ID (JStr (dialect +:+ name)) json.

(** [json[DATA] = action["default"].as<T>()]. *)
Definition set_data (convert : option Yaml → outcome Json) (action : Yaml) (json : Json)
  : outcome Json :=
  data ← convert (yget "default" action); mret (jset DATA data json).

Definition as_string_json (node : option Yaml) : outcome Json :=
  s ← as_string node; mret (JStr s).

(** The nodes a loop over [action["default"]] goes through. [action] is a
    constant node: a child that is missing is an invalid node there, and its
    [size()] throws. *)
Definition default_items (action : Yaml) : outcome (list (option Yaml)) :=
  on_defined (λ default, Done (yitems (Some default))) (yget "default" action).

(** The loop [json[DATA].push_back(build(action["default"][i]))]. *)
Fixpoint push_back_each {A} (build : A → outcome Json) (items : list A) (json : Json)
  : outcome Json :=
  match items with
  | [] => mret json
  | array_value :: rest =>
      j ← build array_value;
      push_back_each build rest (jset DATA (jpush_back j (jget DATA json)) json)
  end.

(** [GetAttrJson], with [BuildAttrJsonPatch] for the elements of an array
    attribute passed in: the two functions call each other. (An element can
    be missing: a map has as many elements as pairs, whatever its keys.) *)
Definition GetAttrJson_with (BuildAttrJsonPatch : option Yaml → outcome Json)
  (action : Yaml) : outcome Json :=
  let json := JNull in
  let dialect := builtin_dialect_id +:+ "." in
  at_name ← as_string (yget "type" action);
  if decide (at_name = "pir::BoolAttribute") then
    set_data as_bool action (set_id dialect (attribute_name BoolAttribute) json)
  else if decide (at_name = "pir::FloatAttribute") then
    set_data as_float action (set_id dialect (attribute_name FloatAttribute) json)
  else if decide (at_name = "pir::DoubleAttribute") then
    set_data as_double action (set_id dialect (attribute_name DoubleAttribute) json)
  else if decide (at_name = "pir::Int32Attribute") then
    set_data as_int32_t action (set_id dialect (attribute_name Int32Attribute) json)
  else if decide (at_name = "pir::Int64Attribute") then
    set_data as_int64_t action (set_id dialect (attribute_name Int64Attribute) json)
  else if decide (at_name = "pir::IndexAttribute") then
    set_data as_int64_t action (set_id dialect (attribute_name IndexAttribute) json)
  else if decide (at_name = "pir::ArrayAttribute") then
    let json := set_id dialect (attribute_name ArrayAttribute) json in
    let json := jset DATA (JArr []) json in
    items ← default_items action;
    push_back_each BuildAttrJsonPatch items json
  else if decide (at_name = "pir::TypeAttribute") then
    set_data as_string_json action (set_id dialect (attribute_name TypeAttribute) json)
  else if decide (at_name = "pir::TensorNameAttribute") then
    set_data as_string_json action
             (set_id dialect (attribute_name TensorNameAttribute) json)
  else if decide (at_name = "pir::Complex64Attribute") then
    set_data as_float action (set_id dialect (attribute_name Complex64Attribute) json)
  else if decide (at_name = "pir::Complex128Attribute") then
    set_data as_double action (set_id dialect (attribute_name Complex128Attribute) json)
  else if decide (at_name = "pir::StrAttribute") then
    set_data as_string_json action (set_id dialect (attribute_name StrAttribute) json)
  else
    let dialect := operator_dialect_id +:+ "." in
    let json :=
      if decide (at_name = "paddle::dialect::IntArrayAttribute") then
        set_id dialect (attribute_name IntArrayAttribute) json
      else if decide (at_name = "paddle::dialect::ScalarAttribute") then
        set_id dialect (attribute_name ScalarAttribute) json
      else if decide (at_name = "paddle::dialect::DataTypeAttribute") then
        set_id dialect (attribute_name DataTypeAttribute) json
      else if decide (at_name = "paddle::dialect::PlaceAttribute") then
        set_id dialect (attribute_name PlaceAttribute) json
      else json in
    (* PADDLE_ENFORCE(false, ...): [json] is dropped *)
    Raise (InvalidArgument ("Unknown Attr " +:+ at_name +:+ " in the OpPatches.")).

(** [BuildAttrJsonPatch]. The recursion through the elements of array
    attributes is bounded by [fuel], the nesting depth it may go to. On a
    missing element, an invalid node, [action["type"]] throws. *)
Fixpoint BuildAttrJsonPatch (fuel : nat) (action : Yaml) : outcome Json :=
  match fuel with
  | 0 => Raise Diverges
  | S fuel' =>
      has_type ← is_defined "type" action;
      if negb has_type then mret JNull
      else
        has_default ← is_defined "default" action;
        if negb has_default then mret JNull
        else GetAttrJson_with (on_defined (BuildAttrJsonPatch fuel')) action
  end.

Definition GetAttrJson (fuel : nat) (action : Yaml) : outcome Json :=
  GetAttrJson_with (on_defined (BuildAttrJsonPatch fuel)) action.

Definition GetTypeJson (fuel : nat) (action : Yaml) : outcome Json :=
  GetAttrJson fuel action.

(** [BuildTypeJsonPatch], with itself for the element types passed in. (An
    element can be missing, and [action["type"]] throws on it.) *)
Definition BuildTypeJsonPatch_with (BuildTypeJsonPatch : option Yaml → outcome Json)
  (action : Yaml) : outcome Json :=
  let json := JNull in
  let dialect := builtin_dialect_id +:+ "." in
  type_name ← as_string (yget "type" action);
  if decide (type_name = "pir::BoolType") then
    mret (set_id dialect (builtin_type_name BoolType) json)
  else if decide (type_name = "pir::BFloat16Type") then
    mret (set_id dialect (builtin_type_name BFloat16Type) json)
  else if decide (type_name = "pir::Float16Type") then
    mret (set_id dialect (builtin_type_name Float16Type) json)
  else if decide (type_name = "pir::Float32Type") then
    mret (set_id dialect (builtin_type_name Float32Type) json)
  else if decide (type_name = "pir::Float64Type") then
    mret (set_id dialect (builtin_type_name Float64Type) json)
  else if decide (type_name = "pir::Int8Type") then
    mret (set_id dialect (builtin_type_name Int8Type) json)
  else if decide (type_name = "pir::UInt8Type") then
    mret (set_id dialect (builtin_type_name UInt8Type) json)
  else if decide (type_name = "pir::Int16Type") then
    mret (set_id dialect (builtin_type_name Int16Type) json)
  else if decide (type_name = "pir::Int32Type") then
    mret (set_id dialect (builtin_type_name Int32Type) json)
  else if decide (type_name = "pir::Int64Type") then
    mret (set_id dialect (builtin_type_name Int64Type) json)
  else if decide (type_name = "pir::IndexType") then
    mret (set_id dialect (builtin_type_name IndexType) json)
  else if decide (type_name = "pir::Complex64Type") then
    mret (set_id dialect (builtin_type_name Complex64Type) json)
  else if decide (type_name = "pir::Complex128Type") then
    mret (set_id dialect (builtin_type_name Complex128Type) json)
  else if decide (type_name = "pir::VectorType") then
    let json := set_id dialect (builtin_type_name VectorType) json in
    let json := jset DATA (JArr []) json in
    items ← default_items action;
    push_back_each BuildTypeJsonPatch items json
  else if decide (type_name = "pir::DenseTensorType") then
    let json := set_id dialect (builtin_type_name DenseTensorType) json in
    let content := JArr [] in
    let tensor_value := yget "default" action in
    elem ← BuildTypeJsonPatch (yindex 0 tensor_value);
    let content := jpush_back elem content in
    dims ← as_int_vector (yindex 1 tensor_value);
    let content := jpush_back dims content in
    layout ← as_string_json (yindex 2 tensor_value);
    let content := jpush_back layout content in
    lod ← as_int_matrix (yindex 3 tensor_value);
    let content := jpush_back lod content in
    offset ← as_int (yindex 4 tensor_value);
    let content := jpush_back offset content in
    mret (jset DATA content json)
  else mret json.

Fixpoint BuildTypeJsonPatch (fuel : nat) (action : Yaml) : outcome Json :=
  match fuel with
  | 0 => Raise Diverges
  | S fuel' => BuildTypeJsonPatch_with (on_defined (BuildTypeJsonPatch fuel')) action
  end.

End Builders.

(** The body of the loop over [actions] in [ParseTypePatches]; the new name
    is read from the type patch [node], not from the action. *)
Definition parse_type_action (node action : Yaml) (j_patch : Json) : outcome Json :=
  action_name ← as_string (yget "action" action);
  if decide (action_name = "modify_name") then
    new_name ← as_string (yget "default" node);
    mret (jset "NEW_NAME" (JStr new_name) j_patch)
  else if decide (action_name = "delete_type") then
    mret (jset "NEW_NAME" (JStr "") j_patch)
  else mret j_patch.

Fixpoint parse_type_actions (node : Yaml) (actions : list (option Yaml)) (j_patch : Json)
  : outcome Json :=
  match actions with
  | [] => mret j_patch
  | action :: rest =>
      j ← on_defined (λ action, parse_type_action node action j_patch) action;
      parse_type_actions node rest j
  end.

Definition parse_type_patch (node : Yaml) : outcome Json :=
  type_name ← as_string (yget "type_name" node);
  parse_type_actions node (yitems (yget "actions" node))
                     (JObj [("type_name", JStr type_name); ("patch", JObj [])]).

Fixpoint parse_type_patches (nodes : list (option Yaml)) (json_patch : list Json)
  : outcome (list Json) :=
  match nodes with
  | [] => mret json_patch
  | node :: rest =>
      j ← on_defined parse_type_patch node; parse_type_patches rest (json_patch ++ [j])
  end.

Definition ParseTypePatches (root : Yaml) : outcome Json :=
  json_patch ← parse_type_patches (yitems (Some root)) []; mret (JArr json_patch).

(** The body of the loop over [actions] in [ParseAttrPatches]. *)
Definition parse_attr_action (node action : Yaml) (j_patch : Json) : outcome Json :=
  action_name ← as_string (yget "action" action);
  if decide (action_name = "modify_name") then
    new_name ← as_string (yget "default" node);
    mret (jset "NEW_NAME" (JStr new_name) j_patch)
  else if decide (action_name = "delete_attr") then
    mret (jset "NEW_NAME" (JStr "") j_patch)
  else mret j_patch.

Fixpoint parse_attr_actions (node : Yaml) (actions : list (option Yaml)) (j_patch : Json)
  : outcome Json :=
  match actions with
  | [] => mret j_patch
  | action :: rest =>
      j ← on_defined (λ action, parse_attr_action node action j_patch) action;
      parse_attr_actions node rest j
  end.

Definition parse_attr_patch (node : Yaml) : outcome Json :=
  attr_name ← as_string (yget "attr_name" node);
  parse_attr_actions node (yitems (yget "actions" node))
                     (JObj [("attr_name", JStr attr_name); ("patch", JObj [])]).

Fixpoint parse_attr_patches (nodes : list (option Yaml)) (json_patch : list Json)
  : outcome (list Json) :=
  match nodes with
  | [] => mret json_patch
  | node :: rest =>
      j ← on_defined parse_attr_patch node; parse_attr_patches rest (json_patch ++ [j])
  end.

Definition ParseAttrPatches (root : Yaml) : outcome Json :=
  json_patch ← parse_attr_patches (yitems (Some root)) []; mret (JArr json_patch).

End Documents.

End PatchUtil.

(** * Example programs and states

    Concrete inputs on which the properties below are exercised. *)

(** Collaborators that do nothing: hooks that only look, operators whose
    kernels leave the world alone. *)
Definition idle_hook : HookFunc → nat → option nat → M Env unit :=
  λ _ _ _, mret tt.
Definition idle_op : nat → nat → nat → M Env unit :=
  λ _ _ _, mret tt.

(** Collaborators that note each of their calls. The hook 2 also marks the
    operator it is handed as called by an executor again, and an operator's
    [Run] clears the input hooks it carries. *)
Definition noting_hook : HookFunc → nat → option nat → M Env unit := λ h op sc env,
  let o := if decide (h = 2) then SetIsCalledByExecutor true (env_op env) else env_op env in
  (Done tt, {| env_op := o; env_world := env_world env;
               env_trace := env_trace env ++ [HookCall h op sc (env_op env) o] |}).
Definition noting_op : nat → nat → nat → M Env unit := λ op s p env,
  let o := SetInputHooks [] (env_op env) in
  (Done tt, {| env_op := o; env_world := env_world env;
               env_trace := env_trace env ++ [RunCall op s p (env_op env) o] |}).

Definition empty_world : World := {| scopes := ∅; tensors := ∅; next_addr := 0 |}.

Definition feed_desc : OpDesc :=
  {| od_type := "feed"; od_inputs := [("X", ["feed"])]; od_outputs := [("Out", ["x"])] |}.
Definition relu_desc : OpDesc :=
  {| od_type := "relu"; od_inputs := [("X", ["x"])]; od_outputs := [("Out", ["y"])] |}.
Definition while_desc : OpDesc :=
  {| od_type := "while"; od_inputs := [("X", ["y"]); ("Condition", ["c"])];
     od_outputs := [("Out", ["z"]); ("StepScopes", ["s"])] |}.
Definition fetch_desc : OpDesc :=
  {| od_type := "fetch"; od_inputs := [("X", ["z"])]; od_outputs := [("Out", ["fetch"])] |}.

(** A "fetch" descriptor whose "Out" slot is missing, and a block that has it
    between two operators. *)
Definition broken_fetch_desc : OpDesc :=
  {| od_type := "fetch"; od_inputs := [("X", ["z"])]; od_outputs := [] |}.

Definition broken_program : ProgramDesc :=
  [{| AllVars := []; AllOps := [relu_desc; broken_fetch_desc; while_desc] |}].

Definition small_program : ProgramDesc :=
  [{| AllVars := []; AllOps := [feed_desc; relu_desc; while_desc; fetch_desc] |}].

Definition fresh_state : State :=
  {| world := empty_world; exe := new_executor 0; trace := [] |}.

(** The executor with the operators [relu; while], input hooks 1 and 2 and
    output hook 3 registered in that order, on the scope at address 0. *)
Definition hooked_state : State :=
  {| world := {| scopes := {[0 := {| parent_ := None; vars_ := ∅ |}]};
                 tensors := ∅; next_addr := 1 |};
     exe := RegisterOutputHook 3 (RegisterInputHook 2 (RegisterInputHook 1
              {| place_ := 0; scope_ := Some 0;
                 ops_ := [CreateOp relu_desc; CreateOp while_desc];
                 input_hookfuncs_ := []; output_hookfuncs_ := [];
                 interpreter_core_ := None; reuse_cache_ := ∅; cluster_buffer_ := [] |}));
     trace := [] |}.

Definition weights : DenseTensor :=
  {| holder := Some {| alloc_id := 5; alloc_size := 64 |}; dims := [4; 4]%Z |}.

(** The root scope 0 already holds the persistent variable "w0"; scope 1 is
    its child. *)
Definition two_scope_world : World :=
  {| scopes :=
       {[ 0 := {| parent_ := None;
                  vars_ := {[ "w0" := {| var_addr := 10;
                                         var_holder := Some {| ph_type := DENSE_TENSOR;
                                                               ph_obj := 11 |} |} ]} |};
          1 := {| parent_ := Some 0; vars_ := ∅ |} ]};
     tensors := {[ 11 := weights ]};
     next_addr := 20 |}.

Definition var_block : BlockDesc :=
  {| AllVars :=
       [ {| vd_name := "w0"; vd_persistable := true; vd_type := DENSE_TENSOR |};
         {| vd_name := "w1"; vd_persistable := true; vd_type := DENSE_TENSOR |};
         {| vd_name := "x"; vd_persistable := false; vd_type := DENSE_TENSOR |};
         {| vd_name := "@EMPTY@"; vd_persistable := false; vd_type := DENSE_TENSOR |} ];
     AllOps := [] |}.

Definition dense (p : nat) (addr : nat) : Variable_ :=
  {| var_addr := addr; var_holder := Some {| ph_type := DENSE_TENSOR; ph_obj := p |} |}.

Definition sized (id : nat) (bytes : N) : DenseTensor :=
  {| holder := Some {| alloc_id := id; alloc_size := bytes |}; dims := [] |}.

Definition producer (out : list string) : OperatorBase :=
  CreateOp {| od_type := "relu"; od_inputs := []; od_outputs := [("Out", out)] |}.

(** One operator producing "y", "z" and "k"; the scope holds the dense
    tensors "y" and "buf0" and the selected-rows variable "k", but no "z". *)
Definition skipping_state : State :=
  {| world :=
       {| scopes :=
            {[ 0 := {| parent_ := None;
                       vars_ := {[ "y" := dense 30 1; "buf0" := dense 31 2;
                                   "k" := {| var_addr := 3;
                                             var_holder := Some {| ph_type := SELECTED_ROWS;
                                                                   ph_obj := 32 |} |} ]} |} ]};
          tensors := {[ 30 := sized 1 16; 31 := sized 2 8 ]};
          next_addr := 40 |};
     exe := {| place_ := 0; scope_ := Some 0; ops_ := [producer ["y"; "z"; "k"]];
               input_hookfuncs_ := []; output_hookfuncs_ := [];
               interpreter_core_ := None; reuse_cache_ := ∅; cluster_buffer_ := [] |};
     trace := [] |}.

Definition skipping_table : gmap string string :=
  {[ "y" := "buf0"; "z" := "buf0"; "k" := "buf0" ]}.

(** The state after planning with [skipping_table], after planning again with
    the empty table, and after planning a third time with a table whose only
    key is the output of no operator. *)
Definition skipping_planned : State :=
  (MakeReusePlan 1 skipping_table skipping_state).2.
Definition skipping_replanned : State := (MakeReusePlan 1 ∅ skipping_planned).2.
Definition skipping_replanned_again : State :=
  (MakeReusePlan 1 {[ "q" := "buf0" ]} skipping_replanned).2.

(** A cluster with one member, the tensor at 101 (20 bytes), whose canonical
    buffer is the tensor at 104 (10 bytes). *)
Definition growing_state : State :=
  {| world := {| scopes := ∅;
                 tensors := {[ 101 := sized 1 20; 104 := sized 4 10 ]};
                 next_addr := 200 |};
     exe := {| place_ := 0; scope_ := Some 0; ops_ := [producer ["x"]];
               input_hookfuncs_ := []; output_hookfuncs_ := [];
               interpreter_core_ := None;
               reuse_cache_ := {[ 0 := {[ 101 := 0 ]} ]};
               cluster_buffer_ := [Some 104] |};
     trace := [] |}.

(** Three operators producing "x", "b" and "a"; "x" and "b" reuse the buffer
    of "c", and "a" reuses the buffer of "b": the canonical buffer of the
    cluster "b" is a member of the cluster "c". *)
Definition chained_state : State :=
  {| world :=
       {| scopes :=
            {[ 0 := {| parent_ := None;
                       vars_ := {[ "x" := dense 101 1; "b" := dense 102 2;
                                   "a" := dense 103 3; "c" := dense 104 4 ]} |} ]};
          tensors := {[ 101 := sized 1 10; 102 := sized 2 100;
                        103 := sized 3 50; 104 := sized 4 5 ]};
          next_addr := 200 |};
     exe := {| place_ := 0; scope_ := Some 0;
               ops_ := [producer ["x"]; producer ["b"]; producer ["a"]];
               input_hookfuncs_ := []; output_hookfuncs_ := [];
               interpreter_core_ := None; reuse_cache_ := ∅; cluster_buffer_ := [] |};
     trace := [] |}.

Definition chained_table : gmap string string :=
  {[ "x" := "c"; "b" := "c"; "a" := "b" ]}.

(** The state after planning, after the buffer update of the first operator,
    and after a whole [Run] with operators that leave every tensor alone. *)
Definition chained_planned : State := (MakeReusePlan 1 chained_table chained_state).2.
Definition chained_updated : State := (update_shared_holder 0 chained_planned).2.
Definition chained_run : State := (Run idle_hook idle_op chained_planned).2.
Definition cluster_b : nat := find_index "b" (cluster_names_of chained_table).

(** An action named "modify_output_type", which has a branch of its own further
    down the dispatch of [ParseOpPatches], and the patch of an operator before
    any action. *)
Definition retype_action : PatchUtil.Yaml :=
  PatchUtil.YMap [("action", PatchUtil.YScalar "modify_output_type");
                  ("object", PatchUtil.YScalar "0");
                  ("default", PatchUtil.YScalar "pir::Int32Type")].

Definition empty_op_patch : PatchUtil.Json :=
  PatchUtil.JObj [("op_name", PatchUtil.JStr "pd_op.relu"); ("patch", PatchUtil.JObj [])].

(** A block that declares persistent variables only (and the unnamed one). *)
Definition persistent_block : BlockDesc :=
  {| AllVars :=
       [ {| vd_name := "w0"; vd_persistable := true; vd_type := DENSE_TENSOR |};
         {| vd_name := "@EMPTY@"; vd_persistable := false; vd_type := DENSE_TENSOR |} ];
     AllOps := [] |}.

(** An executor prepared on the child scope of [two_scope_world]. *)
Definition child_scope_state : State :=
  {| world := two_scope_world; exe := set_scope_ (Some 1) (new_executor 0); trace := [] |}.

(** * Properties of the patch parser *)

Module PatchUtilFacts.
Import PatchUtil.

(** The six action names the dispatch tests before its third branch. *)
Definition earlier_action_names : list string :=
  ["add_attr"; "modify_attr"; "delete_attr";
   "add_output_attr"; "modify_output_attr"; "delete_output_attr"].

Lemma modify_attr_name_condition_true action_name :
  modify_attr_name_condition action_name = true.
Proof. unfold modify_attr_name_condition, literal_as_condition. apply orb_true_r. Qed.

(** C9: the condition [action_name == "modify_attr_name" ||
    "modify_output_attr_name"] is true for every action name, so an action
    whose name is none of the six names tested earlier always runs the
    modify_attr_name branch: it reads [object] and [default] and pushes a
    rename entry, into [ATTRS] only when the name is exactly
    "modify_attr_name" and into [OPRESULTS_ATTRS] for every other name. *)
Theorem ParseOpPatches_modify_attr_name_branch_always_taken
  (NAME ATTR_TYPE ATTRS OPRESULTS_ATTRS OPRESULTS VALUE_ID TYPE_TYPE : string)
  (BuildAttrJsonPatch BuildTypeJsonPatch : Yaml → outcome Json)
  (as_int : option Yaml → outcome Z)
  (action : Yaml) (action_name : string) (j_patch : Json) :
  as_string (yget "action" action) = Done action_name →
  action_name ∉ earlier_action_names →
  (∀ name, modify_attr_name_condition name = true) ∧
  parse_action NAME ATTR_TYPE ATTRS OPRESULTS_ATTRS OPRESULTS VALUE_ID TYPE_TYPE
    BuildAttrJsonPatch BuildTypeJsonPatch as_int action j_patch =
    (old_name ← as_string (yget "object" action);
     new_name ← as_string (yget "default" action);
     mret (push_patch
             (if decide (action_name = "modify_attr_name") then ATTRS else OPRESULTS_ATTRS)
             (JObj [(NAME, JStr old_name); ("NEW_NAME", JStr new_name)]) j_patch)).
Proof.
  intros Hname Hnot. split; [apply modify_attr_name_condition_true|].
  unfold parse_action. rewrite Hname. cbn [mbind outcome_bind].
  unfold earlier_action_names in Hnot.
  rewrite !not_elem_of_cons in Hnot.
  destruct Hnot as (?&?&?&?&?&?&_).
  rewrite decide_False by tauto.
  rewrite decide_False by tauto.
  by rewrite modify_attr_name_condition_true.
Qed.

Lemma ParseOpPatches_modify_attr_name_branch_witness :
  parse_action "N" "AT" "A" "OA" "O" "%" "TT"
    (λ _, Done JNull) (λ _, Done JNull) (λ _, Done 0%Z) retype_action empty_op_patch =
  Done (JObj [("op_name", JStr "pd_op.relu");
              ("patch", JObj [("OA", JArr [JObj [("N", JStr "0");
                                                 ("NEW_NAME", JStr "pir::Int32Type")]])])]).
Proof.
  refine (eq_trans (proj2 (ParseOpPatches_modify_attr_name_branch_always_taken
    "N" "AT" "A" "OA" "O" "%" "TT" (λ _, Done JNull) (λ _, Done JNull) (λ _, Done 0%Z)
    retype_action "modify_output_type" empty_op_patch _ _)) _).
  - reflexivity.
  - unfold earlier_action_names. by apply (bool_decide_unpack _).
  - reflexivity.
Defined.

End PatchUtilFacts.

(** * Properties of the executor *)

(** ** Reasoning about computations *)

Lemma bind_inv {S A B} (m : M S A) (f : A → M S B) s r s' :
  (m ≫= f) s = (r, s') →
  (∃ a s1, m s = (Done a, s1) ∧ f a s1 = (r, s')) ∨
  (∃ e, m s = (Raise e, s') ∧ r = Raise e).
Proof.
  unfold mbind, M_bind. destruct (m s) as [[a|e] s1]; intros H.
  - left. eauto.
  - right. inversion H; subst. eauto.
Qed.

Lemma bind_Done {S A B} (m : M S A) (f : A → M S B) s a s1 :
  m s = (Done a, s1) → (m ≫= f) s = f a s1.
Proof. unfold mbind, M_bind. by intros ->. Qed.

Lemma bind_Raise {S A B} (m : M S A) (f : A → M S B) s e s1 :
  m s = (Raise e, s1) → (m ≫= f) s = (Raise e, s1).
Proof. unfold mbind, M_bind. by intros ->. Qed.

Lemma foreach_cons {S A} (x : A) l (body : A → M S unit) s :
  foreach (x :: l) body s = (body x ;; foreach l body) s.
Proof. reflexivity. Qed.

(** A relation between the state before and the state after that holds however
    the computation ends. *)
Definition preserves {S A} (R : S → S → Prop) (m : M S A) : Prop :=
  ∀ s r s', m s = (r, s') → R s s'.

Section Preserves.
Context {S : Type} (R : S → S → Prop) `{!Reflexive R, !Transitive R}.

Lemma preserves_ret {A} (a : A) : preserves R (mret a : M S A).
Proof. intros s r s' H. inversion H. reflexivity. Qed.

Lemma preserves_raise {A} e : preserves R (raise e : M S A).
Proof. intros s r s' H. inversion H. reflexivity. Qed.

Lemma preserves_lift {A} (o : outcome A) : preserves R (lift o : M S A).
Proof. intros s r s' H. inversion H. reflexivity. Qed.

Lemma preserves_gets {A} (f : S → A) : preserves R (gets f).
Proof. intros s r s' H. inversion H. reflexivity. Qed.

Lemma preserves_get : preserves R (get : M S S).
Proof. intros s r s' H. inversion H. reflexivity. Qed.

Lemma preserves_modify (f : S → S) : (∀ s, R s (f s)) → preserves R (modify f).
Proof. intros Hf s r s' H. inversion H. apply Hf. Qed.

Lemma preserves_bind {A B} (m : M S A) (f : A → M S B) :
  preserves R m → (∀ a, preserves R (f a)) → preserves R (m ≫= f).
Proof.
  intros Hm Hf s r s' H. apply bind_inv in H as [(a & s1 & H1 & H2)|(e & H1 & _)].
  - etrans; [by eapply Hm | by eapply Hf].
  - by eapply Hm.
Qed.

Lemma preserves_foreach {A} (l : list A) (body : A → M S unit) :
  (∀ x, x ∈ l → preserves R (body x)) → preserves R (foreach l body).
Proof.
  induction l as [|x l IH]; intros Hbody.
  - apply preserves_ret.
  - apply preserves_bind.
    + apply Hbody. by left.
    + intros _. apply IH. intros y Hy. apply Hbody. by right.
Qed.

End Preserves.

(** The type and the variable names of an operator: the data of the
    descriptor it was created from. *)
Definition op_desc_of (op : OperatorBase) : OpDesc :=
  {| od_type := op_type op; od_inputs := op_inputs op; od_outputs := op_outputs op |}.

(** The two executors differ at most in their cluster buffers. *)
Record same_plan (e e' : NaiveExecutor) : Prop := {
  sp_place : place_ e' = place_ e;
  sp_scope : scope_ e' = scope_ e;
  sp_ops : ops_ e' = ops_ e;
  sp_input : input_hookfuncs_ e' = input_hookfuncs_ e;
  sp_output : output_hookfuncs_ e' = output_hookfuncs_ e;
  sp_interpreter : interpreter_core_ e' = interpreter_core_ e;
  sp_cache : reuse_cache_ e' = reuse_cache_ e
}.

Global Instance same_plan_refl : Reflexive same_plan.
Proof. by constructor. Qed.

Global Instance same_plan_trans : Transitive same_plan.
Proof.
  intros e1 e2 e3 [] []. constructor; etrans; eauto.
Qed.

(** The executor keeps its plan and nothing is added to the callees' record. *)
Definition quiet (st st' : State) : Prop :=
  same_plan (exe st) (exe st') ∧ trace st' = trace st.

Global Instance quiet_refl : Reflexive quiet.
Proof. by split. Qed.

Global Instance quiet_trans : Transitive quiet.
Proof. intros s1 s2 s3 [? H1] [? H2]. split; [by etrans|]. by rewrite H2. Qed.

(** ** What [Run] calls, and in which order *)

(** Who is called: a hook on the operator at an address, or the [Run] of the
    operator at an address. *)
Inductive Callee :=
| Hook (h : HookFunc) (op : nat)
| Operator (op : nat).

Definition callee (c : Call) : Callee :=
  match c with
  | HookCall h op _ _ _ => Hook h op
  | RunCall op _ _ _ _ => Operator op
  end.

Definition call_before (c : Call) : OperatorBase :=
  match c with
  | HookCall _ _ _ before _ => before
  | RunCall _ _ _ before _ => before
  end.

Definition call_after (c : Call) : OperatorBase :=
  match c with
  | HookCall _ _ _ _ after => after
  | RunCall _ _ _ _ after => after
  end.

(** The callees of [Run] for the operator at address [op], with the input
    hooks [ins] and the output hooks [outs] registered, and of a whole [Run]
    of the executor [e]. *)
Definition op_script (ins outs : list HookFunc) (op : nat) : list Callee :=
  ((λ h, Hook h op) <$> ins) ++ [Operator op] ++ ((λ h, Hook h op) <$> outs).

Definition run_script (e : NaiveExecutor) : list Callee :=
  concat (op_script (input_hookfuncs_ e) (output_hookfuncs_ e)
            <$> seq 0 (length (ops_ e))).

(** The operator [o] once [Run] has propagated the hook lists of the executor
    [e] into it, which it does for the two composite control-flow types
    only. *)
Definition with_hooks (e : NaiveExecutor) (o : OperatorBase) : OperatorBase :=
  if decide (Type_ o = "while" ∨ Type_ o = "conditional_block")
  then SetInputHooks (input_hookfuncs_ e) (SetOutputHooks (output_hookfuncs_ e) o)
  else o.

(** The hooks [hs] called in turn on the operator at address [op]: the first
    finds the object [o], each next one the object the one before it left,
    and the last leaves [o']. *)
Inductive hooks_called (op : nat) (sc : option nat)
  : list HookFunc → OperatorBase → list Call → OperatorBase → Prop :=
| hooks_called_nil o : hooks_called op sc [] o [] o
| hooks_called_cons h hs o o1 cs o' :
    hooks_called op sc hs o1 cs o' →
    hooks_called op sc (h :: hs) o (HookCall h op sc o o1 :: cs) o'.

(** The calls of [Run] for the operator at address [op], which is the object
    [o] when its turn comes and [o'] afterwards: the operator is marked as
    not called by an executor of its own, the input hooks are called in
    turn, the operator runs on the object the last input hook left, with the
    hook lists propagated into it where that applies, and the output hooks
    are called in turn on what the operator's [Run] left. *)
Inductive op_processed (e : NaiveExecutor) (op : nat) (o : OperatorBase)
  : list Call → OperatorBase → Prop :=
| op_processed_intro s cs_in o1 o2 cs_out o' :
    scope_ e = Some s →
    hooks_called op (scope_ e) (input_hookfuncs_ e) (SetIsCalledByExecutor false o) cs_in o1 →
    hooks_called op (scope_ e) (output_hookfuncs_ e) o2 cs_out o' →
    op_processed e op o
      (cs_in ++ RunCall op s (place_ e) (with_hooks e o1) o2 :: cs_out) o'.

(** The same for the operators [ops] at the addresses [k], [k + 1], ... *)
Inductive ops_processed (e : NaiveExecutor)
  : nat → list OperatorBase → list Call → list OperatorBase → Prop :=
| ops_processed_nil k : ops_processed e k [] [] []
| ops_processed_cons k o ops cs o' css ops' :
    op_processed e k o cs o' → ops_processed e (S k) ops css ops' →
    ops_processed e k (o :: ops) (cs ++ css) (o' :: ops').

(** The collaborators note each of their calls, and nothing else, in the
    callees' record, also when they throw. Under this condition the record
    tells which calls the executor has made. *)
Definition reports (hook_call : HookFunc → nat → option nat → M Env unit)
  (op_run : nat → nat → nat → M Env unit) : Prop :=
  (∀ h op sc env r env', hook_call h op sc env = (r, env') →
     env_trace env' = env_trace env ++ [HookCall h op sc (env_op env) (env_op env')]) ∧
  (∀ op s p env r env', op_run op s p env = (r, env') →
     env_trace env' = env_trace env ++ [RunCall op s p (env_op env) (env_op env')]).

(** The operators that were run according to a record, by address, each with
    the object its [Run] found. *)
Definition run_operands (calls : list Call) : list (nat * OperatorBase) :=
  omap (λ c, match c with
             | RunCall op _ _ before _ => Some (op, before)
             | HookCall _ _ _ _ _ => None
             end) calls.

(** The callee of a call has left the type and the variable names of the
    operator as it found them. *)
Definition keeps_descriptor (c : Call) : Prop :=
  op_desc_of (call_after c) = op_desc_of (call_before c).

(** The two executors differ at most in their operator objects and in their
    cluster buffers. *)
Record same_setup (e e' : NaiveExecutor) : Prop := {
  ss_place : place_ e' = place_ e;
  ss_scope : scope_ e' = scope_ e;
  ss_input : input_hookfuncs_ e' = input_hookfuncs_ e;
  ss_output : output_hookfuncs_ e' = output_hookfuncs_ e;
  ss_interpreter : interpreter_core_ e' = interpreter_core_ e;
  ss_cache : reuse_cache_ e' = reuse_cache_ e
}.

Global Instance same_setup_refl : Reflexive same_setup.
Proof. by constructor. Qed.

Global Instance same_setup_trans : Transitive same_setup.
Proof. intros e1 e2 e3 [] []. constructor; etrans; eauto. Qed.

Lemma same_plan_setup e e' : same_plan e e' → same_setup e e'.
Proof. intros []. by constructor. Qed.

Lemma same_setup_set_ops f e : same_setup e (set_ops_ f e).
Proof. by constructor. Qed.

Lemma set_ops_id op o e :
  ops_ e !! op = Some o → set_ops_ (λ ops, <[op := o]> ops) e = e.
Proof. intros Ho. destruct e. unfold set_ops_. cbn in *. by rewrite list_insert_id. Qed.

Lemma hooks_called_callee op sc hs o cs o' :
  hooks_called op sc hs o cs o' → callee <$> cs = (λ h, Hook h op) <$> hs.
Proof. induction 1; cbn; [done|]. by f_equal. Qed.

Lemma op_processed_callee e op o cs o' :
  op_processed e op o cs o' →
  callee <$> cs = op_script (input_hookfuncs_ e) (output_hookfuncs_ e) op.
Proof.
  intros [s cs_in o1 o2 cs_out o3 _ Hin Hout]. unfold op_script.
  rewrite fmap_app, fmap_cons. cbn.
  by rewrite (hooks_called_callee _ _ _ _ _ _ Hin), (hooks_called_callee _ _ _ _ _ _ Hout).
Qed.

Lemma ops_processed_length e k ops cs ops' :
  ops_processed e k ops cs ops' → length ops' = length ops.
Proof. induction 1; cbn; [done|]. by f_equal. Qed.

Lemma ops_processed_callee e k ops cs ops' :
  ops_processed e k ops cs ops' →
  callee <$> cs = concat (op_script (input_hookfuncs_ e) (output_hookfuncs_ e)
                            <$> seq k (length ops)).
Proof.
  induction 1 as [|k o ops cs o' css ops' Hop _ IH]; [done|].
  cbn. rewrite fmap_app, IH. f_equal. by eapply op_processed_callee.
Qed.

Lemma op_processed_setup e e' op o cs o' :
  same_setup e e' → op_processed e' op o cs o' → op_processed e op o cs o'.
Proof.
  intros [Hp Hs Hi Ho _ _] [s cs_in o1 o2 cs_out o3 Hsc Hin Hout].
  unfold with_hooks. rewrite Hp, Hi, Ho. rewrite Hs, Hi in Hin. rewrite Hs, Ho in Hout.
  rewrite Hs in Hsc.
  exact (op_processed_intro e op o s cs_in o1 o2 cs_out o3 Hsc Hin Hout).
Qed.

Lemma run_operands_app cs1 cs2 :
  run_operands (cs1 ++ cs2) = run_operands cs1 ++ run_operands cs2.
Proof. apply omap_app. Qed.

Lemma run_operands_callee cs :
  (run_operands cs).*1 =
  omap (λ c, match c with Operator op => Some op | Hook _ _ => None end) (callee <$> cs).
Proof.
  induction cs as [|c cs IH]; [done|]. destruct c; cbn; [done|].
  unfold run_operands in IH. cbn in IH. by rewrite <- IH.
Qed.

Lemma run_addresses_script ins outs k n :
  omap (λ c, match c with Operator op => Some op | Hook _ _ => None end)
       (concat (op_script ins outs <$> seq k n)) = seq k n.
Proof.
  revert k. induction n as [|n IH]; intros k; [done|].
  cbn. unfold op_script at 1. rewrite !omap_app, IH.
  assert (Hhooks : ∀ hs, omap (λ c, match c with Operator op => Some op | Hook _ _ => None end)
                              ((λ h, Hook h k) <$> hs) = []).
  { intros hs. induction hs as [|h hs IHh]; [done|]. cbn. exact IHh. }
  by rewrite !Hhooks.
Qed.

Lemma hooks_called_descriptor op sc hs o cs o' :
  hooks_called op sc hs o cs o' → Forall keeps_descriptor cs →
  op_desc_of o' = op_desc_of o.
Proof.
  induction 1 as [|h hs o o1 cs o' _ IH]; [done|].
  intros [Hc Hcs]%Forall_cons. rewrite (IH Hcs). exact Hc.
Qed.

Lemma op_desc_of_with_hooks e o : op_desc_of (with_hooks e o) = op_desc_of o.
Proof. unfold with_hooks. by case_decide. Qed.

Lemma ops_processed_descriptors e k ops cs ops' :
  ops_processed e k ops cs ops' → Forall keeps_descriptor cs →
  op_desc_of <$> (run_operands cs).*2 = op_desc_of <$> ops ∧
  op_desc_of <$> ops' = op_desc_of <$> ops.
Proof.
  induction 1 as [|k o ops cs o' css ops' Hop _ IH]; [done|].
  intros [Hcs Hcss]%Forall_app. destruct (IH Hcss) as [IH1 IH2].
  destruct Hop as [s cs_in o1 o2 cs_out o3 _ Hin Hout].
  apply Forall_app in Hcs as [Hcs_in [Hrun Hcs_out]%Forall_cons].
  pose proof (hooks_called_descriptor _ _ _ _ _ _ Hin Hcs_in) as H1.
  pose proof (hooks_called_descriptor _ _ _ _ _ _ Hout Hcs_out) as H3.
  unfold keeps_descriptor in Hrun. cbn in Hrun, H1.
  assert (Hnone : ∀ cs0 hs o0 o0', hooks_called k (scope_ e) hs o0 cs0 o0' →
                    run_operands cs0 = []).
  { intros cs0 hs o0 o0'. induction 1; [done|]. cbn. assumption. }
  rewrite !run_operands_app, (Hnone _ _ _ _ Hin).
  change (run_operands (RunCall k s (place_ e) (with_hooks e o1) o2 :: cs_out))
    with ((k, with_hooks e o1) :: run_operands cs_out).
  rewrite (Hnone _ _ _ _ Hout). cbn. rewrite IH1, IH2. split; f_equal.
  - by rewrite op_desc_of_with_hooks.
  - rewrite H3, Hrun, op_desc_of_with_hooks. exact H1.
Qed.

(** Decomposes a [preserves] goal along the structure of the computation. *)
Ltac preserves_step :=
  lazymatch goal with
  | |- Reflexive _ => apply _
  | |- Transitive _ => apply _
  | |- preserves _ (mret _) => apply preserves_ret
  | |- preserves _ (raise _) => apply preserves_raise
  | |- preserves _ (lift _) => apply preserves_lift
  | |- preserves _ (gets _) => apply preserves_gets
  | |- preserves _ get => apply preserves_get
  | |- preserves _ (_ ≫= _) => apply preserves_bind
  | |- preserves _ (foreach _ _) => apply preserves_foreach
  | |- preserves _ (if decide _ then _ else _) => case_decide
  | |- preserves _ (match ?x with _ => _ end) => destruct x
  | |- ∀ _, _ => intro
  end.

Create HintDb quiet_db.

(** ** Building the operator list *)

(** A descriptor of one of the two I/O boundary pseudo-operators. *)
Definition is_io_marker (d : OpDesc) : Prop := od_type d = "feed" ∨ od_type d = "fetch".

Global Instance is_io_marker_dec d : Decision (is_io_marker d).
Proof. unfold is_io_marker. apply _. Defined.

(** The descriptor has a slot "X" among its inputs and a slot "Out" among its
    outputs, each with a first name: what the log line of [CreateOps] reads
    from a descriptor it skips. *)
Definition has_log_operands (d : OpDesc) : Prop :=
  ∃ x xs out outs, Input "X" d = Done (x :: xs) ∧ Output "Out" d = Done (out :: outs).

(** What [CreateOps] raises on a skipped descriptor without these names: the
    exception of the accessor for a missing slot, or the fault of indexing an
    empty one. *)
Definition log_skip_error (e : error) : Prop :=
  e = External 2 ∨ e = Fault EmptySlotIndexed.

Lemma log_skip_spec d st r st' :
  log_skip d st = (r, st') →
  st' = st ∧
  match r with
  | Done _ => has_log_operands d
  | Raise e => ¬ has_log_operands d ∧ log_skip_error e
  end.
Proof.
  unfold log_skip, lift, has_log_operands, log_skip_error.
  unfold mbind, M_bind, mret, M_ret.
  destruct (Input "X" d) as [[|x xs]|e1] eqn:HX; cbn.
  - intros [= <- <-]. split; [done|]. split; [|by right]. by intros (? & ? & ? & ? & [=] & _).
  - destruct (Output "Out" d) as [[|out outs]|e2] eqn:HO; cbn.
    + intros [= <- <-]. split; [done|]. split; [|by right].
      by intros (? & ? & ? & ? & _ & [=]).
    + intros [= <- <-]. split; [done|]. by exists x, xs, out, outs.
    + intros [= <- <-]. split; [done|]. split; [by intros (? & ? & ? & ? & _ & [=])|].
      left. unfold Output in HO. clear HX.
      induction (od_outputs d) as [|kv l IH]; cbn in HO; [by injection HO as <-|].
      case_decide; [done|auto].
  - intros [= <- <-]. split; [done|]. split; [by intros (? & ? & ? & ? & [=] & _)|].
    left. unfold Input in HX.
    induction (od_inputs d) as [|kv l IH]; cbn in HX; [by injection HX as <-|].
    case_decide; [done|auto].
Qed.

(** However [CreateOps] ends, it has gone through the descriptors [gone] of
    the block, one after the other, and appended an operator for each of them
    that is no I/O marker; it stops, with an error, at the first I/O marker
    that lacks the names its log line reads. *)
Lemma CreateOps_spec desc block_id b st r st' :
  desc !! block_id = Some b → CreateOps desc block_id st = (r, st') →
  world st' = world st ∧ trace st' = trace st ∧
  ∃ gone rest, AllOps b = gone ++ rest ∧
    Forall (λ d, is_io_marker d → has_log_operands d) gone ∧
    exe st' = set_ops_ (λ ops, ops ++ (CreateOp <$> filter (λ d, ¬ is_io_marker d) gone))
                       (exe st) ∧
    match r with
    | Done _ => rest = []
    | Raise e => log_skip_error e ∧
                 ∃ d rest', rest = d :: rest' ∧ is_io_marker d ∧ ¬ has_log_operands d
    end.
Proof.
  intros Hb. unfold CreateOps, Block. rewrite Hb.
  unfold lift at 1. rewrite (bind_Done _ _ _ b st eq_refl).
  generalize (AllOps b). intros l. revert st.
  induction l as [|d l IH]; intros st.
  - intros [= <- <-]. split; [done|]. split; [done|]. exists [], []. cbn.
    split; [done|]. split; [done|]. split; [|done].
    destruct (exe st); unfold set_ops_; cbn. by rewrite app_nil_r.
  - rewrite foreach_cons.
    destruct (decide (od_type d = "feed" ∨ od_type d = "fetch")) as [Hio|Hio].
    + intros Hrun. apply bind_inv in Hrun as [(a & s1 & H1 & Hrun)|(e & H1 & ->)].
      * apply log_skip_spec in H1 as [-> Hlog].
        destruct (IH _ Hrun) as (Hw & Ht & gone & rest & Hl & Hgone & He & Hr).
        split; [done|]. split; [done|]. exists (d :: gone), rest. rewrite Hl.
        split; [done|]. split; [by constructor|]. split; [|done].
        rewrite filter_cons, decide_False by (intros Hn; by apply Hn). exact He.
      * apply log_skip_spec in H1 as [-> [Hlog He]].
        split; [done|]. split; [done|]. exists [], (d :: l). cbn.
        split; [done|]. split; [done|]. split.
        { destruct (exe st); unfold set_ops_; cbn. by rewrite app_nil_r. }
        split; [done|]. by exists d, l.
    + erewrite bind_Done; [|reflexivity]. intros Hrun.
      destruct (IH _ Hrun) as (Hw & Ht & gone & rest & Hl & Hgone & He & Hr).
      split; [done|]. split; [done|]. exists (d :: gone), rest. rewrite Hl.
      split; [done|]. split; [by constructor|]. split; [|done].
      rewrite filter_cons, decide_True by done. rewrite He. cbn.
      unfold set_ops_; cbn. by rewrite <- app_assoc.
Qed.

(** [CreateOps] returns exactly when every I/O marker of the block has the
    names its log line reads. *)
Lemma CreateOps_returns desc block_id b st r st' :
  desc !! block_id = Some b → CreateOps desc block_id st = (r, st') →
  r = Done tt ↔ Forall (λ d, is_io_marker d → has_log_operands d) (AllOps b).
Proof.
  intros Hb Hrun.
  destruct (CreateOps_spec _ _ _ _ _ _ Hb Hrun) as (_ & _ & gone & rest & Hl & Hgone & _ & Hr).
  rewrite Hl. destruct r as [[]|e].
  - subst rest. rewrite app_nil_r. by split.
  - destruct Hr as (_ & d & rest' & -> & Hio & Hno). split; [done|].
    intros [_ [Hd _]%Forall_cons]%Forall_app. by destruct Hno; apply Hd.
Qed.

Section ExecutorFacts.
Variable kEmptyVarName : string.
Variable hook_call : HookFunc → nat → option nat → M Env unit.
Variable op_run : nat → nat → nat → M Env unit.

Lemma load_cluster_inv id st r st' :
  load_cluster id st = (r, st') → st' = st.
Proof.
  unfold load_cluster.
  destruct (cluster_buffer_ (exe st) !! id) as [[p|]|]; by inversion 1.
Qed.

Lemma load_cluster_quiet id : preserves quiet (load_cluster id).
Proof. intros st r st' H. apply load_cluster_inv in H. by subst. Qed.

Lemma store_cluster_quiet idx p : preserves quiet (store_cluster idx p).
Proof.
  intros st r st'. unfold store_cluster. case_decide; inversion 1; subst; [|done].
  split; [by constructor | done].
Qed.

Lemma memory_size_at_inv p st r st' :
  memory_size_at p st = (r, st') → st' = st.
Proof.
  unfold memory_size_at, gets, lift, mbind, M_bind, tensor_at.
  destruct (tensors (world st) !! p); by inversion 1.
Qed.

Lemma memory_size_at_quiet p : preserves quiet (memory_size_at p).
Proof. intros st r st' H. apply memory_size_at_inv in H. by subst. Qed.

Lemma share_buffer_quiet dst src : preserves quiet (share_buffer dst src).
Proof.
  intros st r st'. unfold share_buffer, gets, lift, mbind, M_bind, tensor_at, modify.
  destruct (tensors (world st) !! dst); [|by inversion 1].
  destruct (tensors (world st) !! src); by inversion 1.
Qed.

Hint Resolve load_cluster_quiet store_cluster_quiet memory_size_at_quiet
  share_buffer_quiet : quiet_db.

Lemma realias_cluster_quiet id : preserves quiet (realias_cluster id).
Proof. unfold realias_cluster. repeat preserves_step; auto with quiet_db. Qed.

Hint Resolve realias_cluster_quiet : quiet_db.

Lemma update_cluster_quiet it : preserves quiet (update_cluster it).
Proof. unfold update_cluster. repeat preserves_step; auto with quiet_db. Qed.

Hint Resolve update_cluster_quiet : quiet_db.

Lemma update_shared_holder_quiet op : preserves quiet (update_shared_holder op).
Proof. unfold update_shared_holder. repeat preserves_step; auto with quiet_db. Qed.

(** A call of a collaborator, seen from the executor. *)
Lemma hand_over_inv op o (m : M Env unit) st r st' :
  ops_ (exe st) !! op = Some o → hand_over op m st = (r, st') →
  ∃ env, m {| env_op := o; env_world := world st; env_trace := trace st |} = (r, env) ∧
         world st' = env_world env ∧ trace st' = env_trace env ∧
         exe st' = set_ops_ (λ ops, <[op := env_op env]> ops) (exe st).
Proof.
  intros Ho. unfold hand_over. rewrite Ho. destruct (m _) as [r1 env].
  intros [= <- <-]. by exists env.
Qed.

Lemma alter_insert_eq {A} (f : A → A) k x (l : list A) :
  alter f k (<[k := x]> l) = <[k := f x]> l.
Proof.
  apply list_eq. intros i. destruct (decide (i = k)) as [->|Hne].
  - rewrite list_lookup_alter_eq. destruct (decide (k < length l)).
    + by rewrite !list_lookup_insert_eq.
    + by rewrite !lookup_ge_None_2 by (rewrite length_insert; lia).
  - by rewrite list_lookup_alter_ne, !list_lookup_insert_ne.
Qed.

Lemma set_ops_insert_insert op o1 o2 e :
  set_ops_ (λ ops, <[op := o2]> ops) (set_ops_ (λ ops, <[op := o1]> ops) e)
  = set_ops_ (λ ops, <[op := o2]> ops) e.
Proof. unfold set_ops_. cbn. by rewrite list_insert_insert_eq. Qed.

Section Reported.
Hypothesis reported : reports hook_call op_run.

(** The loop over a hook list, for the operator at address [op]. *)
Lemma hooks_loop_calls op sc hs : ∀ st o r st',
  ops_ (exe st) !! op = Some o →
  foreach hs (λ func, hand_over op (hook_call func op sc)) st = (r, st') →
  ∃ cs o', trace st' = trace st ++ cs ∧
    exe st' = set_ops_ (λ ops, <[op := o']> ops) (exe st) ∧
    callee <$> cs `prefix_of` (λ h, Hook h op) <$> hs ∧
    (r = Done tt → hooks_called op sc hs o cs o').
Proof.
  induction hs as [|h hs IH]; intros st o r st' Ho.
  - intros [= <- <-]. exists [], o. rewrite app_nil_r, (set_ops_id _ _ _ Ho).
    split; [done|]. split; [done|]. split; [done|]. intros _. constructor.
  - rewrite foreach_cons. intros Hrun.
    assert (Hlt : op < length (ops_ (exe st))) by (by eapply lookup_lt_Some).
    apply bind_inv in Hrun as [([] & s1 & H1 & Hrun)|(e & H1 & ->)].
    + destruct (hand_over_inv _ _ _ _ _ _ Ho H1) as (env & Hcall & Hw & Ht & He).
      apply (proj1 reported) in Hcall. cbn in Hcall.
      destruct (IH s1 (env_op env) r st') as (cs & o' & Ht' & He' & Hpre & Hdone); [|done|].
      { rewrite He. cbn. by apply list_lookup_insert_eq. }
      exists (HookCall h op sc o (env_op env) :: cs), o'.
      split; [by rewrite Ht', Ht, Hcall, <- app_assoc|].
      split; [by rewrite He', He, set_ops_insert_insert|].
      split; [by apply prefix_cons|]. intros Hr. constructor. by apply Hdone.
    + destruct (hand_over_inv _ _ _ _ _ _ Ho H1) as (env & Hcall & Hw & Ht & He).
      apply (proj1 reported) in Hcall. cbn in Hcall.
      exists [HookCall h op sc o (env_op env)], (env_op env).
      split; [by rewrite Ht, Hcall|]. split; [done|].
      split; [apply prefix_cons, prefix_nil|done].
Qed.

(** The calls [Run] makes for the operator at address [k]. *)
Lemma run_op_calls k o st r st' :
  ops_ (exe st) !! k = Some o → run_op hook_call op_run k st = (r, st') →
  ∃ cs o', trace st' = trace st ++ cs ∧ same_setup (exe st) (exe st') ∧
    ops_ (exe st') = <[k := o']> (ops_ (exe st)) ∧
    callee <$> cs `prefix_of`
      op_script (input_hookfuncs_ (exe st)) (output_hookfuncs_ (exe st)) k ∧
    (r = Done tt → op_processed (exe st) k o cs o').
Proof.
  intros Ho. unfold run_op, op_script.
  assert (Hlt : k < length (ops_ (exe st))) by (by eapply lookup_lt_Some).
  set (ins := input_hookfuncs_ (exe st)). set (outs := output_hookfuncs_ (exe st)).
  unfold set_op at 1. erewrite bind_Done; [|reflexivity].
  erewrite bind_Done; [|reflexivity]. cbn [exe on_exe].
  set (stA := on_exe (set_ops_ (λ ops, alter (SetIsCalledByExecutor false) k ops)) st).
  assert (HoA : ops_ (exe stA) !! k = Some (SetIsCalledByExecutor false o)).
  { cbn. by rewrite list_lookup_alter_eq, Ho. }
  assert (HeA : exe stA = set_ops_ (λ ops, <[k := SetIsCalledByExecutor false o]> ops) (exe st)).
  { unfold stA, set_ops_. cbn. f_equal. rewrite list_insert_alter.
    apply list_alter_ext; [|done]. intros x Hx. rewrite Ho in Hx. by injection Hx as <-. }
  change (scope_ (set_ops_ _ (exe st))) with (scope_ (exe st)).
  change (place_ (set_ops_ _ (exe st))) with (place_ (exe st)).
  change (input_hookfuncs_ (set_ops_ _ (exe st))) with ins.
  change (output_hookfuncs_ (set_ops_ _ (exe st))) with outs.
  intros Hrun.
  (* the input hooks *)
  apply bind_inv in Hrun as [([] & stB & HB & Hrun)|(e & HB & ->)].
  2:{ destruct (hooks_loop_calls k (scope_ (exe st)) ins stA _ _ _ HoA HB)
        as (cs & o1 & Ht & He & Hpre & _).
      exists cs, o1. split; [done|]. rewrite He, HeA, set_ops_insert_insert.
      split; [apply same_setup_set_ops|]. split; [done|].
      split; [by apply prefix_app_r|done]. }
  destruct (hooks_loop_calls k (scope_ (exe st)) ins stA _ _ _ HoA HB)
    as (cs_in & o1 & HtB & HeB & _ & Hin).
  specialize (Hin eq_refl). rewrite HeA, set_ops_insert_insert in HeB.
  change (trace stA) with (trace st) in HtB.
  assert (HoB : ops_ (exe stB) !! k = Some o1).
  { rewrite HeB. cbn. by apply list_lookup_insert_eq. }
  (* the hook lists of a composite operator *)
  unfold with_op at 1 in Hrun.
  apply bind_inv in Hrun as [([] & stC & HC & Hrun)|(e & HC & ->)].
  2:{ exfalso. revert HC. erewrite bind_Done; [|reflexivity]. rewrite HoB.
      case_decide; [|done]. unfold set_op. erewrite bind_Done; [|reflexivity]. done. }
  assert (HstC : trace stC = trace stB ∧ world stC = world stB ∧
                 exe stC = set_ops_ (λ ops, <[k := with_hooks (exe st) o1]> ops) (exe st)).
  { revert HC. erewrite bind_Done; [|reflexivity]. rewrite HoB.
    unfold with_hooks. fold ins outs. case_decide.
    - unfold set_op. erewrite bind_Done; [|reflexivity]. intros [= <-].
      split; [done|]. split; [done|]. cbn. rewrite HeB. unfold set_ops_. cbn. f_equal.
      by rewrite !alter_insert_eq.
    - intros [= <-]. split; [done|]. split; [done|]. exact HeB. }
  destruct HstC as (HtC & HwC & HeC).
  assert (HoC : ops_ (exe stC) !! k = Some (with_hooks (exe st) o1)).
  { rewrite HeC. cbn. by apply list_lookup_insert_eq. }
  (* the operator itself *)
  destruct (scope_ (exe st)) as [s|] eqn:Hs.
  2:{ apply bind_inv in Hrun as [(a & s1 & H1 & _)|(e & H1 & ->)]; [done|].
      injection H1 as <- <-. exists cs_in, (with_hooks (exe st) o1).
      split; [by rewrite HtC|]. rewrite HeC.
      split; [apply same_setup_set_ops|]. split; [done|].
      split; [by rewrite <- (hooks_called_callee _ _ _ _ _ _ Hin); apply prefix_app_r|done]. }
  apply bind_inv in Hrun as [([] & stD & HD & Hrun)|(e & HD & ->)].
  2:{ destruct (hand_over_inv _ _ _ _ _ _ HoC HD) as (env & Hcall & Hw & Ht & He).
      apply (proj2 reported) in Hcall. cbn in Hcall.
      exists (cs_in ++ [RunCall k s (place_ (exe st)) (with_hooks (exe st) o1) (env_op env)]),
             (env_op env).
      split; [by rewrite Ht, Hcall, HtC, HtB, <- app_assoc|].
      rewrite He, HeC, set_ops_insert_insert.
      split; [apply same_setup_set_ops|]. split; [done|]. split; [|done].
      rewrite fmap_app, (hooks_called_callee _ _ _ _ _ _ Hin). apply prefix_app. cbn.
      apply prefix_cons, prefix_nil. }
  destruct (hand_over_inv _ _ _ _ _ _ HoC HD) as (env & Hcall & HwD & HtD & HeD).
  apply (proj2 reported) in Hcall. cbn in Hcall.
  rewrite HeC, set_ops_insert_insert in HeD.
  set (o2 := env_op env) in *.
  (* the buffer update *)
  assert (Hupd : ∀ (rE : outcome unit) stE, update_shared_holder k stD = (rE, stE) →
            trace stE = trace stD ∧ same_setup (exe st) (exe stE) ∧
            ops_ (exe stE) = <[k := o2]> (ops_ (exe st))).
  { intros rE stE HE. destruct (update_shared_holder_quiet k _ _ _ HE) as [Hsp Ht].
    split; [done|]. split.
    - etrans; [|by apply same_plan_setup]. rewrite HeD. apply same_setup_set_ops.
    - rewrite (sp_ops _ _ Hsp), HeD. done. }
  pose proof (hooks_called_callee _ _ _ _ _ _ Hin) as Hcin.
  apply bind_inv in Hrun as [([] & stE & HE & Hrun)|(e & HE & ->)].
  2:{ destruct (Hupd _ _ HE) as (Ht & Hss & Hops).
      exists (cs_in ++ [RunCall k s (place_ (exe st)) (with_hooks (exe st) o1) o2]), o2.
      split; [by rewrite Ht, HtD, Hcall, HtC, HtB, <- app_assoc|].
      split; [done|]. split; [done|]. split; [|done].
      rewrite fmap_app, Hcin. apply prefix_app. cbn. apply prefix_cons, prefix_nil. }
  destruct (Hupd _ _ HE) as (HtE & HssE & HopsE).
  assert (HoE : ops_ (exe stE) !! k = Some o2).
  { rewrite HopsE. by apply list_lookup_insert_eq. }
  (* the output hooks *)
  destruct (hooks_loop_calls k (Some s) outs stE _ _ _ HoE Hrun)
    as (cs_out & o3 & Ht & He & Hpre & Hout).
  exists (cs_in ++ RunCall k s (place_ (exe st)) (with_hooks (exe st) o1) o2 :: cs_out), o3.
  split.
  { rewrite Ht, HtE, HtD, Hcall, HtC, HtB, <- !app_assoc. done. }
  split.
  { etrans; [exact HssE|]. rewrite He. apply same_setup_set_ops. }
  split.
  { rewrite He. cbn. by rewrite HopsE, list_insert_insert_eq. }
  split.
  { rewrite fmap_app, Hcin. apply prefix_app. cbn. by apply prefix_cons. }
  intros ->. rewrite <- Hs in Hin. rewrite <- Hs in Hout.
  exact (op_processed_intro (exe st) k o s cs_in o1 o2 cs_out o3 Hs Hin (Hout eq_refl)).
Qed.

(** The calls of the loop of [Run] from the address [k] on. *)
Lemma foreach_run_op_calls e0 m : ∀ k st r st',
  same_setup e0 (exe st) → k + m = length (ops_ (exe st)) →
  foreach (seq k m) (run_op hook_call op_run) st = (r, st') →
  ∃ cs, trace st' = trace st ++ cs ∧ same_setup e0 (exe st') ∧
    length (ops_ (exe st')) = length (ops_ (exe st)) ∧
    take k (ops_ (exe st')) = take k (ops_ (exe st)) ∧
    callee <$> cs `prefix_of`
      concat (op_script (input_hookfuncs_ e0) (output_hookfuncs_ e0) <$> seq k m) ∧
    (r = Done tt →
     ops_processed e0 k (drop k (ops_ (exe st))) cs (drop k (ops_ (exe st')))).
Proof.
  induction m as [|m IH]; intros k st r st' Hss Hk.
  - intros [= <- <-]. exists []. rewrite app_nil_r. split; [done|]. split; [done|].
    split; [done|]. split; [done|]. split; [done|].
    intros _. rewrite drop_ge by lia. constructor.
  - destruct (lookup_lt_is_Some_2 (ops_ (exe st)) k) as [o Ho]; [lia|].
    cbn [seq]. rewrite foreach_cons. intros Hrun.
    apply bind_inv in Hrun as [([] & s1 & H1 & Hrun)|(e & H1 & ->)].
    + destruct (run_op_calls k o st _ _ Ho H1) as (cs & o' & Ht & Hss1 & Hops & Hpre & Hdone).
      specialize (Hdone eq_refl).
      destruct (IH (S k) s1 r st') as (css & Ht' & Hss' & Hlen & Htake & Hpre' & Hdone').
      { by etrans. }
      { rewrite Hops, length_insert. lia. }
      { done. }
      assert (Ho' : ops_ (exe st') !! k = Some o').
      { rewrite <- (lookup_take_lt _ (S k)) by lia. rewrite Htake, lookup_take_lt by lia.
        rewrite Hops. apply list_lookup_insert_eq. lia. }
      exists (cs ++ css). split; [by rewrite Ht', Ht, app_assoc|]. split; [done|].
      split; [by rewrite Hlen, Hops, length_insert|]. split.
      { transitivity (take k (take (S k) (ops_ (exe st')))).
        - rewrite take_take. f_equal. lia.
        - rewrite Htake, take_take, Hops, take_insert_ge by lia. f_equal. lia. }
      split.
      * cbn. rewrite fmap_app, (op_processed_callee _ _ _ _ _ Hdone).
        rewrite (ss_input _ _ Hss), (ss_output _ _ Hss). by apply prefix_app.
      * intros Hr. specialize (Hdone' Hr).
        rewrite (drop_S _ _ _ Ho), (drop_S _ _ _ Ho').
        constructor; [exact (op_processed_setup e0 (exe st) k o cs o' Hss Hdone)|].
        rewrite Hops, drop_insert_lt in Hdone' by lia. exact Hdone'.
    + destruct (run_op_calls k o st _ _ Ho H1) as (cs & o' & Ht & Hss1 & Hops & Hpre & _).
      exists cs. split; [done|]. split; [by etrans|].
      split; [by rewrite Hops, length_insert|].
      split; [by rewrite Hops, take_insert_ge by lia|]. split; [|done].
      cbn. rewrite <- (ss_input _ _ Hss), <- (ss_output _ _ Hss). by apply prefix_app_r.
Qed.

(** The calls of a whole [Run]: the callees' record grows by the calls of
    [run_script] in that order, by a prefix of them when a callee throws or
    the scope is unset; the executor keeps its setup, and after a [Run] that
    returns each operator has been processed in turn. *)
Lemma Run_calls st r st' :
  Run hook_call op_run st = (r, st') →
  ∃ calls, trace st' = trace st ++ calls ∧ same_setup (exe st) (exe st') ∧
    callee <$> calls `prefix_of` run_script (exe st) ∧
    (r = Done tt →
     ops_processed (exe st) 0 (ops_ (exe st)) calls (ops_ (exe st'))).
Proof.
  unfold Run. erewrite bind_Done; [|reflexivity]. intros Hrun.
  destruct (foreach_run_op_calls (exe st) (length (ops_ (exe st))) 0 st r st')
    as (cs & Ht & Hss & _ & _ & Hpre & Hdone); [done..|].
  exists cs. split; [done|]. split; [done|]. split; [done|].
  intros Hr. specialize (Hdone Hr). by rewrite !drop_0 in Hdone.
Qed.

End Reported.

End ExecutorFacts.

(** A computation that returns (rather than throws) from every state that
    satisfies [I], in a state that satisfies [I] again. *)
Definition returns {S A} (I : S → Prop) (m : M S A) : Prop :=
  ∀ s, I s → ∃ a s', m s = (Done a, s') ∧ I s'.

Lemma returns_ret {S A} (I : S → Prop) (a : A) : returns I (mret a : M S A).
Proof. intros s Hs. by exists a, s. Qed.

Lemma returns_gets {S A} (I : S → Prop) (f : S → A) : returns I (gets f).
Proof. intros s Hs. by exists (f s), s. Qed.

Lemma returns_modify {S} (I : S → Prop) (f : S → S) :
  (∀ s, I s → I (f s)) → returns I (modify f).
Proof. intros Hf s Hs. exists tt, (f s). auto. Qed.

Lemma returns_bind {S A B} (I : S → Prop) (m : M S A) (f : A → M S B) :
  returns I m → (∀ a, returns I (f a)) → returns I (m ≫= f).
Proof.
  intros Hm Hf s Hs. destruct (Hm s Hs) as (a & s1 & H1 & Hs1).
  rewrite (bind_Done _ _ _ _ _ H1). by apply Hf.
Qed.

Lemma returns_foreach {S A} (I : S → Prop) (l : list A) (body : A → M S unit) :
  (∀ x, returns I (body x)) → returns I (foreach l body).
Proof.
  intros Hbody. induction l as [|x l IH]; [apply returns_ret|].
  apply returns_bind; [apply Hbody | intros _; apply IH].
Qed.

Lemma returns_with_op (I : State → Prop) i k :
  (∀ o, returns I (k o)) → returns I (with_op i k).
Proof.
  intros Hk st Hst. unfold with_op, gets, mbind, M_bind.
  destruct (ops_ (exe st) !! i); [by apply Hk | by exists tt, st].
Qed.

Lemma returns_hand_over (I : State → Prop) op (callee : M Env unit) :
  (∀ env, ∃ env', callee env = (Done tt, env')) →
  (∀ st w tr o, I st →
     I {| world := w; exe := set_ops_ (λ ops, <[op := o]> ops) (exe st); trace := tr |}) →
  returns I (hand_over op callee).
Proof.
  intros Hm HI st Hst. unfold hand_over.
  destruct (ops_ (exe st) !! op) as [o|]; [|by exists tt, st].
  destruct (Hm {| env_op := o; env_world := world st; env_trace := trace st |})
    as (env' & ->).
  eexists tt, _. split; [done|]. by apply HI.
Qed.

(** The executor has the scope [s] and no reuse plan. *)
Definition unplanned (s : nat) (e : NaiveExecutor) : Prop :=
  scope_ e = Some s ∧ reuse_cache_ e = ∅.

Ltac returns_step :=
  lazymatch goal with
  | |- returns _ (mret _) => apply returns_ret
  | |- returns _ (gets _) => apply returns_gets
  | |- returns _ (_ ≫= _) => apply returns_bind
  | |- returns _ (foreach _ _) => apply returns_foreach
  | |- returns _ (with_op _ _) => apply returns_with_op
  | |- returns _ (set_op _ _) => by apply returns_modify
  | |- returns _ (hand_over _ _) => by apply returns_hand_over
  | |- returns _ (if decide _ then _ else _) => case_decide
  | |- ∀ _, _ => intro
  end.

Section RunReturns.
Variable hook_call : HookFunc → nat → option nat → M Env unit.
Variable op_run : nat → nat → nat → M Env unit.
Hypothesis hook_call_returns : ∀ h op sc env, ∃ env', hook_call h op sc env = (Done tt, env').
Hypothesis op_run_returns : ∀ op s p env, ∃ env', op_run op s p env = (Done tt, env').

Lemma returns_gets_exe {A} (J : NaiveExecutor → Prop) (f : NaiveExecutor → M State A) :
  (∀ e, J e → returns (λ st, J (exe st)) (f e)) →
  returns (λ st, J (exe st)) (gets exe ≫= f).
Proof. intros Hf st Hst. by apply (Hf (exe st)). Qed.

Lemma update_shared_holder_returns s i :
  returns (λ st, unplanned s (exe st)) (update_shared_holder i).
Proof.
  unfold update_shared_holder. apply (returns_gets_exe (unplanned s)).
  intros e [_ ->]. rewrite lookup_empty. apply returns_ret.
Qed.

Lemma run_op_returns s i :
  returns (λ st, unplanned s (exe st)) (run_op hook_call op_run i).
Proof.
  unfold run_op.
  apply returns_bind; [returns_step|intros _].
  apply (returns_gets_exe (unplanned s)). intros e [Hs Hc]. rewrite Hs.
  repeat returns_step. apply update_shared_holder_returns.
Qed.

Lemma Run_returns s st :
  unplanned s (exe st) → ∃ st', Run hook_call op_run st = (Done tt, st').
Proof.
  intros Hst. unfold Run.
  destruct (returns_gets_exe (unplanned s)
              (λ e, foreach (seq 0 (length (ops_ e))) (run_op hook_call op_run))
              (λ e _, returns_foreach _ _ _ (run_op_returns s)) st Hst)
    as ([] & st' & H & _).
  eauto.
Qed.

End RunReturns.

Lemma op_desc_of_CreateOp d : op_desc_of (CreateOp d) = d.
Proof. by destruct d. Qed.

(** What [Prepare] does before and around [CreateOps]: it sets the scope, a
    new one when none is given, and nothing else. *)
Lemma Prepare_inv scope desc block_id st r st' :
  Prepare scope desc block_id st = (r, st') →
  ∃ s w, (∀ s0, scope = Some s0 → s = s0 ∧ w = world st) ∧
    CreateOps desc block_id
      {| world := w; exe := set_scope_ (Some s) (exe st); trace := trace st |} = (r, st').
Proof.
  unfold Prepare. destruct scope as [s|].
  - erewrite bind_Done; [|reflexivity]. intros Hrun. exists s, (world st).
    split; [by intros ? [= <-]|]. by destruct st.
  - erewrite bind_Done; [|reflexivity]. intros Hrun. eexists _, _.
    split; [done|]. exact Hrun.
Qed.

Section OrderFacts.
Variable hook_call : HookFunc → nat → option nat → M Env unit.
Variable op_run : nat → nat → nat → M Env unit.

(** C3: when the hooks and the operators note their calls, the record of a
    [Run] reads, operator after operator in the order of [ops_]: the
    registered input hooks in registration order, the operator's [Run], the
    registered output hooks in registration order (a prefix of all this when
    a callee throws or the scope is unset). After a [Run] that returns, each
    callee has been handed the operator object the callee before it left,
    the first input hook the operator marked as not called by an executor,
    and the operator's [Run] has found the executor's two hook lists set in
    its object if its type is "while" or "conditional_block", and the object
    as the last input hook left it otherwise. *)
Theorem Run_hook_order st r st' :
  reports hook_call op_run →
  Run hook_call op_run st = (r, st') →
  ∃ calls, trace st' = trace st ++ calls ∧
    callee <$> calls `prefix_of` run_script (exe st) ∧
    (r = Done tt →
       callee <$> calls = run_script (exe st) ∧
       ops_processed (exe st) 0 (ops_ (exe st)) calls (ops_ (exe st'))).
Proof.
  intros Hrep Hrun.
  destruct (Run_calls hook_call op_run Hrep st r st' Hrun) as (calls & Ht & _ & Hpre & Hdone).
  exists calls. split; [done|]. split; [done|]. intros Hr. specialize (Hdone Hr).
  split; [|done]. by rewrite (ops_processed_callee _ _ _ _ _ Hdone).
Qed.

(** C2: however [Prepare] ends, it has appended to [ops_], in declaration
    order, one operator for each descriptor it has gone through that is
    neither "feed" nor "fetch", and none for a "feed" or "fetch" descriptor;
    it goes through the whole block and returns when every "feed" and
    "fetch" descriptor has the names its log line reads, and stops at the
    first one that has not. [Run] then calls the [Run] of the operators at
    the addresses 0, 1, ... in this order, each once when it returns and a
    first part of them when it throws; the operators it has run have the
    type and the variable names of the operators of [ops_], in order, when
    no callee has changed them; and [Run] returns when no reuse plan was
    made and no hook and no operator throws. *)
Theorem Prepare_Run_order scope desc block_id b st r st1 :
  desc !! block_id = Some b →
  Prepare scope desc block_id st = (r, st1) →
  ∃ gone rest,
    AllOps b = gone ++ rest ∧
    (r = Done tt → rest = []) ∧
    (Forall (λ d, is_io_marker d → has_log_operands d) (AllOps b) → r = Done tt) ∧
    ops_ (exe st1) = ops_ (exe st) ++ (CreateOp <$> filter (λ d, ¬ is_io_marker d) gone) ∧
    op_desc_of <$> ops_ (exe st1) =
      (op_desc_of <$> ops_ (exe st)) ++ filter (λ d, ¬ is_io_marker d) gone ∧
    Forall (λ op, Type_ op ≠ "feed" ∧ Type_ op ≠ "fetch")
           (drop (length (ops_ (exe st))) (ops_ (exe st1))) ∧
    (reports hook_call op_run →
     ∀ r2 st2, Run hook_call op_run st1 = (r2, st2) →
       ∃ calls, trace st2 = trace st1 ++ calls ∧
         (run_operands calls).*1 `prefix_of` seq 0 (length (ops_ (exe st1))) ∧
         (r2 = Done tt →
            (run_operands calls).*1 = seq 0 (length (ops_ (exe st1))) ∧
            (Forall keeps_descriptor calls →
               op_desc_of <$> (run_operands calls).*2 = op_desc_of <$> ops_ (exe st1)))) ∧
    (reuse_cache_ (exe st) = ∅ →
     (∀ h op sc env, ∃ env', hook_call h op sc env = (Done tt, env')) →
     (∀ op s p env, ∃ env', op_run op s p env = (Done tt, env')) →
     ∃ st2, Run hook_call op_run st1 = (Done tt, st2)).
Proof.
  intros Hb Hprep.
  destruct (Prepare_inv _ _ _ _ _ _ Hprep) as (s & w & _ & Hcreate).
  pose proof (proj2 (CreateOps_returns _ _ _ _ _ _ Hb Hcreate)) as Hret.
  destruct (CreateOps_spec _ _ _ _ _ _ Hb Hcreate)
    as (_ & _ & gone & rest & Hl & _ & He & Hr).
  cbn [exe] in He.
  set (kept := filter (λ d, ¬ is_io_marker d) gone) in *.
  assert (Hops : ops_ (exe st1) = ops_ (exe st) ++ (CreateOp <$> kept)) by (by rewrite He).
  exists gone, rest. split; [done|]. split; [by intros ->|]. split; [done|].
  split; [done|]. split; [|split; [|split]].
  - rewrite Hops, fmap_app, <- list_fmap_compose. f_equal.
    fold kept. rewrite <- (list_fmap_id kept) at 2. apply list_fmap_ext.
    intros _ d _. apply op_desc_of_CreateOp.
  - rewrite Hops, drop_app_length. apply Forall_fmap, Forall_forall. intros d Hd.
    apply list_elem_of_filter in Hd as [Hd _]. unfold is_io_marker in Hd. cbn. tauto.
  - intros Hrep r2 st2 Hrun.
    destruct (Run_calls hook_call op_run Hrep st1 r2 st2 Hrun)
      as (calls & Ht & _ & Hpre & Hdone).
    exists calls. split; [done|].
    assert (Hadr : ∀ cs, callee <$> cs `prefix_of` run_script (exe st1) →
              (run_operands cs).*1 `prefix_of` seq 0 (length (ops_ (exe st1)))).
    { intros cs [k Hk]. rewrite run_operands_callee.
      rewrite <- (run_addresses_script (input_hookfuncs_ (exe st1))
                    (output_hookfuncs_ (exe st1)) 0 (length (ops_ (exe st1)))).
      fold (run_script (exe st1)). rewrite Hk, omap_app. by apply prefix_app_r. }
    split; [by apply Hadr|]. intros Hr2. specialize (Hdone Hr2). split.
    + rewrite run_operands_callee, (ops_processed_callee _ _ _ _ _ Hdone).
      apply run_addresses_script.
    + intros Hkeep. by destruct (ops_processed_descriptors _ _ _ _ _ Hdone Hkeep).
  - intros Hempty Hh Ho. apply (Run_returns hook_call op_run Hh Ho s).
    rewrite He. split; [done|]. exact Hempty.
Qed.

End OrderFacts.

(** ** The operator list and the hook order on a small program *)

Lemma noting_reports : reports noting_hook noting_op.
Proof. split; intros until env'; intros [= <- <-]; reflexivity. Defined.

Lemma small_program_log_operands :
  Forall (λ d, is_io_marker d → has_log_operands d)
         [feed_desc; relu_desc; while_desc; fetch_desc].
Proof.
  repeat constructor; intros _.
  - by exists "feed", [], "x", [].
  - by exists "x", [], "y", [].
  - by exists "y", [], "z", [].
  - by exists "z", [], "fetch", [].
Defined.

Lemma Prepare_Run_order_witness :
  (Prepare None small_program 0 fresh_state).1 = Done tt ∧
  ops_ (exe (Prepare None small_program 0 fresh_state).2)
    = [CreateOp relu_desc; CreateOp while_desc] ∧
  ∃ st2 calls,
    Run noting_hook noting_op (Prepare None small_program 0 fresh_state).2 = (Done tt, st2) ∧
    trace st2 = trace (Prepare None small_program 0 fresh_state).2 ++ calls ∧
    (run_operands calls).*1 = [0; 1] ∧
    op_desc_of <$> (run_operands calls).*2 = [relu_desc; while_desc].
Proof.
  destruct (Prepare_Run_order noting_hook noting_op None small_program 0
              {| AllVars := []; AllOps := [feed_desc; relu_desc; while_desc; fetch_desc] |}
              fresh_state
              (Prepare None small_program 0 fresh_state).1
              (Prepare None small_program 0 fresh_state).2
              eq_refl (surjective_pairing _))
    as (gone & rest & Hl & Hrest & Hret & Hops & Hdesc & _ & Hrun & Hreturns).
  specialize (Hret small_program_log_operands).
  specialize (Hrest Hret). subst rest. rewrite app_nil_r in Hl. subst gone.
  split; [exact Hret|]. split; [exact Hops|].
  destruct Hreturns as [st2 Hst2].
  - reflexivity.
  - intros h op sc env. eexists. reflexivity.
  - intros op s p env. eexists. reflexivity.
  - destruct (Hrun noting_reports (Done tt) st2 Hst2) as (calls & Ht & _ & Hdone).
    destruct (Hdone eq_refl) as [Hadr Hdescs].
    exists st2, calls. split; [exact Hst2|]. split; [exact Ht|].
    rewrite Hops in Hadr, Hdescs. split; [exact Hadr|].
    apply Hdescs.
    assert (Hcalls : calls =
              trace (Run noting_hook noting_op (Prepare None small_program 0 fresh_state).2).2).
    { rewrite Hst2. cbn [snd]. rewrite Ht. reflexivity. }
    rewrite Hcalls. vm_compute. repeat constructor.
Defined.

Lemma Run_hook_order_witness :
  callee <$> trace (Run noting_hook noting_op hooked_state).2 =
    [Hook 1 0; Hook 2 0; Operator 0; Hook 3 0;
     Hook 1 1; Hook 2 1; Operator 1; Hook 3 1] ∧
  run_operands (trace (Run noting_hook noting_op hooked_state).2) =
    [(0, SetIsCalledByExecutor true (CreateOp relu_desc));
     (1, SetInputHooks [1; 2] (SetOutputHooks [3]
           (SetIsCalledByExecutor true (CreateOp while_desc))))].
Proof.
  destruct (Run_hook_order noting_hook noting_op hooked_state
              (Run noting_hook noting_op hooked_state).1
              (Run noting_hook noting_op hooked_state).2
              noting_reports (surjective_pairing _))
    as (calls & Ht & _ & Hdone).
  destruct (Hdone eq_refl) as [Hcallee _].
  change (trace hooked_state) with (@nil Call) in Ht. rewrite app_nil_l in Ht.
  rewrite Ht. split; [exact Hcallee|]. rewrite <- Ht. reflexivity.
Defined.

(** ** Creating variables *)

(** The scope [s] reaches the root [anc] in [n] parent steps: its parent chain
    is finite, hence acyclic. *)
Inductive root_path (w : World) : nat → nat → nat → Prop :=
| root_path_here s sc :
    scopes w !! s = Some sc → parent_ sc = None → root_path w s s 0
| root_path_up s sc p anc n :
    scopes w !! s = Some sc → parent_ sc = Some p → root_path w p anc n →
    root_path w s anc (S n).

Lemma root_of_path w s anc n fuel :
  root_path w s anc n → n < fuel → root_of fuel w s = Done anc.
Proof.
  intros Hp. revert fuel. induction Hp as [s sc Hs Hpar|s sc p anc n Hs Hpar _ IH];
    intros [|fuel] Hlt; try lia; cbn; rewrite Hs, Hpar; [done|].
  apply IH. lia.
Qed.

Lemma root_path_root w s anc n :
  root_path w s anc n → ∃ sc, scopes w !! anc = Some sc ∧ parent_ sc = None.
Proof. induction 1; eauto. Qed.

Lemma root_path_start w s anc n :
  root_path w s anc n → ∃ sc, scopes w !! s = Some sc ∧ parent_ sc ≠ Some s.
Proof.
  induction 1 as [s sc Hs Hp|s sc p anc n Hs Hp _ (sc' & Hs' & Hp')].
  - exists sc. split; [done|]. by rewrite Hp.
  - exists sc. split; [done|]. rewrite Hp. intros [= ->]. congruence.
Qed.

Lemma root_path_parents w w' s anc n :
  (∀ x, parent_ <$> scopes w' !! x = parent_ <$> scopes w !! x) →
  root_path w s anc n → root_path w' s anc n.
Proof.
  intros Hpar. induction 1 as [s sc Hs Hp|s sc p anc n Hs Hp _ IH].
  - specialize (Hpar s). rewrite Hs in Hpar. cbn in Hpar.
    destruct (scopes w' !! s) as [sc'|] eqn:Hs'; simplify_eq/=.
    apply (root_path_here w' s sc'); [done|by rewrite Hpar].
  - specialize (Hpar s). rewrite Hs in Hpar. cbn in Hpar.
    destruct (scopes w' !! s) as [sc'|] eqn:Hs'; simplify_eq/=.
    apply (root_path_up w' s sc' p anc n); [done|by rewrite Hpar|done].
Qed.

(** The parent links are the same in both worlds. *)
Definition same_parents (w w' : World) : Prop :=
  ∀ x, parent_ <$> scopes w' !! x = parent_ <$> scopes w !! x.

Lemma FindVar_root fuel w anc sc name :
  scopes w !! anc = Some sc → parent_ sc = None →
  FindVar (S fuel) w anc name = Done (lookup_var w anc name).
Proof.
  intros Hs Hp. cbn. unfold lookup_var. rewrite Hs. cbn.
  destruct (vars_ sc !! name); [done|]. by rewrite Hp.
Qed.

(** [Scope::Var] followed by [InitializeVariable], as [CreateVariables] uses
    them: afterwards the scope holds the variable, the variable has the
    address it had (or a new one) and holds a storage object that did not
    exist before; nothing else changes. *)
Lemma create_and_initialize s name ty w sc :
  scopes w !! s = Some sc →
  ∃ w' v,
    (ptr ← Scope_Var s name; InitializeVariable ptr ty) w = (Done tt, w') ∧
    lookup_var w' s name = Some v ∧
    (∀ v0, lookup_var w s name = Some v0 → var_addr v = var_addr v0) ∧
    (∃ p, var_holder v = Some {| ph_type := ty; ph_obj := p |} ∧
          next_addr w ≤ p < next_addr w' ∧
          (ty = DENSE_TENSOR → tensors w' !! p = Some empty_tensor)) ∧
    (∀ s' name', (s', name') ≠ (s, name) → lookup_var w' s' name' = lookup_var w s' name') ∧
    same_parents w w' ∧
    next_addr w ≤ next_addr w' ∧
    (∀ p, p < next_addr w → tensors w' !! p = tensors w !! p).
Proof.
  intros Hs. unfold Scope_Var, InitializeVariable, mbind, M_bind. rewrite Hs.
  destruct (vars_ sc !! name) as [v0|] eqn:Hv; cbn.
  - rewrite Hs, Hv. eexists _, _. split; [done|]. unfold lookup_var, same_parents; cbn.
    rewrite lookup_insert_eq; cbn. rewrite lookup_insert_eq.
    split; [done|]. split.
    { rewrite Hs; cbn. rewrite Hv. by intros ? [= <-]. }
    split.
    { eexists. split; [done|]. split; [lia|]. intros Hty.
      rewrite decide_True by done. by rewrite lookup_insert_eq. }
    split.
    { intros s' name' Hne. destruct (decide (s' = s)) as [->|Hs'].
      - rewrite lookup_insert_eq, Hs; cbn. rewrite lookup_insert_ne; [done|congruence].
      - by rewrite lookup_insert_ne. }
    split.
    { intros x. destruct (decide (x = s)) as [->|Hx].
      - by rewrite lookup_insert_eq, Hs.
      - by rewrite lookup_insert_ne. }
    split; [lia|].
    intros p Hp. case_decide; [|done]. rewrite lookup_insert_ne; [done|lia].
  - rewrite lookup_insert_eq; cbn. rewrite lookup_insert_eq.
    eexists _, _. split; [done|]. unfold lookup_var, same_parents; cbn.
    rewrite lookup_insert_eq; cbn. rewrite lookup_insert_eq.
    split; [done|]. split.
    { rewrite Hs; cbn. by rewrite Hv. }
    split.
    { eexists. split; [done|]. split; [lia|]. intros Hty.
      rewrite decide_True by done. by rewrite lookup_insert_eq. }
    split.
    { intros s' name' Hne. rewrite insert_insert_eq. destruct (decide (s' = s)) as [->|Hs'].
      - rewrite lookup_insert_eq, Hs; cbn. rewrite !lookup_insert_ne; [done|congruence..].
      - by rewrite lookup_insert_ne. }
    split.
    { intros x. rewrite insert_insert_eq. destruct (decide (x = s)) as [->|Hx].
      - by rewrite lookup_insert_eq, Hs.
      - by rewrite lookup_insert_ne. }
    split; [lia|].
    intros p Hp. case_decide; [|done]. rewrite lookup_insert_ne; [done|lia].
Qed.

Lemma foreach_establish {S A} (I : S → Prop) (Q : A → S → Prop) (good : A → Prop)
  (body : A → M S unit) (l : list A) :
  (∀ x s, x ∈ l → I s → ∃ s', body x s = (Done tt, s') ∧ I s' ∧
                       (good x → Q x s') ∧ (∀ y, Q y s → Q y s')) →
  ∀ s, I s → ∃ s', foreach l body s = (Done tt, s') ∧ I s' ∧
                    (∀ x, x ∈ l → good x → Q x s') ∧ (∀ y, Q y s → Q y s').
Proof.
  induction l as [|x l IH]; intros Hbody s Hs.
  - exists s. split; [done|]. split; [done|]. split; [|done]. by intros x Hx%elem_of_nil.
  - destruct (Hbody x s) as (s1 & H1 & Hs1 & Hgood & Hstab); [by left|done|].
    destruct (IH (λ y s0 Hy, Hbody y s0 (list_elem_of_further _ _ _ Hy)) s1 Hs1)
      as (s' & H2 & Hs' & Hall & Hstab').
    exists s'. split; [|split; [done|split]].
    + rewrite foreach_cons. by rewrite (bind_Done _ _ _ _ _ H1).
    + intros y Hy Hg. apply elem_of_cons in Hy as [->|Hy]; [|by apply Hall].
      by apply Hstab', Hgood.
    + intros y Hy. by apply Hstab', Hstab.
Qed.

Section CreateVariablesFacts.
Variable kEmptyVarName : string.

(** The root [anc] is allocated and has no parent. *)
Definition is_root (w : World) (anc : nat) : Prop :=
  ∃ sc, scopes w !! anc = Some sc ∧ parent_ sc = None.

(** What [CreateVariables] with [persistable = true] keeps true from the
    world [w0] it started in. *)
Definition persistent_inv (w0 : World) (anc : nat) (w : World) : Prop :=
  is_root w anc ∧ same_parents w0 w ∧
  ∀ name v, lookup_var w0 anc name = Some v → lookup_var w anc name = Some v.

Lemma create_persistent_step fuel w0 s anc var w :
  persistent_inv w0 anc w →
  ∃ w', create_variable kEmptyVarName (S fuel) true s anc var w = (Done tt, w') ∧
    persistent_inv w0 anc w' ∧
    (vd_name var ≠ kEmptyVarName ∧ vd_persistable var = true →
       is_Some (lookup_var w' anc (vd_name var))) ∧
    (∀ y : VarDesc, is_Some (lookup_var w anc (vd_name y)) →
                    is_Some (lookup_var w' anc (vd_name y))).
Proof.
  intros Hinv. pose proof Hinv as ([sc [Hsc Hpar]] & Hparents & Hkeep).
  unfold create_variable.
  case_decide as Hname.
  { exists w. split; [done|]. split; [done|]. split; [|done]. by intros [? _]. }
  case_decide as Hpers.
  2:{ exists w. split; [done|]. split; [done|]. split; [|done]. intros [_ ?]. congruence. }
  erewrite bind_Done; [|reflexivity].
  rewrite (FindVar_root fuel w anc sc _ Hsc Hpar).
  erewrite bind_Done; [|reflexivity].
  destruct (lookup_var w anc (vd_name var)) as [v|] eqn:Hv.
  { exists w. split; [done|]. split; [done|]. split; [|done]. intros _. by rewrite Hv. }
  destruct (create_and_initialize anc (vd_name var) (vd_type var) w sc Hsc)
    as (w' & v & Hrun & Hlook & _ & _ & Hframe & Hpar' & _ & _).
  exists w'. split; [done|]. split; [|split].
  - split; [|split].
    + specialize (Hpar' anc). rewrite Hsc in Hpar'. cbn in Hpar'.
      destruct (scopes w' !! anc) as [sc'|] eqn:Hsc'; simplify_eq/=.
      exists sc'. split; [done|]. by rewrite Hpar'.
    + intros x. by rewrite Hpar', Hparents.
    + intros name v0 Hv0. apply Hkeep in Hv0. rewrite Hframe; [done|].
      intros [= ->]. congruence.
  - intros _. by rewrite Hlook.
  - intros y [vy Hy]. destruct (decide (vd_name y = vd_name var)) as [Heq|Hne].
    + by rewrite Heq, Hlook.
    + rewrite Hframe; [by rewrite Hy|]. congruence.
Qed.

Lemma create_persistent_noop fuel s anc var w :
  is_root w anc →
  (vd_name var ≠ kEmptyVarName → vd_persistable var = true →
     is_Some (lookup_var w anc (vd_name var))) →
  create_variable kEmptyVarName (S fuel) true s anc var w = (Done tt, w).
Proof.
  intros [sc [Hsc Hpar]] Hhas. unfold create_variable.
  case_decide as Hname; [done|]. case_decide as Hpers; [|done].
  erewrite bind_Done; [|reflexivity].
  rewrite (FindVar_root fuel w anc sc _ Hsc Hpar).
  erewrite bind_Done; [|reflexivity].
  destruct (Hhas Hname (eq_sym Hpers)) as [v ->]. done.
Qed.

Lemma foreach_noop {S A} (body : A → M S unit) (l : list A) s :
  (∀ x, x ∈ l → body x s = (Done tt, s)) → foreach l body s = (Done tt, s).
Proof.
  induction l as [|x l IH]; intros Hbody; [done|].
  rewrite foreach_cons, (bind_Done _ _ _ tt s) by (apply Hbody; by left).
  apply IH. intros y Hy. apply Hbody. by right.
Qed.

(** The part of [CreateVariables] before the loop, on a well-formed call. *)
Lemma CreateVariables_enter fuel desc block_id b persistable s sc anc n w :
  desc !! block_id = Some b →
  scopes w !! s = Some sc → parent_ sc ≠ Some s →
  root_path w s anc n → n < fuel →
  CreateVariables kEmptyVarName fuel desc block_id persistable (Some s) w =
  foreach (AllVars b) (create_variable kEmptyVarName fuel persistable s anc) w.
Proof.
  intros Hb Hs Hself Hpath Hfuel. unfold CreateVariables, Block, scope_at.
  rewrite Hb. do 3 (erewrite bind_Done; [|reflexivity]).
  rewrite Hs. erewrite bind_Done; [|reflexivity].
  rewrite decide_False by done. erewrite bind_Done; [|reflexivity].
  rewrite (root_of_path w s anc n fuel Hpath Hfuel).
  by erewrite bind_Done; [|reflexivity].
Qed.

Lemma same_parents_scope w w' s sc :
  same_parents w w' → scopes w !! s = Some sc →
  ∃ sc', scopes w' !! s = Some sc' ∧ parent_ sc' = parent_ sc.
Proof.
  intros Hpar Hs. specialize (Hpar s). rewrite Hs in Hpar. cbn in Hpar.
  destruct (scopes w' !! s) as [sc'|]; simplify_eq/=. eauto.
Qed.

(** C4: on a scope whose parent chain reaches a root, [CreateVariables] with
    [persistable = true] returns; it leaves every variable the root scope
    already had as it was, makes sure every declared persistent variable
    (other than the empty-name sentinel) exists in the root scope, and a
    second call changes nothing at all: every variable keeps its address,
    its storage object and that object's contents. *)
Theorem CreateVariables_persistable_idempotent fuel desc block_id b s anc n w :
  desc !! block_id = Some b → root_path w s anc n → n < fuel →
  ∃ w1,
    CreateVariables kEmptyVarName fuel desc block_id true (Some s) w = (Done tt, w1) ∧
    (∀ name v, lookup_var w anc name = Some v → lookup_var w1 anc name = Some v) ∧
    (∀ var, var ∈ AllVars b → vd_name var ≠ kEmptyVarName → vd_persistable var = true →
            is_Some (lookup_var w1 anc (vd_name var))) ∧
    CreateVariables kEmptyVarName fuel desc block_id true (Some s) w1 = (Done tt, w1).
Proof.
  intros Hb Hpath Hfuel. destruct (root_path_start w s anc n Hpath) as (sc & Hs & Hself).
  rewrite (CreateVariables_enter fuel desc block_id b true s sc anc n w) by done.
  destruct fuel as [|fuel]; [lia|].
  destruct (foreach_establish (persistent_inv w anc)
              (λ var w', is_Some (lookup_var w' anc (vd_name var)))
              (λ var, vd_name var ≠ kEmptyVarName ∧ vd_persistable var = true)
              (create_variable kEmptyVarName (S fuel) true s anc) (AllVars b)
              (λ var w' _ Hw', create_persistent_step fuel w s anc var w' Hw') w)
    as (w1 & Hrun & (Hroot & Hpar & Hkeep) & Hall & _).
  { split; [by eapply root_path_root|]. by split. }
  exists w1. split; [done|]. split; [done|]. split; [by intros var ???; apply Hall|].
  destruct (same_parents_scope w w1 s sc Hpar Hs) as (sc1 & Hs1 & Hp1).
  rewrite (CreateVariables_enter (S fuel) desc block_id b true s sc1 anc n w1);
    [|done|done|congruence|by eapply root_path_parents|done].
  apply foreach_noop. intros var Hvar. apply create_persistent_noop; [done|].
  intros ??. by apply Hall.
Qed.

(** The variable [name] of the scope [s] holds a storage object that was
    allocated at or after the address [a0], and a dense tensor among them is
    the empty, zero-initialized one. *)
Definition fresh_storage (a0 s : nat) (w : World) (name : string) : Prop :=
  ∃ v ph, lookup_var w s name = Some v ∧ var_holder v = Some ph ∧
          a0 ≤ ph_obj ph < next_addr w ∧
          (ph_type ph = DENSE_TENSOR → tensors w !! ph_obj ph = Some empty_tensor).

(** What [CreateVariables] with [persistable = false] keeps true from the
    world [w0] it started in. *)
Definition local_inv (w0 : World) (s : nat) (w : World) : Prop :=
  is_Some (scopes w !! s) ∧ same_parents w0 w ∧ next_addr w0 ≤ next_addr w ∧
  ∀ name v, lookup_var w0 s name = Some v →
            ∃ v', lookup_var w s name = Some v' ∧ var_addr v' = var_addr v.

Lemma create_local_step fuel w0 s anc var w :
  local_inv w0 s w →
  ∃ w', create_variable kEmptyVarName fuel false s anc var w = (Done tt, w') ∧
    local_inv w0 s w' ∧
    (vd_name var ≠ kEmptyVarName ∧ vd_persistable var = false →
       fresh_storage (next_addr w0) s w' (vd_name var)) ∧
    (∀ y : VarDesc, fresh_storage (next_addr w0) s w (vd_name y) →
                    fresh_storage (next_addr w0) s w' (vd_name y)).
Proof.
  intros Hinv. pose proof Hinv as ([sc Hsc] & Hparents & Haddr & Hkeep).
  unfold create_variable.
  case_decide as Hname.
  { exists w. split; [done|]. split; [done|]. split; [|done]. by intros [? _]. }
  case_decide as Hpers.
  2:{ exists w. split; [done|]. split; [done|]. split; [|done]. intros [_ ?]. congruence. }
  destruct (create_and_initialize s (vd_name var) (vd_type var) w sc Hsc)
    as (w' & v & Hrun & Hlook & Hsame & (p & Hhold & Hp & Hempty) & Hframe & Hpar' & Hmono & Hts).
  exists w'. split; [done|]. split; [|split].
  - split; [|split; [|split]].
    + destruct (same_parents_scope w w' s sc Hpar' Hsc) as (sc' & -> & _). eauto.
    + intros x. by rewrite Hpar', Hparents.
    + lia.
    + intros name v0 Hv0. destruct (Hkeep name v0 Hv0) as (v1 & Hv1 & Ha1).
      destruct (decide (name = vd_name var)) as [->|Hne].
      * exists v. split; [done|]. rewrite (Hsame v1 Hv1). done.
      * exists v1. split; [|done]. rewrite Hframe; [done|]. congruence.
  - intros _. exists v, {| ph_type := vd_type var; ph_obj := p |}.
    split; [done|]. split; [done|]. split; [cbn; lia|]. cbn. done.
  - intros y (vy & ph & Hy & Hph & Hrange & Hcontent).
    destruct (decide (vd_name y = vd_name var)) as [Heq|Hne].
    + rewrite Heq. exists v, {| ph_type := vd_type var; ph_obj := p |}.
      split; [done|]. split; [done|]. split; [cbn; lia|]. cbn. done.
    + exists vy, ph. split; [rewrite Hframe; [done|congruence]|].
      split; [done|]. split; [lia|]. intros Hty. rewrite Hts; [auto|lia].
Qed.

(** One call of [CreateVariables] with [persistable = false]. *)
Lemma CreateVariables_local fuel desc block_id b s anc n w :
  desc !! block_id = Some b → root_path w s anc n → n < fuel →
  ∃ w1,
    CreateVariables kEmptyVarName fuel desc block_id false (Some s) w = (Done tt, w1) ∧
    local_inv w s w1 ∧
    (∀ var, var ∈ AllVars b → vd_name var ≠ kEmptyVarName → vd_persistable var = false →
            fresh_storage (next_addr w) s w1 (vd_name var)).
Proof.
  intros Hb Hpath Hfuel. destruct (root_path_start w s anc n Hpath) as (sc & Hs & Hself).
  rewrite (CreateVariables_enter fuel desc block_id b false s sc anc n w) by done.
  destruct (foreach_establish (local_inv w s)
              (λ var w', fresh_storage (next_addr w) s w' (vd_name var))
              (λ var, vd_name var ≠ kEmptyVarName ∧ vd_persistable var = false)
              (create_variable kEmptyVarName fuel false s anc) (AllVars b)
              (λ var w' _ Hw', create_local_step fuel w s anc var w' Hw') w)
    as (w1 & Hrun & Hinv & Hall & _).
  { split; [by eexists|]. split; [done|]. split; [done|]. eauto. }
  exists w1. split; [done|]. split; [done|]. intros var ???. by apply Hall.
Qed.

(** C5: on a scope whose parent chain reaches a root, [CreateVariables] with
    [persistable = false] returns, and afterwards every declared
    non-persistent variable (other than the empty-name sentinel) is in the
    supplied scope itself and holds a storage object allocated by this call.
    A second call, whatever was written into the tensors in between, keeps
    the variable (same address) but gives it a storage object different from
    the one of the first call, and a dense tensor among them is empty again:
    the old contents are gone. *)
Theorem CreateVariables_non_persistable_fresh fuel desc block_id b s anc n w :
  desc !! block_id = Some b → root_path w s anc n → n < fuel →
  ∃ w1,
    CreateVariables kEmptyVarName fuel desc block_id false (Some s) w = (Done tt, w1) ∧
    (∀ var, var ∈ AllVars b → vd_name var ≠ kEmptyVarName → vd_persistable var = false →
            fresh_storage (next_addr w) s w1 (vd_name var)) ∧
    ∀ written : gmap nat DenseTensor, ∃ w2,
      CreateVariables kEmptyVarName fuel desc block_id false (Some s)
        (set_tensors (λ _, written) w1) = (Done tt, w2) ∧
      ∀ var, var ∈ AllVars b → vd_name var ≠ kEmptyVarName → vd_persistable var = false →
        ∃ v1 v2 ph1 ph2,
          lookup_var w1 s (vd_name var) = Some v1 ∧ var_holder v1 = Some ph1 ∧
          lookup_var w2 s (vd_name var) = Some v2 ∧ var_holder v2 = Some ph2 ∧
          var_addr v2 = var_addr v1 ∧
          ph_obj ph2 ≠ ph_obj ph1 ∧
          (ph_type ph2 = DENSE_TENSOR → tensors w2 !! ph_obj ph2 = Some empty_tensor).
Proof.
  intros Hb Hpath Hfuel.
  destruct (CreateVariables_local fuel desc block_id b s anc n w)
    as (w1 & Hrun1 & (_ & Hpar1 & Haddr1 & _) & Hfresh1); [done..|].
  exists w1. split; [done|]. split; [done|]. intros written.
  destruct (CreateVariables_local fuel desc block_id b s anc n
              (set_tensors (λ _, written) w1))
    as (w2 & Hrun2 & (_ & _ & _ & Hkeep2) & Hfresh2);
    [done|by eapply (root_path_parents w)|done|].
  exists w2. split; [done|]. intros var Hvar Hname Hpers.
  destruct (Hfresh1 var Hvar Hname Hpers) as (v1 & ph1 & Hv1 & Hph1 & Hr1 & _).
  destruct (Hfresh2 var Hvar Hname Hpers) as (v2 & ph2 & Hv2 & Hph2 & Hr2 & Hc2).
  destruct (Hkeep2 _ v1 Hv1) as (v2' & Hv2' & Ha2).
  exists v1, v2, ph1, ph2. repeat (split; [done|]).
  split; [congruence|]. split; [cbn in Hr2; lia|done].
Qed.

(** An error raised by a [PADDLE_ENFORCE_*] check. *)
Definition enforce_error (e : error) : Prop :=
  match e with
  | InvalidArgument _ | PreconditionNotMet _ | NotFound _ => True
  | _ => False
  end.

(** Whenever the computation throws, the error satisfies [P]. *)
Definition only_raises {S A} (P : error → Prop) (m : M S A) : Prop :=
  ∀ s e s', m s = (Raise e, s') → P e.

Lemma only_raises_bind {S A B} P (m : M S A) (f : A → M S B) :
  only_raises P m → (∀ a, only_raises P (f a)) → only_raises P (m ≫= f).
Proof.
  intros Hm Hf s e s' H. apply bind_inv in H as [(a & s1 & H1 & H2)|(e' & H1 & [= <-])].
  - by eapply Hf.
  - by eapply Hm.
Qed.

Lemma only_raises_foreach {S A} P (l : list A) (body : A → M S unit) :
  (∀ x, only_raises P (body x)) → only_raises P (foreach l body).
Proof.
  intros Hbody. induction l as [|x l IH]; [by intros s e s' [=]|].
  apply only_raises_bind; [apply Hbody | intros _; apply IH].
Qed.

Lemma only_raises_lift {S A} (P : error → Prop) (o : outcome A) :
  (∀ e, o = Raise e → P e) → only_raises P (lift o : M S A).
Proof. intros Ho s e s' [= H _]. by apply Ho. Qed.

Lemma FindVar_no_enforce_error fuel w s name e :
  FindVar fuel w s name = Raise e → ¬ enforce_error e.
Proof.
  revert s. induction fuel as [|fuel IH]; intros s; cbn; [by intros [= <-] []|].
  destruct (scopes w !! s) as [sc|]; [|by intros [= <-] []].
  destruct (vars_ sc !! name); [done|]. destruct (parent_ sc); [apply IH|done].
Qed.

Lemma root_of_no_enforce_error fuel w s e :
  root_of fuel w s = Raise e → ¬ enforce_error e.
Proof.
  revert s. induction fuel as [|fuel IH]; intros s; cbn; [by intros [= <-] []|].
  destruct (scopes w !! s) as [sc|]; [|by intros [= <-] []].
  destruct (parent_ sc); [apply IH|done].
Qed.

Lemma create_and_initialize_no_enforce_error s name ty :
  only_raises (λ e, ¬ enforce_error e) (ptr ← Scope_Var s name; InitializeVariable ptr ty).
Proof.
  intros w e w'. unfold Scope_Var, InitializeVariable, mbind, M_bind.
  destruct (scopes w !! s) as [sc|] eqn:Hs; [|by intros [= <- _] []].
  destruct (vars_ sc !! name) as [v|] eqn:Hv; cbn.
  - by rewrite Hs, Hv.
  - rewrite lookup_insert_eq. cbn. by rewrite lookup_insert_eq.
Qed.

Lemma create_variable_no_enforce_error fuel persistable s anc var :
  only_raises (λ e, ¬ enforce_error e)
              (create_variable kEmptyVarName fuel persistable s anc var).
Proof.
  unfold create_variable. case_decide; [by intros w e w' [=]|].
  case_decide; [|by intros w e w' [=]].
  destruct persistable; [|apply create_and_initialize_no_enforce_error].
  intros w e w'. erewrite bind_Done; [|reflexivity].
  destruct (FindVar fuel w anc (vd_name var)) as [[v|]|e'] eqn:Hfind.
  - by intros [=].
  - erewrite bind_Done; [|reflexivity]. apply create_and_initialize_no_enforce_error.
  - intros [= <- _]. by eapply FindVar_no_enforce_error.
Qed.

(** C7: [CreateVariables] raises an invalid-argument error, with the world
    untouched, when the scope pointer is null and when the scope is its own
    parent; for an allocated scope that is not its own parent it raises no
    [PADDLE_ENFORCE] error at all. *)
Theorem CreateVariables_scope_precondition fuel desc block_id persistable scope w :
  (scope = None →
   CreateVariables kEmptyVarName fuel desc block_id persistable scope w =
   (Raise (InvalidArgument "The Scope to hold variables is nullptr."), w)) ∧
  (∀ s sc, scope = Some s → is_Some (desc !! block_id) →
     scopes w !! s = Some sc → parent_ sc = Some s →
     CreateVariables kEmptyVarName fuel desc block_id persistable scope w =
     (Raise (InvalidArgument "Input scope should be child scope."), w)) ∧
  (∀ s sc, scope = Some s → scopes w !! s = Some sc → parent_ sc ≠ Some s →
     ∀ e, (CreateVariables kEmptyVarName fuel desc block_id persistable scope w).1 = Raise e →
          ¬ enforce_error e).
Proof.
  split; [by intros ->|]. split.
  - intros s sc -> [b Hb] Hs Hself. unfold CreateVariables, Block, scope_at.
    rewrite Hb. do 3 (erewrite bind_Done; [|reflexivity]).
    rewrite Hs. erewrite bind_Done; [|reflexivity].
    by rewrite decide_True by done.
  - intros s sc -> Hs Hself e.
    destruct (CreateVariables _ _ _ _ _ _ w) as [r w'] eqn:Hrun. cbn. intros ->.
    revert Hrun. unfold CreateVariables, Block, scope_at.
    erewrite bind_Done; [|reflexivity].
    destruct (desc !! block_id) as [b|]; [|by intros [= <- _] []].
    do 2 (erewrite bind_Done; [|reflexivity]).
    rewrite Hs. erewrite bind_Done; [|reflexivity].
    rewrite decide_False by done. erewrite bind_Done; [|reflexivity].
    destruct (root_of fuel w s) as [anc|e'] eqn:Hroot.
    + erewrite bind_Done; [|reflexivity]. intros Hrun.
      eapply (only_raises_foreach (λ e, ¬ enforce_error e)); [|exact Hrun].
      intros var. apply create_variable_no_enforce_error.
    + intros [= <- _]. by eapply root_of_no_enforce_error.
Qed.

End CreateVariablesFacts.

(** ** Looking up a tensor *)

(** C8 (as the code has it): [FindTensor] raises a precondition-not-met error
    when the executor has no scope; with a scope, it raises a not-found error
    whose message carries the requested name when the lookup (through the
    scope and its ancestors) finds no variable, and returns the dense tensor
    of the variable the lookup finds. *)
Theorem FindTensor_spec fuel name st :
  (scope_ (exe st) = None →
   FindTensor fuel name st =
   (Raise (PreconditionNotMet "Need to init scope in NaiveExecutor firstly."), st)) ∧
  (∀ s, scope_ (exe st) = Some s → FindVar fuel (world st) s name = Done None →
   FindTensor fuel name st =
   (Raise (NotFound ("No variable [" +:+ name +:+ "] in current scope.")), st)) ∧
  (∀ s v p, scope_ (exe st) = Some s → FindVar fuel (world st) s name = Done (Some v) →
   var_holder v = Some {| ph_type := DENSE_TENSOR; ph_obj := p |} →
   FindTensor fuel name st = (Done p, st)).
Proof.
  unfold FindTensor. repeat split.
  - intros Hs. erewrite bind_Done; [|reflexivity]. by rewrite Hs.
  - intros s Hs Hfind. do 3 (erewrite bind_Done; [|by (reflexivity || rewrite Hs)]).
    by rewrite Hfind.
  - intros s v p Hs Hfind Hv. do 3 (erewrite bind_Done; [|by (reflexivity || rewrite Hs)]).
    rewrite Hfind. do 2 (erewrite bind_Done; [|reflexivity]).
    unfold Get_DenseTensor. by rewrite Hv.
Qed.

(** ** Creating variables in a child scope, and a lookup without a scope *)

Lemma two_scope_world_path : root_path two_scope_world 1 0 1.
Proof.
  eapply root_path_up; [reflexivity|reflexivity|].
  eapply root_path_here; reflexivity.
Defined.

Lemma CreateVariables_persistable_idempotent_witness :
  ∃ w1,
    CreateVariables "@EMPTY@" 2 [var_block] 0 true (Some 1) two_scope_world = (Done tt, w1) ∧
    lookup_var w1 0 "w0" = lookup_var two_scope_world 0 "w0" ∧
    is_Some (lookup_var w1 0 "w1") ∧
    CreateVariables "@EMPTY@" 2 [var_block] 0 true (Some 1) w1 = (Done tt, w1).
Proof.
  destruct (CreateVariables_persistable_idempotent "@EMPTY@" 2 [var_block] 0 var_block
              1 0 1 two_scope_world eq_refl two_scope_world_path ltac:(lia))
    as (w1 & Hrun & Hkeep & Hall & Hagain).
  exists w1. split; [exact Hrun|]. split; [|split; [|exact Hagain]].
  - exact (Hkeep "w0" _ eq_refl).
  - apply (Hall {| vd_name := "w1"; vd_persistable := true; vd_type := DENSE_TENSOR |}).
    + apply list_elem_of_further, list_elem_of_here.
    + discriminate.
    + reflexivity.
Defined.

Lemma CreateVariables_non_persistable_fresh_witness :
  ∃ w1 w2 v1 v2 ph1 ph2,
    CreateVariables "@EMPTY@" 2 [var_block] 0 false (Some 1) two_scope_world = (Done tt, w1) ∧
    CreateVariables "@EMPTY@" 2 [var_block] 0 false (Some 1) w1 = (Done tt, w2) ∧
    lookup_var w1 1 "x" = Some v1 ∧ var_holder v1 = Some ph1 ∧
    lookup_var w2 1 "x" = Some v2 ∧ var_holder v2 = Some ph2 ∧
    var_addr v2 = var_addr v1 ∧ ph_obj ph2 ≠ ph_obj ph1.
Proof.
  destruct (CreateVariables_non_persistable_fresh "@EMPTY@" 2 [var_block] 0 var_block
              1 0 1 two_scope_world eq_refl two_scope_world_path ltac:(lia))
    as (w1 & Hrun1 & _ & Hsecond).
  destruct (Hsecond (tensors w1)) as (w2 & Hrun2 & Hfresh).
  destruct (Hfresh {| vd_name := "x"; vd_persistable := false; vd_type := DENSE_TENSOR |})
    as (v1 & v2 & ph1 & ph2 & H1 & H2 & H3 & H4 & H5 & H6 & _).
  - do 2 apply list_elem_of_further. apply list_elem_of_here.
  - discriminate.
  - reflexivity.
  - exists w1, w2, v1, v2, ph1, ph2.
    assert (Hw1 : set_tensors (λ _, tensors w1) w1 = w1) by (by destruct w1).
    rewrite Hw1 in Hrun2. repeat split; assumption.
Defined.

(** A freshly constructed executor has no scope: [FindTensor] raises a
    precondition-not-met error there, not a not-found one. *)
Lemma FindTensor_without_scope_is_not_NotFound :
  (FindTensor 1 "x" fresh_state).1 =
    Raise (PreconditionNotMet "Need to init scope in NaiveExecutor firstly.") ∧
  ∀ msg, (FindTensor 1 "x" fresh_state).1 ≠ Raise (NotFound msg).
Proof. split; [reflexivity|]. intros msg. discriminate. Qed.

(** ** The reuse plan *)

Lemma find_index_lt x l : x ∈ l → find_index x l < length l.
Proof.
  induction l as [|y l IH]; [by intros ?%elem_of_nil|].
  intros Hx. cbn. case_decide as Hy; [lia|].
  apply elem_of_cons in Hx as [->|Hx]; [done|]. specialize (IH Hx). lia.
Qed.

Lemma clusters_of_complete (reuse_table : gmap string string) name target :
  reuse_table !! name = Some target → is_Some (clusters_of reuse_table !! target).
Proof.
  unfold clusters_of. revert name target.
  apply (map_fold_weak_ind
           (λ acc (m : gmap string string),
              ∀ name target, m !! name = Some target → is_Some (acc !! target))).
  - intros name target. by rewrite lookup_empty.
  - intros k v m acc Hk IH name target Hlook.
    destruct (decide (target = v)) as [->|Hne].
    + rewrite lookup_insert_eq. eauto.
    + rewrite lookup_insert_ne by done.
      apply lookup_insert_Some in Hlook as [[_ ->]|[_ Hlook]]; [done|]. by eapply IH.
Qed.

(** Every target name of the table is a cluster name, so its position is a
    valid index into the resized [cluster_buffer_]. *)
Lemma cluster_index_in_range (reuse_table : gmap string string) name target :
  reuse_table !! name = Some target →
  find_index target (cluster_names_of reuse_table) < length (cluster_names_of reuse_table).
Proof.
  intros Hlook. apply find_index_lt. unfold cluster_names_of.
  destruct (clusters_of_complete _ _ _ Hlook) as [names Hnames].
  apply list_elem_of_fmap. exists (target, names). split; [done|].
  by apply elem_of_map_to_list.
Qed.

Lemma FindVar_path fuel w s anc n name :
  root_path w s anc n → n < fuel → ∃ r, FindVar fuel w s name = Done r.
Proof.
  intros Hp. revert fuel. induction Hp as [s sc Hs Hpar|s sc p anc n Hs Hpar _ IH];
    intros [|fuel] Hlt; try lia; cbn; rewrite Hs; destruct (vars_ sc !! name); eauto;
    rewrite Hpar; eauto.
  apply IH. lia.
Qed.

Lemma foreach_invariant {S A} (I : S → Prop) (body : A → M S unit) (l : list A) :
  (∀ x s, x ∈ l → I s → ∃ s', body x s = (Done tt, s') ∧ I s') →
  ∀ s, I s → ∃ s', foreach l body s = (Done tt, s') ∧ I s'.
Proof.
  induction l as [|x l IH]; intros Hbody s Hs; [by exists s|].
  destruct (Hbody x s) as (s1 & H1 & Hs1); [by left|done|].
  destruct (IH (λ y s0 Hy, Hbody y s0 (list_elem_of_further _ _ _ Hy)) s1 Hs1)
    as (s' & H2 & Hs').
  exists s'. split; [|done]. rewrite foreach_cons. by rewrite (bind_Done _ _ _ _ _ H1).
Qed.

Section ReusePlanFacts.
Variable fuel : nat.
Variable reuse_table : gmap string string.
(** The world, the scope and the operators the plan is made for, and the
    entries the executor had before the call. *)
Variable w0 : World.
Variable s0 : nat.
Variable ops0 : list OperatorBase.
Variable rc0 : gmap nat (gmap nat nat).

(** The entry [(t, c)] recorded for the operator at address [op] comes from
    an output name of that operator that is a key of the table, whose
    variable and whose target variable both exist in the scope and hold dense
    tensors; [t] is the variable's tensor and [c] the index of the target's
    cluster. *)
Definition planned_entry (op t c : nat) : Prop :=
  ∃ o name reuse_name v rv,
    ops0 !! op = Some o ∧ name ∈ OutputVars o ∧
    reuse_table !! name = Some reuse_name ∧
    FindVar fuel w0 s0 name = Done (Some v) ∧
    FindVar fuel w0 s0 reuse_name = Done (Some rv) ∧
    var_holder v = Some {| ph_type := DENSE_TENSOR; ph_obj := t |} ∧
    IsType_DenseTensor rv = true ∧
    c = find_index reuse_name (cluster_names_of reuse_table).

(** Every recorded cluster id indexes a slot of [cluster_buffer_] that holds
    a tensor address. *)
Definition slots_set (e : NaiveExecutor) : Prop :=
  ∀ op m t c, reuse_cache_ e !! op = Some m → m !! t = Some c →
              ∃ p, cluster_buffer_ e !! c = Some (Some p).

(** What the loops of [MakeReusePlan] keep true: the world is as it was, the
    buffer has one slot per cluster, and every entry was either there before
    the call or is a planned entry. *)
Definition plan_inv (st : State) : Prop :=
  world st = w0 ∧ scope_ (exe st) = Some s0 ∧ ops_ (exe st) = ops0 ∧
  length (cluster_buffer_ (exe st)) = length (cluster_names_of reuse_table) ∧
  ∀ op m t c, reuse_cache_ (exe st) !! op = Some m → m !! t = Some c →
    (∃ m0, rc0 !! op = Some m0 ∧ m0 !! t = Some c) ∨ planned_entry op t c.

Lemma IsType_DenseTensor_holder v :
  IsType_DenseTensor v = true →
  ∃ p, var_holder v = Some {| ph_type := DENSE_TENSOR; ph_obj := p |}.
Proof.
  unfold IsType_DenseTensor. destruct (var_holder v) as [[ty p]|]; [|done].
  intros Hty%bool_decide_eq_true. cbn in Hty. subst. eauto.
Qed.

Lemma record_reuse_lookup op tensor idx e op' m t c :
  reuse_cache_ (record_reuse op tensor idx e) !! op' = Some m → m !! t = Some c →
  (op' = op ∧ t = tensor ∧ c = idx) ∨
  (∃ m0, reuse_cache_ e !! op' = Some m0 ∧ m0 !! t = Some c).
Proof.
  unfold record_reuse. cbn. destruct (reuse_cache_ e !! op) as [m0|] eqn:Hop.
  - destruct (decide (op' = op)) as [->|Hne].
    + rewrite lookup_insert_eq. intros [= <-]. unfold emplace.
      destruct (m0 !! tensor) as [c0|] eqn:Ht; [eauto|].
      destruct (decide (t = tensor)) as [->|Hnt].
      * rewrite lookup_insert_eq. intros [= <-]. by left.
      * rewrite lookup_insert_ne by done. eauto.
    + rewrite lookup_insert_ne by done. eauto.
  - destruct (decide (op' = op)) as [->|Hne].
    + rewrite lookup_insert_eq. intros [= <-].
      intros [-> ->]%lookup_singleton_Some. by left.
    + rewrite lookup_insert_ne by done. eauto.
Qed.

Lemma plan_output_step op o name st :
  (∀ x, ∃ r, FindVar fuel w0 s0 x = Done r) →
  ops0 !! op = Some o → name ∈ OutputVars o → plan_inv st →
  ∃ st', plan_output fuel reuse_table (cluster_names_of reuse_table) op name st
         = (Done tt, st') ∧ plan_inv st' ∧ (slots_set (exe st) → slots_set (exe st')).
Proof.
  intros Hfind Ho Hname Hinv. pose proof Hinv as (Hw & Hs & Hops & Hlen & Hsound).
  unfold plan_output.
  destruct (reuse_table !! name) as [reuse_name|] eqn:Htab; [|by exists st].
  do 2 (erewrite bind_Done; [|by (reflexivity || rewrite Hs)]).
  erewrite bind_Done; [|reflexivity]. rewrite Hw.
  destruct (Hfind name) as [var Hvar]. destruct (Hfind reuse_name) as [reuse_var Hrvar].
  rewrite Hvar, Hrvar. do 2 (erewrite bind_Done; [|reflexivity]).
  destruct var as [v|]; [|by exists st]. destruct reuse_var as [rv|]; [|by exists st].
  destruct (IsType_DenseTensor v) eqn:Hv; [|by exists st].
  destruct (IsType_DenseTensor rv) eqn:Hrv; [|by exists st]. cbn [andb].
  destruct (IsType_DenseTensor_holder v Hv) as [t Ht].
  destruct (IsType_DenseTensor_holder rv Hrv) as [p Hp].
  unfold Get_DenseTensor. rewrite Ht, Hp. cbn [ph_type ph_obj].
  rewrite !decide_True by done.
  do 2 (erewrite bind_Done; [|reflexivity]).
  pose proof (cluster_index_in_range reuse_table name reuse_name Htab) as Hidx.
  set (idx := find_index reuse_name (cluster_names_of reuse_table)) in *.
  unfold store_cluster at 1. erewrite bind_Done; [|by rewrite decide_True by lia].
  eexists. split; [reflexivity|]. unfold plan_inv.
  set (e1 := set_cluster_buffer_ (λ cb, <[idx:=Some p]> cb) (exe st)).
  change (exe (on_exe _ (on_exe _ st))) with (record_reuse op t idx e1).
  assert (Hcb : cluster_buffer_ (record_reuse op t idx e1)
                = <[idx:=Some p]> (cluster_buffer_ (exe st))) by done.
  split.
  - split; [done|]. split; [done|]. split; [done|].
    split; [by rewrite Hcb, length_insert|].
    intros op' m t' c Hm Hc.
    destruct (record_reuse_lookup op t idx e1 op' m t' c Hm Hc)
      as [(-> & -> & ->)|(m0 & Hm0 & Hc0)].
    + right. exists o, name, reuse_name, v, rv. by repeat split.
    + by eapply Hsound.
  - intros Hslots op' m t' c Hm Hc. rewrite Hcb.
    destruct (record_reuse_lookup op t idx e1 op' m t' c Hm Hc)
      as [(-> & -> & ->)|(m0 & Hm0 & Hc0)].
    + exists p. apply list_lookup_insert_eq. lia.
    + destruct (Hslots op' m0 t' c Hm0 Hc0) as [q Hq].
      destruct (decide (c = idx)) as [->|Hne].
      * exists p. apply list_lookup_insert_eq. lia.
      * exists q. by rewrite list_lookup_insert_ne.
Qed.

End ReusePlanFacts.

(** [MakeReusePlan] on an executor that has a scope with a finite parent
    chain: it returns, changes nothing in the world, and leaves a plan whose
    entries are the earlier ones and planned ones; if the slots of the
    earlier entries are set in the resized buffer, the slots of all entries
    are set afterwards. *)
Lemma MakeReusePlan_spec fuel (reuse_table : gmap string string) st s anc n :
  scope_ (exe st) = Some s → root_path (world st) s anc n → n < fuel →
  ∃ st', MakeReusePlan fuel reuse_table st = (Done tt, st') ∧
    plan_inv fuel reuse_table (world st) s (ops_ (exe st)) (reuse_cache_ (exe st)) st' ∧
    (slots_set (set_cluster_buffer_
                  (resize (length (cluster_names_of reuse_table)) None) (exe st)) →
     slots_set (exe st')).
Proof.
  intros Hs Hpath Hfuel. unfold MakeReusePlan.
  do 2 (erewrite bind_Done; [|reflexivity]).
  set (st1 := on_exe (set_cluster_buffer_
                        (resize (length (cluster_names_of reuse_table)) None)) st).
  change (ops_ (exe st1)) with (ops_ (exe st)).
  set (I := λ st', plan_inv fuel reuse_table (world st) s (ops_ (exe st))
                     (reuse_cache_ (exe st)) st' ∧
                   (slots_set (exe st1) → slots_set (exe st'))).
  destruct (foreach_invariant I
              (λ iop : nat * OperatorBase,
                 foreach (OutputVars iop.2)
                   (plan_output fuel reuse_table (cluster_names_of reuse_table) iop.1))
              (imap pair (ops_ (exe st)))) with (s := st1) as (st' & Hrun & Hinv & Hslots).
  - intros [i o] st2 Hin Hinv. cbn [fst snd].
    apply list_elem_of_lookup in Hin as [j Hj].
    rewrite list_lookup_imap in Hj.
    destruct (ops_ (exe st) !! j) as [o'|] eqn:Ho; [|done].
    injection Hj as -> ->.
    apply (foreach_invariant I); [|done].
    intros name st3 Hname [Hinv3 Hslots3].
    destruct (plan_output_step fuel reuse_table (world st) s (ops_ (exe st))
                (reuse_cache_ (exe st)) i o name st3) as (st4 & Hrun4 & Hinv4 & Hslots4);
      [|done..|].
    { intros x. by eapply FindVar_path. }
    exists st4. split; [done|]. split; [done|]. auto.
  - split; [|done]. split; [done|]. split; [done|]. split; [done|].
    split; [by cbn; rewrite length_resize|]. intros op m t c Hm Hc. left. by exists m.
  - by exists st'.
Qed.

(** C6: [MakeReusePlan] returns normally and leaves the world alone, and every
    entry of the plan that was not there before the call comes from a key of
    the table whose variable and whose target variable both exist in the
    scope and are dense tensors; a key whose variable is missing, or whose
    variable or target variable is not a dense tensor, therefore adds no
    entry. *)
Theorem MakeReusePlan_skips_silently fuel (reuse_table : gmap string string) st s anc n :
  scope_ (exe st) = Some s → root_path (world st) s anc n → n < fuel →
  ∃ st', MakeReusePlan fuel reuse_table st = (Done tt, st') ∧
    world st' = world st ∧
    ∀ op m t c, reuse_cache_ (exe st') !! op = Some m → m !! t = Some c →
      (∃ m0, reuse_cache_ (exe st) !! op = Some m0 ∧ m0 !! t = Some c) ∨
      ∃ o name reuse_name v rv,
        ops_ (exe st) !! op = Some o ∧ name ∈ OutputVars o ∧
        reuse_table !! name = Some reuse_name ∧
        FindVar fuel (world st) s name = Done (Some v) ∧
        FindVar fuel (world st) s reuse_name = Done (Some rv) ∧
        var_holder v = Some {| ph_type := DENSE_TENSOR; ph_obj := t |} ∧
        IsType_DenseTensor rv = true ∧
        c = find_index reuse_name (cluster_names_of reuse_table).
Proof.
  intros Hs Hpath Hfuel.
  destruct (MakeReusePlan_spec fuel reuse_table st s anc n Hs Hpath Hfuel)
    as (st' & Hrun & (Hw & _ & _ & _ & Hsound) & _).
  exists st'. split; [done|]. split; [done|]. exact Hsound.
Qed.

(** ** The buffer update of [Run] *)

(** The tensor at [q] is recorded under the cluster [c] for some operator. *)
Definition recorded (rc : gmap nat (gmap nat nat)) (c q : nat) : Prop :=
  ∃ op m, rc !! op = Some m ∧ m !! q = Some c.

(** The size of the canonical buffer of the cluster [c]. *)
Definition canonical_size (st : State) (c : nat) : option N :=
  match cluster_buffer_ (exe st) !! c with
  | Some (Some p) => memory_size <$> tensors (world st) !! p
  | _ => None
  end.

Section Realias.
(** The state in which the re-aliasing of the cluster [c] starts: [t] has just
    become its canonical buffer, with the backing allocation [hT]. *)
Variable st1 : State.
Variables c t : nat.
Variable hT : option Allocation.
Hypothesis canonical : cluster_buffer_ (exe st1) !! c = Some (Some t).
Hypothesis recorded_live :
  ∀ q, recorded (reuse_cache_ (exe st1)) c q → is_Some (tensors (world st1) !! q).

(** What the two loops keep true. *)
Definition realias_inv (st : State) : Prop :=
  exe st = exe st1 ∧ trace st = trace st1 ∧
  scopes (world st) = scopes (world st1) ∧ next_addr (world st) = next_addr (world st1) ∧
  (∃ T', tensors (world st) !! t = Some T' ∧ holder T' = hT) ∧
  ∀ q, match tensors (world st) !! q, tensors (world st1) !! q with
       | Some Q', Some Q =>
           dims Q' = dims Q ∧
           (Q' = Q ∨ (recorded (reuse_cache_ (exe st1)) c q ∧ holder Q' = hT))
       | None, None => True
       | _, _ => False
       end.

(** The tensor at [q] shares the backing allocation of the canonical buffer. *)
Definition aliased (q : nat) (st : State) : Prop :=
  ∃ Q', tensors (world st) !! q = Some Q' ∧ holder Q' = hT.

Lemma realias_entry_step (it2 : nat * nat) st :
  recorded (reuse_cache_ (exe st1)) it2.2 it2.1 → realias_inv st →
  ∃ st',
    (if decide (it2.2 = c)
     then src ← load_cluster it2.2; share_buffer it2.1 src
     else mret tt) st = (Done tt, st') ∧
    realias_inv st' ∧
    (it2.2 = c → aliased it2.1 st') ∧
    (∀ q, aliased q st → aliased q st').
Proof.
  destruct it2 as [q c2]. cbn [fst snd]. intros Hrec Hinv.
  pose proof Hinv as (He & Htr & Hsc & Hna & (T' & HT' & HhT) & Hts).
  case_decide as Hc; [subst c2|by exists st].
  assert (Hload : load_cluster c st = (Done t, st)).
  { unfold load_cluster. by rewrite He, canonical. }
  rewrite (bind_Done _ _ _ _ _ Hload).
  destruct (recorded_live q Hrec) as [Q HQ].
  pose proof (Hts q) as Hq. rewrite HQ in Hq.
  destruct (tensors (world st) !! q) as [Q'|] eqn:HQ'; [|done].
  destruct Hq as [Hdims Hhold].
  assert (Hshare : share_buffer q t st =
            (Done tt, on_world (set_tensors (λ ts, <[q := ShareBufferWith Q' T']> ts)) st)).
  { unfold share_buffer, tensor_at. erewrite bind_Done; [|reflexivity].
    rewrite HQ'. erewrite bind_Done; [|reflexivity].
    rewrite HT'. by erewrite bind_Done; [|reflexivity]. }
  rewrite Hshare. eexists. split; [reflexivity|]. unfold realias_inv, aliased. cbn.
  assert (Hnew : ∀ x, (<[q:=ShareBufferWith Q' T']> (tensors (world st))) !! x =
                      if decide (x = q) then Some (ShareBufferWith Q' T')
                      else tensors (world st) !! x).
  { intros x. case_decide as Hx; [subst; apply lookup_insert_eq|by apply lookup_insert_ne]. }
  split; [|split].
  - split; [done|]. split; [done|]. split; [done|]. split; [done|]. split.
    + rewrite Hnew. case_decide; [|eauto]. eexists. split; [done|]. done.
    + intros x. rewrite Hnew. case_decide as Hx; [|apply Hts].
      subst x. rewrite HQ. split; [done|]. right. split; [done|]. done.
  - intros _. exists (ShareBufferWith Q' T'). rewrite Hnew, decide_True by done. done.
  - intros x (X & HX & HhX). rewrite Hnew. case_decide; [|eauto].
    eexists. split; [done|]. done.
Qed.

Lemma realias_cluster_spec :
  realias_inv st1 →
  ∃ st', realias_cluster c st1 = (Done tt, st') ∧ realias_inv st' ∧
         ∀ q, recorded (reuse_cache_ (exe st1)) c q → aliased q st'.
Proof.
  intros Hinv. unfold realias_cluster. erewrite bind_Done; [|reflexivity].
  destruct (foreach_establish realias_inv
              (λ (op_map : nat * gmap nat nat) st,
                 ∀ q, op_map.2 !! q = Some c → aliased q st)
              (λ _, True)
              (λ op_map : nat * gmap nat nat,
                 foreach (map_to_list op_map.2) (λ it2,
                   if decide (it2.2 = c)
                   then src ← load_cluster it2.2; share_buffer it2.1 src
                   else mret tt))
              (map_to_list (reuse_cache_ (exe st1)))) with (s := st1)
    as (st' & Hrun & Hinv' & Hall & _); [|done|].
  - intros [op m] st Hin Hst. cbn [fst snd].
    apply elem_of_map_to_list in Hin.
    destruct (foreach_establish realias_inv (λ (it2 : nat * nat) st, it2.2 = c → aliased it2.1 st)
                (λ _, True)
                (λ it2 : nat * nat,
                   if decide (it2.2 = c)
                   then src ← load_cluster it2.2; share_buffer it2.1 src
                   else mret tt)
                (map_to_list m)) with (s := st)
      as (st' & Hrun & Hinv' & Hall & Hstab); [|done|].
    + intros [q c2] st2 Hin2 Hst2. apply elem_of_map_to_list in Hin2.
      destruct (realias_entry_step (q, c2) st2) as (st3 & H3 & Hinv3 & Hnew & Hkeep);
        [by exists op, m|done|].
      exists st3. split; [done|]. split; [done|]. split; [by intros _|].
      intros [q' c'] Hy Hc'. by apply Hkeep, Hy.
    + exists st'. split; [done|]. split; [done|]. split.
      * intros _ q Hq. apply (Hall (q, c)); [by apply elem_of_map_to_list|done|done].
      * intros [op' m'] Hy q Hq. apply (Hstab (q, c)); [|done]. intros _. by apply Hy.
  - exists st'. split; [done|]. split; [done|].
    intros q (op & m & Hm & Hq). apply (Hall (op, m)); [by apply elem_of_map_to_list|done|done].
Qed.

End Realias.

Lemma memory_size_at_Done st p T :
  tensors (world st) !! p = Some T → memory_size_at p st = (Done (memory_size T), st).
Proof.
  intros Hp. unfold memory_size_at, tensor_at. erewrite bind_Done; [|reflexivity].
  rewrite Hp. by erewrite bind_Done; [|reflexivity].
Qed.

(** The update for one recorded pair [(t, c)]. When the tensor is strictly
    larger than the cluster's canonical buffer it becomes the canonical
    buffer, every tensor recorded under [c] for any operator then shares its
    backing allocation, no other tensor changes and every tensor keeps its
    shape; otherwise nothing changes at all. Either way the canonical buffer
    of [c] afterwards has the larger of the two sizes. *)
Lemma update_cluster_entry st t c T p P :
  tensors (world st) !! t = Some T →
  cluster_buffer_ (exe st) !! c = Some (Some p) →
  tensors (world st) !! p = Some P →
  (∀ q, recorded (reuse_cache_ (exe st)) c q → is_Some (tensors (world st) !! q)) →
  ∃ st', update_cluster (t, c) st = (Done tt, st') ∧
    (if decide (memory_size P < memory_size T)%N then
       cluster_buffer_ (exe st') = <[c := Some t]> (cluster_buffer_ (exe st)) ∧
       same_plan (exe st) (exe st') ∧
       (∀ q, recorded (reuse_cache_ (exe st)) c q →
             ∃ Q', tensors (world st') !! q = Some Q' ∧ holder Q' = holder T) ∧
       (∀ q, ¬ recorded (reuse_cache_ (exe st)) c q →
             tensors (world st') !! q = tensors (world st) !! q) ∧
       (∀ q, dims <$> tensors (world st') !! q = dims <$> tensors (world st) !! q)
     else st' = st) ∧
    canonical_size st c = Some (memory_size P) ∧
    canonical_size st' c = Some (N.max (memory_size P) (memory_size T)).
Proof.
  intros Ht Hc Hp Hlive. unfold update_cluster. cbn [fst snd].
  rewrite (bind_Done _ _ _ _ _ (memory_size_at_Done st t T Ht)).
  assert (Hload : load_cluster c st = (Done p, st)) by (unfold load_cluster; by rewrite Hc).
  rewrite (bind_Done _ _ _ _ _ Hload).
  rewrite (bind_Done _ _ _ _ _ (memory_size_at_Done st p P Hp)).
  assert (Hold : canonical_size st c = Some (memory_size P)).
  { unfold canonical_size. by rewrite Hc, Hp. }
  case_decide as Hlt.
  2:{ exists st. split; [done|]. split; [done|]. split; [done|].
      rewrite Hold. f_equal. symmetry. apply N.max_l. lia. }
  pose proof (lookup_lt_Some _ _ _ Hc) as Hrange.
  set (st1 := on_exe (set_cluster_buffer_ (λ cb, <[c := Some t]> cb)) st).
  assert (Hstore : store_cluster c t st = (Done tt, st1)).
  { unfold store_cluster. by rewrite decide_True. }
  rewrite (bind_Done _ _ _ _ _ Hstore).
  destruct (realias_cluster_spec st1 c t (holder T)) as (st' & Hrun & Hinv & Hal).
  - cbn. by apply list_lookup_insert_eq.
  - exact Hlive.
  - split; [done|]. split; [done|]. split; [done|]. split; [done|]. split; [by exists T|].
    intros q. cbn. destruct (tensors (world st) !! q); [|done]. split; [done|by left].
  - destruct Hinv as (He & Htr & Hsc & Hna & (T' & HT' & HhT) & Hts).
    exists st'. split; [done|]. split; [|split; [done|]].
    + split; [by rewrite He|]. split; [rewrite He; by constructor|]. split; [exact Hal|].
      split.
      * intros q Hq. pose proof (Hts q) as Hmatch. cbn in Hmatch.
        destruct (tensors (world st') !! q) as [Q'|], (tensors (world st) !! q) as [Q|];
          try done.
        destruct Hmatch as [_ [->|[Hrec _]]]; [done|]. by destruct Hq.
      * intros q. pose proof (Hts q) as Hmatch. cbn in Hmatch.
        destruct (tensors (world st') !! q) as [Q'|], (tensors (world st) !! q) as [Q|];
          try done.
        cbn. f_equal. by destruct Hmatch.
    + unfold canonical_size. rewrite He. cbn.
      rewrite list_lookup_insert_eq by done. rewrite HT'. cbn.
      f_equal. unfold memory_size at 1. rewrite HhT. fold (memory_size T).
      symmetry. apply N.max_r. lia.
Qed.

(** A reuse plan in which every tensor is recorded under one cluster only and
    no cluster's canonical buffer is recorded under another cluster. *)
Definition unchained (st : State) : Prop :=
  (∀ q c1 c2, recorded (reuse_cache_ (exe st)) c1 q →
              recorded (reuse_cache_ (exe st)) c2 q → c1 = c2) ∧
  (∀ c p c', cluster_buffer_ (exe st) !! c = Some (Some p) →
             recorded (reuse_cache_ (exe st)) c' p → c' = c).

(** Every recorded tensor and every canonical buffer is allocated, and every
    recorded cluster has a canonical buffer. *)
Definition plan_live (st : State) : Prop :=
  (∀ c q, recorded (reuse_cache_ (exe st)) c q →
          is_Some (tensors (world st) !! q) ∧
          ∃ p, cluster_buffer_ (exe st) !! c = Some (Some p)) ∧
  (∀ c p, cluster_buffer_ (exe st) !! c = Some (Some p) →
          is_Some (tensors (world st) !! p)).

(** No cluster's canonical buffer is smaller in [st'] than in [st]. *)
Definition sizes_grow (st st' : State) : Prop :=
  ∀ c n, canonical_size st c = Some n →
         ∃ n', canonical_size st' c = Some n' ∧ (n ≤ n')%N.

Lemma is_Some_fmap_eq {A B} (f : A → B) (x y : option A) :
  f <$> x = f <$> y → is_Some y → is_Some x.
Proof. destruct x, y; cbn; by eauto. Qed.

Lemma update_cluster_unchained st t c :
  recorded (reuse_cache_ (exe st)) c t → unchained st → plan_live st →
  ∃ st', update_cluster (t, c) st = (Done tt, st') ∧
         reuse_cache_ (exe st') = reuse_cache_ (exe st) ∧
         unchained st' ∧ plan_live st' ∧ sizes_grow st st'.
Proof.
  intros Hrec [Hfun Hchain] [Hlive Hbuf].
  destruct (Hlive c t Hrec) as [[T HT] [p Hp]]. destruct (Hbuf c p Hp) as [P HP].
  destruct (update_cluster_entry st t c T p P HT Hp HP) as (st' & Hrun & Hcase & Hold & Hnew).
  { intros q Hq. by apply (Hlive c q). }
  exists st'. split; [done|].
  case_decide as Hlt.
  2:{ subst st'. split; [done|]. split; [done|]. split; [done|]. intros c' n Hn. eauto. }
  destruct Hcase as (Hcb & Hplan & Hal & Hother & Hdims).
  pose proof (sp_cache _ _ Hplan) as Hrc. unfold unchained, plan_live. rewrite Hrc.
  pose proof (lookup_lt_Some _ _ _ Hp) as Hrange.
  assert (Hdom : ∀ q, is_Some (tensors (world st) !! q) → is_Some (tensors (world st') !! q)).
  { intros q. apply (is_Some_fmap_eq dims). apply Hdims. }
  split; [done|]. split; [|split].
  - split; [done|]. intros c0 p0 c' Hc0 Hp0. rewrite Hcb in Hc0.
    destruct (decide (c0 = c)) as [->|Hne].
    + rewrite list_lookup_insert_eq in Hc0 by done. injection Hc0 as <-. by eapply Hfun.
    + rewrite list_lookup_insert_ne in Hc0 by done. by eapply Hchain.
  - split.
    + intros c0 q Hq. destruct (Hlive c0 q Hq) as [Hq1 [p0 Hp0]]. split; [by apply Hdom|].
      rewrite Hcb. destruct (decide (c0 = c)) as [->|Hne].
      * exists t. by apply list_lookup_insert_eq.
      * exists p0. by rewrite list_lookup_insert_ne.
    + intros c0 p0 Hc0. rewrite Hcb in Hc0. apply Hdom.
      destruct (decide (c0 = c)) as [->|Hne].
      * rewrite list_lookup_insert_eq in Hc0 by done. injection Hc0 as <-. by eexists.
      * rewrite list_lookup_insert_ne in Hc0 by done. by eapply Hbuf.
  - intros c0 n Hn. destruct (decide (c0 = c)) as [->|Hne].
    + rewrite Hold in Hn. injection Hn as <-. eexists. split; [exact Hnew|]. lia.
    + exists n. split; [|lia]. rewrite <- Hn. unfold canonical_size.
      rewrite Hcb, list_lookup_insert_ne by done.
      destruct (cluster_buffer_ (exe st) !! c0) as [[p0|]|] eqn:Hc0; [|done..].
      rewrite Hother; [done|]. intros Hp0. apply Hne. symmetry. by eapply Hchain.
Qed.

(** The whole buffer update of an operator, on an unchained plan: it returns
    and no cluster's canonical buffer shrinks. *)
Lemma update_shared_holder_monotone st op :
  unchained st → plan_live st →
  ∃ st', update_shared_holder op st = (Done tt, st') ∧
         unchained st' ∧ plan_live st' ∧ sizes_grow st st'.
Proof.
  intros Hun Hlive. unfold update_shared_holder. erewrite bind_Done; [|reflexivity].
  destruct (reuse_cache_ (exe st) !! op) as [entries|] eqn:Hop.
  2:{ exists st. split; [done|]. split; [done|]. split; [done|]. intros c n Hn. eauto. }
  destruct (foreach_invariant
              (λ st', reuse_cache_ (exe st') = reuse_cache_ (exe st) ∧
                      unchained st' ∧ plan_live st' ∧ sizes_grow st st')
              update_cluster (map_to_list entries)) with (s := st)
    as (st' & Hrun & _ & Hun' & Hlive' & Hgrow).
  - intros [t c] st1 Hin (Hrc & Hun1 & Hlive1 & Hgrow1). apply elem_of_map_to_list in Hin.
    destruct (update_cluster_unchained st1 t c) as (st2 & Hrun & Hrc2 & Hun2 & Hlive2 & Hgrow2);
      [rewrite Hrc; by exists op, entries|done|done|].
    exists st2. split; [done|]. split; [congruence|]. split; [done|]. split; [done|].
    intros c0 n Hn. destruct (Hgrow1 c0 n Hn) as (n1 & Hn1 & Hle1).
    destruct (Hgrow2 c0 n1 Hn1) as (n2 & Hn2 & Hle2). exists n2. split; [done|lia].
  - split; [done|]. split; [done|]. split; [done|]. intros c n Hn. eauto.
  - by exists st'.
Qed.

(** C1 (as the code has it): for a recorded pair [(t, c)] the canonical buffer
    of [c] is replaced by [t] exactly when [t] is strictly larger; on a
    replacement every tensor recorded under [c] for any operator shares the
    backing allocation of the new canonical buffer, and otherwise nothing
    changes; the canonical buffer of the pair's own cluster ends with the
    larger of the two sizes. Over the whole buffer update of an operator no
    cluster's canonical buffer shrinks, provided the plan is unchained: no
    canonical buffer is itself recorded under a different cluster. *)
Theorem buffer_update_spec :
  (∀ st t c T p P,
     tensors (world st) !! t = Some T →
     cluster_buffer_ (exe st) !! c = Some (Some p) →
     tensors (world st) !! p = Some P →
     (∀ q, recorded (reuse_cache_ (exe st)) c q → is_Some (tensors (world st) !! q)) →
     ∃ st', update_cluster (t, c) st = (Done tt, st') ∧
       (if decide (memory_size P < memory_size T)%N then
          cluster_buffer_ (exe st') = <[c := Some t]> (cluster_buffer_ (exe st)) ∧
          same_plan (exe st) (exe st') ∧
          (∀ q, recorded (reuse_cache_ (exe st)) c q →
                ∃ Q', tensors (world st') !! q = Some Q' ∧ holder Q' = holder T) ∧
          (∀ q, ¬ recorded (reuse_cache_ (exe st)) c q →
                tensors (world st') !! q = tensors (world st) !! q) ∧
          (∀ q, dims <$> tensors (world st') !! q = dims <$> tensors (world st) !! q)
        else st' = st) ∧
       canonical_size st c = Some (memory_size P) ∧
       canonical_size st' c = Some (N.max (memory_size P) (memory_size T))) ∧
  (∀ st op, unchained st → plan_live st →
     ∃ st', update_shared_holder op st = (Done tt, st') ∧
            unchained st' ∧ plan_live st' ∧ sizes_grow st st').
Proof. split; [exact update_cluster_entry | exact update_shared_holder_monotone]. Qed.

(** From a state that satisfies [I] the computation ends in a state that
    satisfies [I], and an error it raises satisfies [P]. *)
Definition guarded {S A} (I : S → Prop) (P : error → Prop) (m : M S A) : Prop :=
  ∀ s r s', I s → m s = (r, s') → I s' ∧ ∀ e, r = Raise e → P e.

Lemma guarded_ret {S A} (I : S → Prop) P (a : A) : guarded I P (mret a : M S A).
Proof. intros s r s' Hs [= <- <-]. by split. Qed.

Lemma guarded_raise {S A} (I : S → Prop) (P : error → Prop) e :
  P e → guarded I P (raise e : M S A).
Proof. intros He s r s' Hs [= <- <-]. split; [done|]. by intros ? [= <-]. Qed.

Lemma guarded_gets {S A} (I : S → Prop) P (f : S → A) : guarded I P (gets f).
Proof. intros s r s' Hs [= <- <-]. by split. Qed.

Lemma guarded_modify {S} (I : S → Prop) P (f : S → S) :
  (∀ s, I s → I (f s)) → guarded I P (modify f).
Proof. intros Hf s r s' Hs [= <- <-]. split; [by apply Hf|done]. Qed.

Lemma guarded_bind {S A B} (I : S → Prop) P (m : M S A) (f : A → M S B) :
  guarded I P m → (∀ a, guarded I P (f a)) → guarded I P (m ≫= f).
Proof.
  intros Hm Hf s r s' Hs H. apply bind_inv in H as [(a & s1 & H1 & H2)|(e & H1 & ->)].
  - destruct (Hm _ _ _ Hs H1) as [Hs1 _]. by eapply Hf.
  - destruct (Hm _ _ _ Hs H1) as [Hs' He]. split; [done|].
    intros e0 [= <-]. by apply He.
Qed.

Lemma guarded_foreach {S A} (I : S → Prop) P (l : list A) (body : A → M S unit) :
  (∀ x, x ∈ l → guarded I P (body x)) → guarded I P (foreach l body).
Proof.
  induction l as [|x l IH]; intros Hbody; [apply guarded_ret|].
  apply guarded_bind; [apply Hbody; by left|].
  intros _. apply IH. intros y Hy. apply Hbody. by right.
Qed.

(** The faults of reading a cluster slot that was never set. *)
Definition unset_slot_fault (e : error) : Prop :=
  e = Fault NullClusterBuffer ∨ e = Fault ClusterIndexOutOfRange.

Lemma guarded_hand_over (I : State → Prop) (P : error → Prop) op (callee : M Env unit) :
  (∀ st w tr o, I st →
     I {| world := w; exe := set_ops_ (λ ops, <[op := o]> ops) (exe st); trace := tr |}) →
  only_raises P callee → guarded I P (hand_over op callee).
Proof.
  intros HI Hm st r st' Hst. unfold hand_over.
  destruct (ops_ (exe st) !! op) as [o|]; [|by intros [= <- <-]].
  destruct (callee _) as [r1 env] eqn:Hrun. intros [= <- <-].
  split; [by apply HI|]. intros e ->. by eapply Hm.
Qed.

Section SlotsSet.
Variable hook_call : HookFunc → nat → option nat → M Env unit.
Variable op_run : nat → nat → nat → M Env unit.
(** The reuse plan of the executor. *)
Variable rc : gmap nat (gmap nat nat).

Definition slots_inv (st : State) : Prop :=
  reuse_cache_ (exe st) = rc ∧ slots_set (exe st).

Local Abbreviation safe := (guarded slots_inv (λ e, ¬ unset_slot_fault e)).

Lemma memory_size_at_safe p : safe (memory_size_at p).
Proof.
  intros st r st' Hst. unfold memory_size_at, tensor_at.
  erewrite bind_Done; [|reflexivity].
  destruct (tensors (world st) !! p).
  - erewrite bind_Done; [|reflexivity]. intros [= <- <-]. by split.
  - intros [= <- <-]. split; [done|]. intros e [= <-] [|]; discriminate.
Qed.

Lemma share_buffer_safe dst src : safe (share_buffer dst src).
Proof.
  intros st r st' Hst. unfold share_buffer, tensor_at.
  erewrite bind_Done; [|reflexivity].
  destruct (tensors (world st) !! dst).
  2:{ intros [= <- <-]. split; [done|]. intros e [= <-] [|]; discriminate. }
  erewrite bind_Done; [|reflexivity].
  destruct (tensors (world st) !! src).
  2:{ intros [= <- <-]. split; [done|]. intros e [= <-] [|]; discriminate. }
  erewrite bind_Done; [|reflexivity]. intros [= <- <-]. by split.
Qed.

Lemma load_cluster_recorded c q st :
  slots_inv st → recorded rc c q → ∃ p, load_cluster c st = (Done p, st).
Proof.
  intros [Hrc Hslots] (op & m & Hm & Hq). rewrite <- Hrc in Hm.
  destruct (Hslots op m q c Hm Hq) as [p Hp]. exists p.
  unfold load_cluster. by rewrite Hp.
Qed.

Lemma store_cluster_recorded c q t st :
  slots_inv st → recorded rc c q →
  ∃ st', store_cluster c t st = (Done tt, st') ∧ slots_inv st'.
Proof.
  intros [Hrc Hslots] (op & m & Hm & Hq). rewrite <- Hrc in Hm.
  destruct (Hslots op m q c Hm Hq) as [p Hp].
  pose proof (lookup_lt_Some _ _ _ Hp) as Hrange.
  unfold store_cluster. rewrite decide_True by done.
  eexists. split; [done|]. split; [done|].
  intros op' m' t' c' Hm' Hc'. destruct (Hslots op' m' t' c' Hm' Hc') as [p' Hp'].
  cbn. destruct (decide (c' = c)) as [->|Hne].
  - exists t. by apply list_lookup_insert_eq.
  - exists p'. by rewrite list_lookup_insert_ne.
Qed.

Lemma realias_cluster_safe c : safe (realias_cluster c).
Proof.
  unfold realias_cluster.
  intros st r st' Hst. erewrite bind_Done; [|reflexivity]. revert st' r.
  destruct Hst as [Hrc Hslots]. rewrite Hrc.
  assert (Hst : slots_inv st) by done. revert Hst. generalize st. clear st Hrc Hslots.
  intros st Hst st' r. revert st r st' Hst.
  apply guarded_foreach. intros [op m] Hin%elem_of_map_to_list.
  apply guarded_foreach. intros [q c2] Hin2%elem_of_map_to_list. cbn [fst snd].
  case_decide as Hc; [subst c2|apply guarded_ret].
  intros st r st' Hst.
  destruct (load_cluster_recorded c q st Hst) as [p Hp]; [by exists op, m|].
  rewrite (bind_Done _ _ _ _ _ Hp). by apply share_buffer_safe.
Qed.

Lemma update_cluster_safe t c : recorded rc c t → safe (update_cluster (t, c)).
Proof.
  intros Hrec. unfold update_cluster. cbn [fst snd].
  apply guarded_bind; [apply memory_size_at_safe|intros size].
  intros st r st' Hst.
  destruct (load_cluster_recorded c t st Hst Hrec) as [p Hp].
  rewrite (bind_Done _ _ _ _ _ Hp). clear Hp. revert st r st' Hst.
  apply guarded_bind; [apply memory_size_at_safe|intros buffer_size].
  case_decide; [|apply guarded_ret].
  intros st r st' Hst.
  destruct (store_cluster_recorded c t t st Hst Hrec) as (st1 & Hstore & Hst1).
  rewrite (bind_Done _ _ _ _ _ Hstore). by apply realias_cluster_safe.
Qed.

Lemma update_shared_holder_safe op : safe (update_shared_holder op).
Proof.
  unfold update_shared_holder. intros st r st' Hst.
  erewrite bind_Done; [|reflexivity]. pose proof Hst as [Hrc _]. rewrite Hrc.
  destruct (rc !! op) as [entries|] eqn:Hop; [|by apply guarded_ret].
  clear Hrc. revert st r st' Hst. apply guarded_foreach.
  intros [t c] Hin%elem_of_map_to_list. apply update_cluster_safe. by exists op, entries.
Qed.

Hypothesis hook_call_external :
  ∀ h op sc, only_raises (λ e, ¬ unset_slot_fault e) (hook_call h op sc).
Hypothesis op_run_external :
  ∀ op sc p, only_raises (λ e, ¬ unset_slot_fault e) (op_run op sc p).

Ltac guarded_step :=
  lazymatch goal with
  | |- guarded _ _ (mret _) => apply guarded_ret
  | |- guarded _ _ (gets _) => apply guarded_gets
  | |- guarded _ _ (_ ≫= _) => apply guarded_bind
  | |- guarded _ _ (foreach _ _) => apply guarded_foreach
  | |- guarded _ _ (set_op _ _) => by apply guarded_modify
  | |- guarded _ _ (hand_over _ _) => by apply guarded_hand_over
  | |- guarded _ _ (update_shared_holder _) => apply update_shared_holder_safe
  | |- guarded _ _ (raise _) => apply guarded_raise; intros [|]; discriminate
  | |- guarded _ _ (with_op _ _) => unfold with_op
  | |- guarded _ _ (if decide _ then _ else _) => case_decide
  | |- guarded _ _ (match ?x with _ => _ end) => destruct x
  | |- ∀ _, _ => intro
  end.

Lemma run_op_safe op : safe (run_op hook_call op_run op).
Proof. unfold run_op. repeat guarded_step. Qed.

Lemma Run_safe : safe (Run hook_call op_run).
Proof. unfold Run. repeat guarded_step. apply run_op_safe. Qed.

End SlotsSet.

(** C10 (as the code has it): after a [MakeReusePlan] on an executor whose
    earlier entries, if it has any, name slots that are still set once the
    buffer is resized to the new number of clusters (on a first call the
    cache is empty), every recorded cluster id is a valid index of
    [cluster_buffer_] and its slot holds a tensor address; [Run] keeps it so,
    and from such an executor the buffer update never reads an unset or
    out-of-range slot (hooks and operators being unable to raise these faults
    of the executor). *)
Theorem reuse_plan_slots_never_unset
  (hook_call : HookFunc → nat → option nat → M Env unit)
  (op_run : nat → nat → nat → M Env unit)
  fuel (reuse_table : gmap string string) st s anc n :
  scope_ (exe st) = Some s → root_path (world st) s anc n → n < fuel →
  (∀ op m t c, reuse_cache_ (exe st) !! op = Some m → m !! t = Some c →
     ∃ p, resize (length (cluster_names_of reuse_table)) None (cluster_buffer_ (exe st)) !! c
          = Some (Some p)) →
  (∀ h op sc, only_raises (λ e, ¬ unset_slot_fault e) (hook_call h op sc)) →
  (∀ op sc p, only_raises (λ e, ¬ unset_slot_fault e) (op_run op sc p)) →
  ∃ st1, MakeReusePlan fuel reuse_table st = (Done tt, st1) ∧
    (∀ op m t c, reuse_cache_ (exe st1) !! op = Some m → m !! t = Some c →
       c < length (cluster_buffer_ (exe st1)) ∧
       ∃ p, cluster_buffer_ (exe st1) !! c = Some (Some p)) ∧
    (∀ st' r st2, slots_set (exe st') → Run hook_call op_run st' = (r, st2) →
       slots_set (exe st2) ∧ reuse_cache_ (exe st2) = reuse_cache_ (exe st') ∧
       ∀ e, r = Raise e → ¬ unset_slot_fault e).
Proof.
  intros Hs Hpath Hfuel Hold Hhook Hop.
  destruct (MakeReusePlan_spec fuel reuse_table st s anc n Hs Hpath Hfuel)
    as (st1 & Hrun & _ & Hslots).
  assert (Hset : slots_set (exe st1)) by (apply Hslots; exact Hold).
  clear Hslots. rename Hset into Hslots.
  exists st1. split; [done|]. split.
  - intros op m t c Hm Hc. destruct (Hslots op m t c Hm Hc) as [p Hp].
    split; [by eapply lookup_lt_Some|by exists p].
  - intros st' r st2 Hst' Hrun'.
    destruct (Run_safe hook_call op_run (reuse_cache_ (exe st')) Hhook Hop st' r st2)
      as [[Hrc Hslots2] Herr]; [by split|done|].
    by repeat split.
Qed.

(** ** Planning and updating on concrete plans *)

Lemma skipping_state_path : root_path (world skipping_state) 0 0 0.
Proof. eapply root_path_here; reflexivity. Defined.

Lemma MakeReusePlan_skips_silently_witness :
  ∃ st', MakeReusePlan 1 skipping_table skipping_state = (Done tt, st') ∧
         world st' = world skipping_state ∧
         reuse_cache_ (exe st') = {[ 0 := {[ 30 := 0 ]} ]}.
Proof.
  destruct (MakeReusePlan_skips_silently 1 skipping_table skipping_state 0 0 0
              eq_refl skipping_state_path ltac:(lia))
    as (st' & Hrun & Hw & _).
  exists st'. split; [exact Hrun|]. split; [exact Hw|].
  vm_compute in Hrun. injection Hrun as <-. reflexivity.
Defined.

Lemma idle_hook_external h op sc :
  only_raises (λ e, ¬ unset_slot_fault e) (idle_hook h op sc).
Proof. intros w e w' H. discriminate H. Defined.

Lemma idle_op_external op sc p :
  only_raises (λ e, ¬ unset_slot_fault e) (idle_op op sc p).
Proof. intros w e w' H. discriminate H. Defined.

Lemma reuse_plan_slots_never_unset_witness :
  ∃ st1, MakeReusePlan 1 skipping_table skipping_state = (Done tt, st1) ∧
         cluster_buffer_ (exe st1) = [Some 31] ∧
         ∀ e, (Run idle_hook idle_op st1).1 = Raise e → ¬ unset_slot_fault e.
Proof.
  destruct (reuse_plan_slots_never_unset idle_hook idle_op 1 skipping_table skipping_state
              0 0 0 eq_refl skipping_state_path ltac:(lia)
              ltac:(intros op m t c Hm;
                    change ((∅ : gmap nat (gmap nat nat)) !! op = Some m) in Hm;
                    by rewrite lookup_empty in Hm)
              idle_hook_external idle_op_external)
    as (st1 & Hrun & Hslots & Hsafe).
  exists st1. split; [exact Hrun|]. split.
  - vm_compute in Hrun. injection Hrun as <-. reflexivity.
  - intros e He.
    destruct (Run idle_hook idle_op st1) as [r st2] eqn:Hrun2.
    apply (Hsafe st1 r st2); [|exact Hrun2|exact He].
    intros op m t c Hm Hc. exact (proj2 (Hslots op m t c Hm Hc)).
Defined.

(** Planning again does not clear the reuse cache: after a second call, with
    the empty table, the entry of the first plan is still there while the
    buffer has no slot left, and [Run] indexes the buffer out of range; after
    a third call, with a table of one cluster that matches no output, the
    entry names a slot that is unset, and [Run] dereferences it. *)
Lemma replanning_leaves_stale_entries :
  (MakeReusePlan 1 skipping_table skipping_state).1 = Done tt ∧
  (MakeReusePlan 1 ∅ skipping_planned).1 = Done tt ∧
  reuse_cache_ (exe skipping_replanned) = {[ 0 := {[ 30 := 0 ]} ]} ∧
  cluster_buffer_ (exe skipping_replanned) = [] ∧
  (Run idle_hook idle_op skipping_replanned).1 = Raise (Fault ClusterIndexOutOfRange) ∧
  (MakeReusePlan 1 {[ "q" := "buf0" ]} skipping_replanned).1 = Done tt ∧
  reuse_cache_ (exe skipping_replanned_again) = {[ 0 := {[ 30 := 0 ]} ]} ∧
  cluster_buffer_ (exe skipping_replanned_again) = [None] ∧
  (Run idle_hook idle_op skipping_replanned_again).1 = Raise (Fault NullClusterBuffer).
Proof. vm_compute. repeat split. Qed.

Lemma growing_state_recorded c q :
  recorded (reuse_cache_ (exe growing_state)) c q → c = 0 ∧ q = 101.
Proof.
  intros (op & m & Hm & Hq).
  change (({[ 0 := {[ 101 := 0 ]} ]} : gmap nat (gmap nat nat)) !! op = Some m) in Hm.
  apply lookup_singleton_Some in Hm as [<- <-].
  apply lookup_singleton_Some in Hq as [<- <-]. done.
Defined.

Lemma growing_state_buffer c p :
  cluster_buffer_ (exe growing_state) !! c = Some (Some p) → c = 0 ∧ p = 104.
Proof. destruct c as [|c]; cbn; [by intros [= <-]|]. by destruct c. Defined.

Lemma growing_state_unchained : unchained growing_state ∧ plan_live growing_state.
Proof.
  split; split.
  - intros q c1 c2 [-> _]%growing_state_recorded [-> _]%growing_state_recorded. done.
  - intros c p c' [-> ->]%growing_state_buffer [_ Hp]%growing_state_recorded. done.
  - intros c q [-> ->]%growing_state_recorded. split; by eexists.
  - intros c p [-> ->]%growing_state_buffer. by eexists.
Defined.

Lemma buffer_update_spec_witness :
  (∃ st', update_cluster (101, 0) growing_state = (Done tt, st') ∧
          cluster_buffer_ (exe st') = [Some 101] ∧
          canonical_size growing_state 0 = Some 10%N ∧
          canonical_size st' 0 = Some 20%N) ∧
  (∃ st', update_shared_holder 0 growing_state = (Done tt, st') ∧
          sizes_grow growing_state st').
Proof.
  split.
  - destruct (proj1 buffer_update_spec growing_state 101 0 (sized 1 20) 104 (sized 4 10)
                eq_refl eq_refl eq_refl) as (st' & Hrun & Hcase & Hold & Hnew).
    + intros q [_ ->]%growing_state_recorded. by eexists.
    + exists st'. split; [exact Hrun|]. split; [|split; [exact Hold|exact Hnew]].
      rewrite decide_True in Hcase by (cbn; lia). exact (proj1 Hcase).
  - destruct (proj2 buffer_update_spec growing_state 0
                (proj1 growing_state_unchained) (proj2 growing_state_unchained))
      as (st' & Hrun & _ & _ & Hgrow).
    by exists st'.
Defined.

(** The canonical buffer of the cluster "b" has 100 bytes after planning; the
    buffer update of the first operator, which replaces the canonical buffer
    of the cluster "c", leaves it with 10 bytes, and after the whole run it
    has 50 bytes: its size has decreased. *)
Lemma canonical_size_of_chained_cluster_decreases :
  (MakeReusePlan 1 chained_table chained_state).1 = Done tt ∧
  (update_shared_holder 0 chained_planned).1 = Done tt ∧
  (Run idle_hook idle_op chained_planned).1 = Done tt ∧
  canonical_size chained_planned cluster_b = Some 100%N ∧
  canonical_size chained_updated cluster_b = Some 10%N ∧
  canonical_size chained_run cluster_b = Some 50%N.
Proof. vm_compute. repeat split. Qed.

(** * Further properties of the executor *)

(** ** Preparing more than once *)

(** X1: [Prepare] never clears [ops_] and leaves the hooks, the reuse plan and
    the callees' record alone: however it ends, the scope is set and the
    operator list is the old one followed by the operators of the
    descriptors it has gone through. It returns exactly when every "feed"
    and "fetch" descriptor of the block has a first name in its "X" input
    slot and in its "Out" output slot, which the log line of [CreateOps]
    reads; otherwise it stops at the first descriptor that has not, with
    the exception of the slot accessor or by indexing an empty vector. *)
Theorem Prepare_appends_ops scope desc block_id b st r st' :
  desc !! block_id = Some b →
  Prepare scope desc block_id st = (r, st') →
  (∃ gone, gone `prefix_of` AllOps b ∧
     ops_ (exe st') =
       ops_ (exe st) ++ (CreateOp <$> filter (λ d, ¬ is_io_marker d) gone)) ∧
  (r = Done tt ↔ Forall (λ d, is_io_marker d → has_log_operands d) (AllOps b)) ∧
  (r = Done tt →
   ops_ (exe st') =
     ops_ (exe st) ++ (CreateOp <$> filter (λ d, ¬ is_io_marker d) (AllOps b))) ∧
  (∀ e, r = Raise e → log_skip_error e) ∧
  is_Some (scope_ (exe st')) ∧
  (∀ s, scope = Some s → scope_ (exe st') = Some s ∧ world st' = world st) ∧
  input_hookfuncs_ (exe st') = input_hookfuncs_ (exe st) ∧
  output_hookfuncs_ (exe st') = output_hookfuncs_ (exe st) ∧
  reuse_cache_ (exe st') = reuse_cache_ (exe st) ∧
  cluster_buffer_ (exe st') = cluster_buffer_ (exe st) ∧
  trace st' = trace st.
Proof.
  intros Hb Hprep.
  destruct (Prepare_inv _ _ _ _ _ _ Hprep) as (s & w & Hgiven & Hcreate).
  pose proof (CreateOps_returns _ _ _ _ _ _ Hb Hcreate) as Hret.
  destruct (CreateOps_spec _ _ _ _ _ _ Hb Hcreate)
    as (Hw & Ht & gone & rest & Hl & _ & He & Hr).
  cbn [exe world trace] in He, Hw, Ht. rewrite He. cbn.
  split; [exists gone; split; [rewrite Hl; by apply prefix_app_r|done]|].
  split; [done|]. split.
  { intros ->. subst rest. by rewrite app_nil_r in Hl; subst gone. }
  split; [by intros e ->; destruct Hr|]. split; [by eexists|].
  split; [|done]. intros s0 Hs0. destruct (Hgiven s0 Hs0) as [-> ->]. by rewrite Hw.
Qed.

Lemma Prepare_appends_ops_witness :
  (Prepare None small_program 0 (Prepare None small_program 0 fresh_state).2).1 = Done tt ∧
  ops_ (exe (Prepare None small_program 0 (Prepare None small_program 0 fresh_state).2).2)
    = [CreateOp relu_desc; CreateOp while_desc; CreateOp relu_desc; CreateOp while_desc].
Proof.
  destruct (Prepare_appends_ops None small_program 0
              {| AllVars := []; AllOps := [feed_desc; relu_desc; while_desc; fetch_desc] |}
              (Prepare None small_program 0 fresh_state).2
              (Prepare None small_program 0 (Prepare None small_program 0 fresh_state).2).1
              (Prepare None small_program 0 (Prepare None small_program 0 fresh_state).2).2
              eq_refl (surjective_pairing _))
    as (_ & Hret & Hops & _).
  pose proof (proj2 Hret small_program_log_operands) as Hdone.
  split; [exact Hdone|]. rewrite (Hops Hdone). reflexivity.
Defined.

(** On a block whose "fetch" descriptor has no "Out" slot, [Prepare] throws
    when it comes to that descriptor: the operator before it has been
    appended, the one after it has not. *)
Example Prepare_stops_at_broken_fetch :
  (Prepare None broken_program 0 fresh_state).1 = Raise (External 2) ∧
  ops_ (exe (Prepare None broken_program 0 fresh_state).2) = [CreateOp relu_desc].
Proof. vm_compute. done. Qed.

(** The computation's end state has the same [f] as its start state. *)
Definition keeps {S B} (f : S → B) (s s' : S) : Prop := f s' = f s.

Global Instance keeps_refl {S B} (f : S → B) : Reflexive (keeps f).
Proof. by intros s. Qed.

Global Instance keeps_trans {S B} (f : S → B) : Transitive (keeps f).
Proof. intros s1 s2 s3 H1 H2. unfold keeps in *. congruence. Qed.

(** ** The scope after [Prepare] *)



(** ** Registering hooks *)

(** One call of [RegisterInputHook] or [RegisterOutputHook]. *)
Inductive Registration :=
| OfInputHook (h : HookFunc)
| OfOutputHook (h : HookFunc).

Definition register (e : NaiveExecutor) (r : Registration) : NaiveExecutor :=
  match r with
  | OfInputHook h => RegisterInputHook h e
  | OfOutputHook h => RegisterOutputHook h e
  end.

Definition input_hooks_of (rs : list Registration) : list HookFunc :=
  omap (λ r, match r with OfInputHook h => Some h | _ => None end) rs.
Definition output_hooks_of (rs : list Registration) : list HookFunc :=
  omap (λ r, match r with OfOutputHook h => Some h | _ => None end) rs.

(** The hook list a delegated interpreter holds after some registrations: the
    executor's whole list once a hook of that kind has been registered, the
    list it had otherwise. *)
Definition handed_over (registered before_ now : list HookFunc) : list HookFunc :=
  match registered with
  | [] => before_
  | _ => now
  end.

(** X3: However registrations of input and output hooks are interleaved, each of
    the two lists grows at its end by the hooks of its kind in registration
    order and nothing else of the executor changes; a delegated interpreter,
    when there is one, is handed the executor's complete list of a kind (the
    hooks registered before included) at every registration of that kind. *)
Theorem hook_registration_order (rs : list Registration) (e : NaiveExecutor) :
  let e' := foldl register e rs in
  input_hookfuncs_ e' = input_hookfuncs_ e ++ input_hooks_of rs ∧
  output_hookfuncs_ e' = output_hookfuncs_ e ++ output_hooks_of rs ∧
  place_ e' = place_ e ∧ scope_ e' = scope_ e ∧ ops_ e' = ops_ e ∧
  reuse_cache_ e' = reuse_cache_ e ∧ cluster_buffer_ e' = cluster_buffer_ e ∧
  interpreter_core_ e' =
    (λ ic, {| ic_input_hookfuncs_ :=
                handed_over (input_hooks_of rs) (ic_input_hookfuncs_ ic)
                            (input_hookfuncs_ e');
              ic_output_hookfuncs_ :=
                handed_over (output_hooks_of rs) (ic_output_hookfuncs_ ic)
                            (output_hookfuncs_ e') |}) <$> interpreter_core_ e.
Proof.
  assert (Hsnoc : ∀ (l : list HookFunc) h b n, handed_over (l ++ [h]) b n = n)
    by (by intros [|??]).
  revert e. induction rs as [|r rs IH] using rev_ind; intros e; cbn zeta.
  - cbn. rewrite !app_nil_r. repeat split; try done.
    by destruct (interpreter_core_ e) as [[]|].
  - rewrite foldl_app. cbn [foldl].
    destruct (IH e) as (Hin & Hout & Hp & Hs & Hops & Hrc & Hcb & Hic).
    set (e1 := foldl register e rs) in *.
    unfold input_hooks_of, output_hooks_of in *. rewrite !omap_app.
    set (ins := omap _ rs) in *. set (outs := omap _ rs) in *.
    destruct r as [h|h]; cbn [register omap]; rewrite ?app_nil_r.
    + cbn -[handed_over]. rewrite Hic.
      split; [by rewrite Hin, app_assoc|]. repeat split; try done.
      destruct (interpreter_core_ e) as [ic|]; [|done]. cbn -[handed_over]. by rewrite Hsnoc.
    + cbn -[handed_over]. rewrite Hic.
      split; [done|]. split; [by rewrite Hout, app_assoc|]. repeat split; try done.
      destruct (interpreter_core_ e) as [ic|]; [|done]. cbn -[handed_over]. by rewrite Hsnoc.
Qed.

(** ** What [Run] leaves alone *)

(** The part of the executor that the code of [Run] never writes: everything
    but the operator objects, of which it keeps the number, and the contents
    of the slots of [cluster_buffer_]. *)
Definition plan_shape (st : State) :=
  (place_ (exe st), scope_ (exe st), length (ops_ (exe st)),
   input_hookfuncs_ (exe st), output_hookfuncs_ (exe st), interpreter_core_ (exe st),
   reuse_cache_ (exe st), length (cluster_buffer_ (exe st))).

(** The types and the variable names of the operators, in order. *)
Definition descriptors (st : State) : list OpDesc := op_desc_of <$> ops_ (exe st).

(** The part of the world that [Run] itself never writes: the scopes with
    their variables, the allocation counter, and which tensors exist with
    which shape. *)
Definition layout (w : World) := (scopes w, next_addr w, dims <$> tensors w).

Lemma fmap_alter_invariant {A B} (f : A → B) (g : A → A) i (l : list A) :
  (∀ x, f (g x) = f x) → f <$> alter g i l = f <$> l.
Proof.
  intros Hfg. revert i. induction l as [|x l IH]; intros [|i]; cbn; [done..| |].
  - by rewrite Hfg.
  - f_equal. apply IH.
Qed.

Section RunPreserves.
Variable hook_call : HookFunc → nat → option nat → M Env unit.
Variable op_run : nat → nat → nat → M Env unit.

(** A relation between states that every step [Run] is built from keeps. *)
Context (R : relation State) `{!Reflexive R, !Transitive R}.
Hypothesis R_set_op :
  ∀ i f, (∀ o, op_desc_of (f o) = op_desc_of o) → preserves R (set_op i f).
Hypothesis R_hook : ∀ h op sc, preserves R (hand_over op (hook_call h op sc)).
Hypothesis R_op : ∀ op s p, preserves R (hand_over op (op_run op s p)).
Hypothesis R_store : ∀ i p, preserves R (store_cluster i p).
Hypothesis R_share : ∀ dst src, preserves R (share_buffer dst src).

Lemma load_cluster_preserves id : preserves R (load_cluster id).
Proof. intros st r st' H. apply load_cluster_inv in H. by subst. Qed.

Lemma memory_size_at_preserves p : preserves R (memory_size_at p).
Proof. intros st r st' H. apply memory_size_at_inv in H. by subst. Qed.

Lemma update_shared_holder_preserves op : preserves R (update_shared_holder op).
Proof.
  unfold update_shared_holder, update_cluster, realias_cluster.
  repeat preserves_step;
    auto using load_cluster_preserves, memory_size_at_preserves.
Qed.

Lemma with_op_preserves i k : (∀ o, preserves R (k o)) → preserves R (with_op i k).
Proof. intros Hk. unfold with_op. by repeat preserves_step. Qed.

Lemma run_op_preserves i : preserves R (run_op hook_call op_run i).
Proof.
  unfold run_op.
  repeat first
    [ apply update_shared_holder_preserves
    | apply with_op_preserves
    | apply R_hook | apply R_op
    | by apply R_set_op
    | preserves_step ].
Qed.

Lemma Run_preserves : preserves R (Run hook_call op_run).
Proof. unfold Run. repeat preserves_step. apply run_op_preserves. Qed.

End RunPreserves.

(** What a call of a collaborator leaves of the state, given what the
    collaborator leaves of what it is handed. *)
Lemma hand_over_preserves {B} (f : State → B) op (callee : M Env unit) :
  (∀ st o env r env',
     ops_ (exe st) !! op = Some o →
     env = {| env_op := o; env_world := world st; env_trace := trace st |} →
     callee env = (r, env') →
     f {| world := env_world env';
          exe := set_ops_ (λ ops, <[op := env_op env']> ops) (exe st);
          trace := env_trace env' |} = f st) →
  preserves (keeps f) (hand_over op callee).
Proof.
  intros Hf st r st'. unfold hand_over.
  destruct (ops_ (exe st) !! op) as [o|] eqn:Ho; [|by intros [= <- <-]].
  destruct (callee _) as [r1 env'] eqn:Hrun. intros [= <- <-].
  by eapply Hf.
Qed.

Section RunFrame.
Variable hook_call : HookFunc → nat → option nat → M Env unit.
Variable op_run : nat → nat → nat → M Env unit.

Lemma Run_plan_shape st :
  plan_shape (Run hook_call op_run st).2 = plan_shape st.
Proof.
  destruct (Run hook_call op_run st) as [r st'] eqn:Hrun. cbn.
  revert st r st' Hrun. apply (Run_preserves hook_call op_run (keeps plan_shape)).
  - intros i f Hf. apply preserves_modify. intros st. unfold keeps, plan_shape. cbn.
    by rewrite length_alter.
  - intros h op sc. apply hand_over_preserves. intros st o env r env' _ _ _.
    unfold plan_shape. cbn. by rewrite length_insert.
  - intros op s p. apply hand_over_preserves. intros st o env r env' _ _ _.
    unfold plan_shape. cbn. by rewrite length_insert.
  - intros i p st r st'. unfold store_cluster. case_decide; inversion 1; subst; [|done].
    unfold keeps, plan_shape. cbn. by rewrite length_insert.
  - intros dst src. unfold share_buffer. repeat preserves_step. by apply preserves_modify.
Qed.

(** X4: The code of [Run] changes nothing of the executor but the run flag and
    the hook lists of the operator objects and the contents of the slots of
    [cluster_buffer_]: however it ends, the place, the scope, the two hook
    lists, the interpreter and the reuse cache are as before and there are
    as many operators and as many slots; and when no hook and no operator
    changes the type or the variable names of the operator it is handed,
    every operator has the type and the variable names it had. *)
Theorem Run_keeps_plan_shape st :
  plan_shape (Run hook_call op_run st).2 = plan_shape st ∧
  ((∀ h op sc env r env', hook_call h op sc env = (r, env') →
      op_desc_of (env_op env') = op_desc_of (env_op env)) →
   (∀ op s p env r env', op_run op s p env = (r, env') →
      op_desc_of (env_op env') = op_desc_of (env_op env)) →
   descriptors (Run hook_call op_run st).2 = descriptors st).
Proof.
  split; [apply Run_plan_shape|]. intros Hhook Hop.
  destruct (Run hook_call op_run st) as [r st'] eqn:Hrun. cbn.
  revert st r st' Hrun. apply (Run_preserves hook_call op_run (keeps descriptors)).
  - intros i f Hf. apply preserves_modify. intros st. unfold keeps, descriptors. cbn.
    by rewrite fmap_alter_invariant.
  - intros h op sc. apply hand_over_preserves. intros st o env r env' Ho -> Hcall.
    apply Hhook in Hcall. unfold descriptors. cbn in *.
    rewrite list_fmap_insert, Hcall. apply list_insert_id.
    by rewrite list_lookup_fmap, Ho.
  - intros op s p. apply hand_over_preserves. intros st o env r env' Ho -> Hcall.
    apply Hop in Hcall. unfold descriptors. cbn in *.
    rewrite list_fmap_insert, Hcall. apply list_insert_id.
    by rewrite list_lookup_fmap, Ho.
  - intros i p st r st'. unfold store_cluster. by case_decide; inversion 1; subst.
  - intros dst src. unfold share_buffer. repeat preserves_step. by apply preserves_modify.
Qed.

(** X5: [Run] itself creates no variable, no scope and no tensor and changes no
    tensor's shape: when the hooks and the operators keep the scopes, the
    allocation counter and the tensors' shapes, so does the whole [Run],
    reuse plan or not and however it ends. *)
Theorem Run_keeps_layout st :
  (∀ h op sc, preserves (keeps (λ env, layout (env_world env))) (hook_call h op sc)) →
  (∀ op s p, preserves (keeps (λ env, layout (env_world env))) (op_run op s p)) →
  layout (world (Run hook_call op_run st).2) = layout (world st).
Proof.
  intros Hhook Hop.
  destruct (Run hook_call op_run st) as [r st'] eqn:Hrun. cbn.
  revert st r st' Hrun.
  apply (Run_preserves hook_call op_run (keeps (λ st, layout (world st)))).
  - intros i f Hf. by apply preserves_modify.
  - intros h op sc. apply hand_over_preserves. intros st o env r env' _ -> Hcall.
    by apply Hhook in Hcall.
  - intros op s p. apply hand_over_preserves. intros st o env r env' _ -> Hcall.
    by apply Hop in Hcall.
  - intros i p st r st'. unfold store_cluster. by case_decide; inversion 1; subst.
  - intros dst src st r st'.
    unfold share_buffer, gets, lift, mbind, M_bind, tensor_at, modify.
    destruct (tensors (world st) !! dst) as [d|] eqn:Hd; [|by inversion 1].
    destruct (tensors (world st) !! src) as [t|]; inversion 1; subst; [|done].
    unfold keeps, layout. cbn. rewrite fmap_insert. cbn.
    rewrite insert_id; [done|]. by rewrite lookup_fmap, Hd.
Qed.

End RunFrame.

Lemma Run_keeps_layout_witness :
  layout (world chained_run) = layout (world chained_planned).
Proof.
  apply (Run_keeps_layout idle_hook idle_op chained_planned).
  - intros h op sc env r env' H. by inversion H.
  - intros op s p env r env' H. by inversion H.
Defined.

(** ** More on the reuse plan *)

Lemma clusters_of_sound (reuse_table : gmap string string) target :
  is_Some (clusters_of reuse_table !! target) → ∃ name, reuse_table !! name = Some target.
Proof.
  unfold clusters_of. revert target.
  apply (map_fold_weak_ind
           (λ acc (m : gmap string string),
              ∀ target, is_Some (acc !! target) → ∃ name, m !! name = Some target)).
  - intros target. rewrite lookup_empty. by intros [].
  - intros k v m acc Hk IH target Hsome.
    destruct (decide (target = v)) as [->|Hne].
    + exists k. apply lookup_insert_eq.
    + rewrite lookup_insert_ne in Hsome by done.
      destruct (IH target Hsome) as [name Hname]. exists name.
      rewrite lookup_insert_ne; [done|]. intros ->. congruence.
Qed.

(** The cluster names are the distinct target names of the table. *)
Lemma cluster_names_of_spec (reuse_table : gmap string string) :
  NoDup (cluster_names_of reuse_table) ∧
  (∀ target, target ∈ cluster_names_of reuse_table ↔
             ∃ name, reuse_table !! name = Some target) ∧
  length (cluster_names_of reuse_table) = size (map_img reuse_table : gset string).
Proof.
  unfold cluster_names_of. split; [apply NoDup_fst_map_to_list|].
  assert (Hdom : dom (clusters_of reuse_table) = (map_img reuse_table : gset string)).
  { apply set_eq. intros x. rewrite elem_of_dom, elem_of_map_img. split.
    - apply clusters_of_sound.
    - intros [name Hname]. by eapply clusters_of_complete. }
  split.
  - intros target. rewrite <- (elem_of_map_img (SA:=gset string)), <- Hdom, elem_of_dom. split.
    + intros [[x names] [-> Hin]]%list_elem_of_fmap. apply elem_of_map_to_list in Hin.
      by eexists.
    + intros [names Hnames]. apply list_elem_of_fmap. exists (target, names).
      split; [done|]. by apply elem_of_map_to_list.
  - by rewrite length_fmap, length_map_to_list, <- Hdom, size_dom.
Qed.

Lemma find_index_lookup x l : x ∈ l → l !! find_index x l = Some x.
Proof.
  induction l as [|y l IH]; [by intros ?%elem_of_nil|].
  intros Hx. cbn. case_decide as Hy; [by subst|].
  apply elem_of_cons in Hx as [->|Hx]; [done|]. by apply IH.
Qed.

Lemma find_index_inj x y l :
  x ∈ l → y ∈ l → find_index x l = find_index y l → x = y.
Proof.
  intros Hx Hy Heq. apply find_index_lookup in Hx, Hy. rewrite Heq in Hx. congruence.
Qed.

Lemma store_cluster_length idx p :
  preserves (keeps (λ st, length (cluster_buffer_ (exe st)))) (store_cluster idx p).
Proof.
  intros st r st'. unfold store_cluster. case_decide; inversion 1; subst; [|done].
  unfold keeps. cbn. by rewrite length_insert.
Qed.

Lemma plan_output_length fuel reuse_table names op name :
  preserves (keeps (λ st, length (cluster_buffer_ (exe st))))
            (plan_output fuel reuse_table names op name).
Proof.
  unfold plan_output. repeat preserves_step; try apply store_cluster_length.
  by apply preserves_modify.
Qed.

(** X6: [MakeReusePlan] gives [cluster_buffer_] one slot per distinct target name
    of the table, however it ends, and numbers the targets by slot: the
    cluster id of a target is a valid index, and two keys get the same
    cluster id exactly when they have the same target. *)
Theorem MakeReusePlan_one_slot_per_target fuel (reuse_table : gmap string string) st :
  let cluster_id target := find_index target (cluster_names_of reuse_table) in
  length (cluster_buffer_ (exe (MakeReusePlan fuel reuse_table st).2))
    = size (map_img reuse_table : gset string) ∧
  ∀ name1 target1, reuse_table !! name1 = Some target1 →
    cluster_id target1 < size (map_img reuse_table : gset string) ∧
    cluster_names_of reuse_table !! cluster_id target1 = Some target1 ∧
    ∀ name2 target2, reuse_table !! name2 = Some target2 →
      (cluster_id target1 = cluster_id target2 ↔ target1 = target2).
Proof.
  destruct (cluster_names_of_spec reuse_table) as (Hnodup & Hin & Hlen). cbn zeta. split.
  - destruct (MakeReusePlan fuel reuse_table st) as [r st'] eqn:Hrun. cbn.
    unfold MakeReusePlan in Hrun.
    apply bind_inv in Hrun as [(a & s1 & H1 & Hrun)|(e & H1 & _)]; [|by inversion H1].
    inversion H1; subst a s1; clear H1. rewrite <- Hlen.
    assert (Hkeep : preserves (keeps (λ st, length (cluster_buffer_ (exe st))))
              (e ← gets exe;
               foreach (imap pair (ops_ e)) (λ iop,
                 foreach (OutputVars iop.2)
                   (plan_output fuel reuse_table (cluster_names_of reuse_table) iop.1)))).
    { repeat preserves_step. apply plan_output_length. }
    rewrite (Hkeep _ _ _ Hrun). cbn. apply length_resize.
  - intros name1 target1 H1.
    assert (Hin1 : target1 ∈ cluster_names_of reuse_table) by (apply Hin; eauto).
    split; [rewrite <- Hlen; by apply find_index_lt|].
    split; [by apply find_index_lookup|].
    intros name2 target2 H2. split; [|by intros ->].
    apply find_index_inj; [done|]. apply Hin; eauto.
Qed.

(** Every entry of the reuse cache of [st] is an entry of the cache of [st'],
    with the same cluster id. *)
Definition entries_kept (st st' : State) : Prop :=
  ∀ op m t c, reuse_cache_ (exe st) !! op = Some m → m !! t = Some c →
    ∃ m', reuse_cache_ (exe st') !! op = Some m' ∧ m' !! t = Some c.

Global Instance entries_kept_refl : Reflexive entries_kept.
Proof. intros st op m t c Hm Hc. eauto. Qed.

Global Instance entries_kept_trans : Transitive entries_kept.
Proof.
  intros s1 s2 s3 H12 H23 op m t c Hm Hc.
  destruct (H12 op m t c Hm Hc) as (m' & Hm' & Hc'). eauto.
Qed.

Lemma keeps_cache_entries_kept st st' :
  keeps (λ st, reuse_cache_ (exe st)) st st' → entries_kept st st'.
Proof. intros H op m t c Hm Hc. rewrite H. eauto. Qed.

Lemma record_reuse_kept op tensor idx st :
  entries_kept st (on_exe (record_reuse op tensor idx) st).
Proof.
  intros op' m t c Hm Hc. unfold record_reuse. cbn.
  destruct (decide (op' = op)) as [->|Hne].
  - rewrite Hm, lookup_insert_eq. eexists. split; [done|]. unfold emplace.
    destruct (m !! tensor) eqn:Ht; [done|]. rewrite lookup_insert_ne; [done|congruence].
  - destruct (reuse_cache_ (exe st) !! op); rewrite lookup_insert_ne by done; eauto.
Qed.

Lemma store_cluster_cache idx p :
  preserves (keeps (λ st, reuse_cache_ (exe st))) (store_cluster idx p).
Proof. intros st r st'. unfold store_cluster. by case_decide; inversion 1; subst. Qed.

(** X7: [MakeReusePlan] only adds to the reuse cache: an entry that is there
    before the call is there afterwards, with the same cluster id, however
    the call ends ([emplace] does not overwrite, and nothing clears the
    cache). *)
Theorem MakeReusePlan_keeps_entries fuel (reuse_table : gmap string string) st op m t c :
  reuse_cache_ (exe st) !! op = Some m → m !! t = Some c →
  ∃ m', reuse_cache_ (exe (MakeReusePlan fuel reuse_table st).2) !! op = Some m' ∧
        m' !! t = Some c.
Proof.
  assert (Hkeep : preserves entries_kept (MakeReusePlan fuel reuse_table)).
  { unfold MakeReusePlan, plan_output. repeat preserves_step.
    - apply preserves_modify. intros s0. by apply keeps_cache_entries_kept.
    - intros s0 r0 s' Hst. by apply keeps_cache_entries_kept, (store_cluster_cache _ _ _ _ _ Hst).
    - apply preserves_modify. intros s0. apply record_reuse_kept. }
  destruct (MakeReusePlan fuel reuse_table st) as [r st'] eqn:Hrun. cbn.
  by apply (Hkeep _ _ _ Hrun).
Qed.

Lemma MakeReusePlan_keeps_entries_witness :
  ∃ m', reuse_cache_ (exe (MakeReusePlan 1 ∅ chained_planned).2) !! 0 = Some m' ∧
        m' !! 101 = Some (find_index "c" (cluster_names_of chained_table)).
Proof.
  apply (MakeReusePlan_keeps_entries 1 ∅ chained_planned 0
           {[ 101 := find_index "c" (cluster_names_of chained_table) ]}
           101 (find_index "c" (cluster_names_of chained_table))).
  - vm_compute. reflexivity.
  - vm_compute. reflexivity.
Defined.

Lemma plan_output_kept fuel reuse_table names op name :
  preserves entries_kept (plan_output fuel reuse_table names op name).
Proof.
  unfold plan_output. repeat preserves_step.
  - intros s0 r0 s' Hst. by apply keeps_cache_entries_kept, (store_cluster_cache _ _ _ _ _ Hst).
  - apply preserves_modify. intros s0. apply record_reuse_kept.
Qed.

Section FreshPlan.
Variable fuel : nat.
Variable reuse_table : gmap string string.
Variable w0 : World.
Variable s0 : nat.
Variable cb0 : list (option nat).

Local Abbreviation cluster_id target :=
  (find_index target (cluster_names_of reuse_table)).

(** The variable [name] is found from the scope and holds the dense tensor
    at [p]. *)
Definition dense_at (name : string) (p : nat) : Prop :=
  ∃ v, FindVar fuel w0 s0 name = Done (Some v) ∧
       var_holder v = Some {| ph_type := DENSE_TENSOR; ph_obj := p |}.

(** The output [name] can be planned: it is a key of the table, with the
    target [reuse_name], and both variables are found and hold dense tensors,
    at [t] and at [p]. *)
Definition reusable (name reuse_name : string) (t p : nat) : Prop :=
  reuse_table !! name = Some reuse_name ∧ dense_at name t ∧ dense_at reuse_name p.

Lemma dense_at_inj name p q : dense_at name p → dense_at name q → p = q.
Proof. intros (v & Hv & Hp) (v' & Hv' & Hq). congruence. Qed.

(** What one step of the planner does. *)
Lemma plan_output_cases op name st :
  (∀ x, ∃ r, FindVar fuel w0 s0 x = Done r) →
  world st = w0 → scope_ (exe st) = Some s0 →
  length (cluster_buffer_ (exe st)) = length (cluster_names_of reuse_table) →
  ∃ st', plan_output fuel reuse_table (cluster_names_of reuse_table) op name st
         = (Done tt, st') ∧
    ((st' = st ∧ ∀ reuse_name t p, ¬ reusable name reuse_name t p) ∨
     (∃ reuse_name t p, reusable name reuse_name t p ∧
        cluster_id reuse_name < length (cluster_buffer_ (exe st)) ∧
        st' = on_exe (record_reuse op t (cluster_id reuse_name))
                (on_exe (set_cluster_buffer_
                           (λ cb, <[cluster_id reuse_name := Some p]> cb)) st))).
Proof.
  intros Hfind Hw Hs Hlen. unfold plan_output.
  destruct (reuse_table !! name) as [reuse_name|] eqn:Htab.
  2:{ exists st. split; [done|]. left. split; [done|]. intros ??? [? _]. congruence. }
  do 2 (erewrite bind_Done; [|by (reflexivity || rewrite Hs)]).
  erewrite bind_Done; [|reflexivity]. rewrite Hw.
  destruct (Hfind name) as [var Hvar]. destruct (Hfind reuse_name) as [reuse_var Hrvar].
  rewrite Hvar, Hrvar. do 2 (erewrite bind_Done; [|reflexivity]).
  assert (Hskip : (∀ t p, ¬ (dense_at name t ∧ dense_at reuse_name p)) →
            (st = st ∧ ∀ reuse_name' t p, ¬ reusable name reuse_name' t p) ∨
            (∃ reuse_name' t p, reusable name reuse_name' t p ∧
               cluster_id reuse_name' < length (cluster_buffer_ (exe st)) ∧
               st = on_exe (record_reuse op t (cluster_id reuse_name'))
                      (on_exe (set_cluster_buffer_
                                 (λ cb, <[cluster_id reuse_name' := Some p]> cb)) st))).
  { intros Hno. left. split; [done|]. intros rn t p (Hrn & Ht & Hp).
    assert (rn = reuse_name) as -> by congruence. by eapply Hno. }
  destruct var as [v|].
  2:{ exists st. split; [done|]. apply Hskip. intros t p [(v & Hv & _) _]. congruence. }
  destruct reuse_var as [rv|].
  2:{ exists st. split; [done|]. apply Hskip. intros t p [_ (v' & Hv & _)]. congruence. }
  destruct (IsType_DenseTensor v) eqn:Hv.
  2:{ exists st. split; [done|]. apply Hskip. intros t p [(v' & Hv' & Hh) _].
      assert (v' = v) as -> by congruence.
      unfold IsType_DenseTensor in Hv. rewrite Hh in Hv. cbn in Hv.
      by rewrite bool_decide_eq_false in Hv. }
  destruct (IsType_DenseTensor rv) eqn:Hrv.
  2:{ exists st. split; [done|]. apply Hskip. intros t p [_ (v' & Hv' & Hh)].
      assert (v' = rv) as -> by congruence.
      unfold IsType_DenseTensor in Hrv. rewrite Hh in Hrv. cbn in Hrv.
      by rewrite bool_decide_eq_false in Hrv. }
  cbn [andb]. clear Hskip.
  destruct (IsType_DenseTensor_holder v Hv) as [t Ht].
  destruct (IsType_DenseTensor_holder rv Hrv) as [p Hp].
  unfold Get_DenseTensor. rewrite Ht, Hp. cbn [ph_type ph_obj].
  rewrite !decide_True by done.
  do 2 (erewrite bind_Done; [|reflexivity]).
  pose proof (cluster_index_in_range reuse_table name reuse_name Htab) as Hidx.
  unfold store_cluster at 1. erewrite bind_Done; [|by rewrite decide_True by lia].
  eexists. split; [reflexivity|]. right. exists reuse_name, t, p.
  split; [|split; [lia|done]]. split; [done|]. split; by eexists.
Qed.

(** What the two loops of the planner keep true once [cluster_buffer_] is
    resized to [cb0]: the world and the scope are untouched, the slot of
    every recorded cluster id holds the dense tensor of the cluster's target
    variable, and every slot that is set holds the dense tensor of a variable
    or what it held in [cb0]. *)
Definition target_inv (st : State) : Prop :=
  world st = w0 ∧ scope_ (exe st) = Some s0 ∧
  length (cluster_buffer_ (exe st)) = length (cluster_names_of reuse_table) ∧
  (∀ op m t c, reuse_cache_ (exe st) !! op = Some m → m !! t = Some c →
     ∃ reuse_name p,
       reuse_name ∈ cluster_names_of reuse_table ∧ c = cluster_id reuse_name ∧
       dense_at reuse_name p ∧ cluster_buffer_ (exe st) !! c = Some (Some p)) ∧
  ∀ c p, cluster_buffer_ (exe st) !! c = Some (Some p) →
         (∃ reuse_name, dense_at reuse_name p) ∨ cb0 !! c = Some (Some p).

Lemma plan_output_target op name st :
  (∀ x, ∃ r, FindVar fuel w0 s0 x = Done r) → target_inv st →
  ∃ st', plan_output fuel reuse_table (cluster_names_of reuse_table) op name st
         = (Done tt, st') ∧ target_inv st' ∧
    (∀ reuse_name t p, reusable name reuse_name t p →
       ∃ m, reuse_cache_ (exe st') !! op = Some m ∧ is_Some (m !! t)).
Proof.
  intros Hfind (Hw & Hs & Hlen & Hinv & Hslots).
  destruct (plan_output_cases op name st Hfind Hw Hs Hlen)
    as (st' & Hrun & [[-> Hno]|(rn & t & p & Hgood & Hidx & ->)]).
  { exists st. split; [done|]. split; [done|].
    intros rn t p Hgood. by destruct (Hno rn t p). }
  eexists. split; [done|]. unfold target_inv.
  set (e1 := set_cluster_buffer_ (λ cb, <[cluster_id rn := Some p]> cb) (exe st)).
  change (exe (on_exe _ (on_exe _ st))) with (record_reuse op t (cluster_id rn) e1).
  assert (Hcb : cluster_buffer_ (record_reuse op t (cluster_id rn) e1)
                = <[cluster_id rn := Some p]> (cluster_buffer_ (exe st))) by done.
  destruct Hgood as (Htab & Ht & Hp).
  assert (Hrn : rn ∈ cluster_names_of reuse_table).
  { apply (cluster_names_of_spec reuse_table). eauto. }
  split; [split; [done|split; [done|split; [|split]]]|].
  - by rewrite Hcb, length_insert.
  - intros op' m t' c Hm Hc. rewrite Hcb.
    destruct (record_reuse_lookup op t (cluster_id rn) e1 op' m t' c Hm Hc)
      as [(-> & -> & ->)|(m0 & Hm0 & Hc0)].
    + exists rn, p. split; [done|]. split; [done|]. split; [done|].
      by apply list_lookup_insert_eq.
    + destruct (Hinv op' m0 t' c Hm0 Hc0) as (rn0 & p0 & Hrn0 & -> & Hp0 & Hslot).
      exists rn0, p0. split; [done|]. split; [done|]. split; [done|].
      destruct (decide (cluster_id rn0 = cluster_id rn)) as [Heq|Hne].
      * apply find_index_inj in Heq; [|done..]. subst rn0.
        rewrite (dense_at_inj rn p0 p Hp0 Hp). by apply list_lookup_insert_eq.
      * by rewrite list_lookup_insert_ne.
  - intros c p0. rewrite Hcb. destruct (decide (c = cluster_id rn)) as [->|Hne].
    + rewrite list_lookup_insert_eq by done. intros [= <-]. left. by exists rn.
    + rewrite list_lookup_insert_ne by done. apply Hslots.
  - intros rn' t' p' (Htab' & Ht' & _).
    rewrite (dense_at_inj name t' t Ht' Ht).
    unfold record_reuse. cbn. destruct (reuse_cache_ (exe st) !! op) as [m|] eqn:Hop.
    + rewrite lookup_insert_eq. eexists. split; [done|]. unfold emplace.
      destruct (m !! t) eqn:Hmt; [by rewrite Hmt|]. by rewrite lookup_insert_eq.
    + rewrite lookup_insert_eq. eexists. split; [done|]. by rewrite lookup_singleton_eq.
Qed.

End FreshPlan.

(** An entry for the operator [op] and the tensor [t]. *)
Definition has_entry (op t : nat) (st : State) : Prop :=
  ∃ m, reuse_cache_ (exe st) !! op = Some m ∧ is_Some (m !! t).

Lemma has_entry_kept op t st st' : entries_kept st st' → has_entry op t st → has_entry op t st'.
Proof.
  intros Hkept (m & Hm & [c Hc]). destruct (Hkept op m t c Hm Hc) as (m' & Hm' & Hc').
  exists m'. eauto.
Qed.

Lemma MakeReusePlan_planned fuel (reuse_table : gmap string string) st s anc n :
  scope_ (exe st) = Some s → root_path (world st) s anc n → n < fuel →
  (∀ op m t c, reuse_cache_ (exe st) !! op = Some m → m !! t = Some c →
     ∃ reuse_name p,
       reuse_name ∈ cluster_names_of reuse_table ∧
       c = find_index reuse_name (cluster_names_of reuse_table) ∧
       dense_at fuel (world st) s reuse_name p ∧
       resize (length (cluster_names_of reuse_table)) None (cluster_buffer_ (exe st)) !! c
         = Some (Some p)) →
  ∃ st', MakeReusePlan fuel reuse_table st = (Done tt, st') ∧
    target_inv fuel reuse_table (world st) s
      (resize (length (cluster_names_of reuse_table)) None (cluster_buffer_ (exe st))) st' ∧
    ∀ op o name reuse_name t p,
      ops_ (exe st) !! op = Some o → name ∈ OutputVars o →
      reusable fuel reuse_table (world st) s name reuse_name t p → has_entry op t st'.
Proof.
  intros Hs Hpath Hfuel Hold. unfold MakeReusePlan.
  do 2 (erewrite bind_Done; [|reflexivity]).
  set (st1 := on_exe (set_cluster_buffer_
                        (resize (length (cluster_names_of reuse_table)) None)) st).
  change (ops_ (exe st1)) with (ops_ (exe st)).
  assert (Hfind : ∀ x, ∃ r, FindVar fuel (world st) s x = Done r)
    by (intros x; by eapply FindVar_path).
  destruct (foreach_establish (target_inv fuel reuse_table (world st) s (cluster_buffer_ (exe st1)))
              (λ (iop : nat * OperatorBase) st',
                 ∀ name reuse_name t p, name ∈ OutputVars iop.2 →
                   reusable fuel reuse_table (world st) s name reuse_name t p →
                   has_entry iop.1 t st')
              (λ _, True)
              (λ iop : nat * OperatorBase,
                 foreach (OutputVars iop.2)
                   (plan_output fuel reuse_table (cluster_names_of reuse_table) iop.1))
              (imap pair (ops_ (exe st)))) with (s := st1)
    as (st' & Hrun & Hinv & Hall & _).
  - intros [i o] st2 _ Hinv2. cbn [fst snd].
    destruct (foreach_establish (target_inv fuel reuse_table (world st) s (cluster_buffer_ (exe st1)))
                (λ name st', ∀ reuse_name t p,
                   reusable fuel reuse_table (world st) s name reuse_name t p →
                   has_entry i t st')
                (λ _, True)
                (plan_output fuel reuse_table (cluster_names_of reuse_table) i)
                (OutputVars o)) with (s := st2)
      as (st3 & Hrun3 & Hinv3 & Hall3 & Hstab3); [|done|].
    + intros name st3 _ Hinv3.
      destruct (plan_output_target fuel reuse_table (world st) s _ i name st3 Hfind Hinv3)
        as (st4 & Hrun4 & Hinv4 & Hnew).
      exists st4. split; [done|]. split; [done|]. split; [by intros _|].
      intros name' Hq rn t p Hgood. eapply has_entry_kept; [|by eapply Hq].
      by eapply plan_output_kept.
    + exists st3. split; [done|]. split; [done|]. split.
      * intros _ name rn t p Hname Hgood. by eapply Hall3.
      * intros [i' o'] Hq name rn t p Hname Hgood. cbn [fst snd] in *.
        eapply has_entry_kept; [|by eapply Hq].
        eapply (preserves_foreach entries_kept); [|exact Hrun3].
        intros x _. apply plan_output_kept.
  - split; [done|]. split; [done|]. split; [by cbn; rewrite length_resize|].
    split; [exact Hold|]. intros c p Hc. by right.
  - exists st'. split; [done|]. split; [done|].
    intros op o name rn t p Ho Hname Hgood.
    assert (Hin : (op, o) ∈ imap pair (ops_ (exe st))).
    { apply list_elem_of_lookup. exists op. by rewrite list_lookup_imap, Ho. }
    exact (Hall (op, o) Hin I name rn t p Hname Hgood).
Qed.

(** X8: [MakeReusePlan] misses no output it can plan: on an executor whose scope
    has a finite parent chain and that has no plan yet, the call returns, and
    every output of every operator that is a key of the table, found in the
    scope as a dense tensor together with its target, has an entry under its
    operator afterwards. *)
Theorem MakeReusePlan_records_every_reusable_output
    fuel (reuse_table : gmap string string) st s anc n :
  scope_ (exe st) = Some s → root_path (world st) s anc n → n < fuel →
  reuse_cache_ (exe st) = ∅ →
  ∃ st', MakeReusePlan fuel reuse_table st = (Done tt, st') ∧
    ∀ op o name reuse_name v rv t p,
      ops_ (exe st) !! op = Some o → name ∈ OutputVars o →
      reuse_table !! name = Some reuse_name →
      FindVar fuel (world st) s name = Done (Some v) →
      FindVar fuel (world st) s reuse_name = Done (Some rv) →
      var_holder v = Some {| ph_type := DENSE_TENSOR; ph_obj := t |} →
      var_holder rv = Some {| ph_type := DENSE_TENSOR; ph_obj := p |} →
      ∃ m, reuse_cache_ (exe st') !! op = Some m ∧ is_Some (m !! t).
Proof.
  intros Hs Hpath Hfuel Hempty.
  destruct (MakeReusePlan_planned fuel reuse_table st s anc n Hs Hpath Hfuel)
    as (st' & Hrun & _ & Hall).
  { intros op m t c. by rewrite Hempty, lookup_empty. }
  exists st'. split; [done|]. intros op o name rn v rv t p Ho Hname Htab Hv Hrv Ht Hp.
  apply (Hall op o name rn t p Ho Hname). split; [done|]. split; by eexists.
Qed.

(** X9: The canonical buffer of a cluster starts as the tensor of the cluster's
    target variable: after [MakeReusePlan] on an executor whose scope has a
    finite parent chain and that has no plan yet, the cluster id of every
    entry is the position of a target name of the table among the cluster
    names, that target is found in the scope as a dense tensor, and the slot
    of the cluster holds exactly that tensor. *)
Theorem MakeReusePlan_slots_hold_targets
    fuel (reuse_table : gmap string string) st s anc n :
  scope_ (exe st) = Some s → root_path (world st) s anc n → n < fuel →
  reuse_cache_ (exe st) = ∅ →
  ∃ st', MakeReusePlan fuel reuse_table st = (Done tt, st') ∧
    ∀ op m t c, reuse_cache_ (exe st') !! op = Some m → m !! t = Some c →
      ∃ name reuse_name rv p,
        reuse_table !! name = Some reuse_name ∧
        cluster_names_of reuse_table !! c = Some reuse_name ∧
        FindVar fuel (world st) s reuse_name = Done (Some rv) ∧
        var_holder rv = Some {| ph_type := DENSE_TENSOR; ph_obj := p |} ∧
        cluster_buffer_ (exe st') !! c = Some (Some p).
Proof.
  intros Hs Hpath Hfuel Hempty.
  destruct (MakeReusePlan_planned fuel reuse_table st s anc n Hs Hpath Hfuel)
    as (st' & Hrun & (_ & _ & _ & Hinv & _) & _).
  { intros op m t c. by rewrite Hempty, lookup_empty. }
  exists st'. split; [done|]. intros op m t c Hm Hc.
  destruct (Hinv op m t c Hm Hc) as (rn & p & Hrn & -> & (rv & Hrv & Hp) & Hslot).
  pose proof Hrn as [name Hname]%(cluster_names_of_spec reuse_table).
  exists name, rn, rv, p. split; [done|]. split; [by apply find_index_lookup|]. done.
Qed.

(** X10: When no output of any operator is a key of the table (an empty table, an
    executor without operators), [MakeReusePlan] returns without looking at
    the scope, which may even be unset: it resizes [cluster_buffer_] to the
    number of distinct targets and changes nothing else. *)
Theorem MakeReusePlan_without_matching_output fuel (reuse_table : gmap string string) st :
  (∀ o name, o ∈ ops_ (exe st) → name ∈ OutputVars o → reuse_table !! name = None) →
  MakeReusePlan fuel reuse_table st =
    (Done tt,
     on_exe (set_cluster_buffer_
               (resize (size (map_img reuse_table : gset string)) None)) st).
Proof.
  intros Hnone. unfold MakeReusePlan.
  destruct (cluster_names_of_spec reuse_table) as (_ & _ & ->).
  do 2 (erewrite bind_Done; [|reflexivity]).
  apply foreach_noop. intros [i o] Hin. cbn [fst snd].
  apply list_elem_of_lookup in Hin as [j Hj]. rewrite list_lookup_imap in Hj.
  cbn in Hj. destruct (ops_ (exe st) !! j) as [o'|] eqn:Ho; [|done].
  injection Hj as <- <-.
  apply foreach_noop. intros name Hname. unfold plan_output.
  rewrite (Hnone o' name); [done| |done]. by eapply list_elem_of_lookup_2.
Qed.

Lemma chained_state_path : root_path (world chained_state) 0 0 0.
Proof. eapply root_path_here; reflexivity. Defined.

Lemma MakeReusePlan_records_every_reusable_output_witness :
  ∃ st', MakeReusePlan 1 chained_table chained_state = (Done tt, st') ∧
    ∃ m, reuse_cache_ (exe st') !! 2 = Some m ∧ is_Some (m !! 103).
Proof.
  destruct (MakeReusePlan_records_every_reusable_output 1 chained_table chained_state 0 0 0
              eq_refl chained_state_path ltac:(lia) eq_refl) as (st' & Hrun & Hall).
  exists st'. split; [exact Hrun|].
  apply (Hall 2 (producer ["a"]) "a" "b" (dense 103 3) (dense 102 2) 103 102).
  - reflexivity.
  - apply list_elem_of_here.
  - vm_compute. reflexivity.
  - vm_compute. reflexivity.
  - vm_compute. reflexivity.
  - reflexivity.
  - reflexivity.
Defined.

Lemma MakeReusePlan_slots_hold_targets_witness :
  ∃ st', MakeReusePlan 1 skipping_table skipping_state = (Done tt, st') ∧
    ∀ op m t c, reuse_cache_ (exe st') !! op = Some m → m !! t = Some c →
      ∃ name reuse_name rv p,
        skipping_table !! name = Some reuse_name ∧
        cluster_names_of skipping_table !! c = Some reuse_name ∧
        FindVar 1 (world skipping_state) 0 reuse_name = Done (Some rv) ∧
        var_holder rv = Some {| ph_type := DENSE_TENSOR; ph_obj := p |} ∧
        cluster_buffer_ (exe st') !! c = Some (Some p).
Proof.
  exact (MakeReusePlan_slots_hold_targets 1 skipping_table skipping_state 0 0 0 eq_refl
           skipping_state_path ltac:(lia) eq_refl).
Defined.

Lemma MakeReusePlan_without_matching_output_witness :
  MakeReusePlan 0 ∅ chained_planned =
    (Done tt, on_exe (set_cluster_buffer_
                        (resize (size (map_img (∅ : gmap string string) : gset string)) None))
                     chained_planned).
Proof.
  apply (MakeReusePlan_without_matching_output 0 ∅ chained_planned).
  intros o name _ _. apply lookup_empty.
Defined.

(** ** Running with a reuse plan *)

(** Every tensor of [w] is still there in [w']. *)
Definition tensors_kept (w w' : World) : Prop :=
  ∀ q, is_Some (tensors w !! q) → is_Some (tensors w' !! q).

Lemma update_cluster_live st t c :
  recorded (reuse_cache_ (exe st)) c t → plan_live st →
  ∃ st', update_cluster (t, c) st = (Done tt, st') ∧
         plan_live st' ∧ same_plan (exe st) (exe st').
Proof.
  intros Hrec [Hlive Hbuf].
  destruct (Hlive c t Hrec) as [[T HT] [p Hp]]. destruct (Hbuf c p Hp) as [P HP].
  destruct (update_cluster_entry st t c T p P HT Hp HP) as (st' & Hrun & Hcase & _).
  { intros q Hq. by apply (Hlive c q). }
  exists st'. split; [done|].
  case_decide as Hlt; [|by subst st'].
  destruct Hcase as (Hcb & Hplan & _ & _ & Hdims). split; [|done].
  pose proof (sp_cache _ _ Hplan) as Hrc. unfold plan_live. rewrite Hrc.
  pose proof (lookup_lt_Some _ _ _ Hp) as Hrange.
  assert (Hdom : ∀ q, is_Some (tensors (world st) !! q) → is_Some (tensors (world st') !! q)).
  { intros q. apply (is_Some_fmap_eq dims). apply Hdims. }
  split.
  - intros c0 q Hq. destruct (Hlive c0 q Hq) as [Hq1 [p0 Hp0]]. split; [by apply Hdom|].
    rewrite Hcb. destruct (decide (c0 = c)) as [->|Hne].
    + exists t. by apply list_lookup_insert_eq.
    + exists p0. by rewrite list_lookup_insert_ne.
  - intros c0 p0 Hc0. rewrite Hcb in Hc0. apply Hdom.
    destruct (decide (c0 = c)) as [->|Hne].
    + rewrite list_lookup_insert_eq in Hc0 by done. injection Hc0 as <-. by eexists.
    + rewrite list_lookup_insert_ne in Hc0 by done. by eapply Hbuf.
Qed.

(** Decomposes a [returns] goal along the structure of the computation. *)
Ltac returns_along :=
  lazymatch goal with
  | |- returns _ (mret _) => apply returns_ret
  | |- returns _ (gets _) => apply returns_gets
  | |- returns _ (_ ≫= _) => apply returns_bind
  | |- returns _ (foreach _ _) => apply returns_foreach
  | |- returns _ (with_op _ _) => apply returns_with_op
  | |- returns _ (set_op _ _) => by apply returns_modify
  | |- returns _ (if decide _ then _ else _) => case_decide
  | |- ∀ _, _ => intro
  end.

Section RunWithPlan.
Variable hook_call : HookFunc → nat → option nat → M Env unit.
Variable op_run : nat → nat → nat → M Env unit.
Variable s : nat.

(** The executor has the scope [s] and a plan whose tensors all exist. *)
Definition ready (st : State) : Prop := scope_ (exe st) = Some s ∧ plan_live st.

Lemma update_shared_holder_ready op : returns ready (update_shared_holder op).
Proof.
  intros st [Hs Hlive]. unfold update_shared_holder. erewrite bind_Done; [|reflexivity].
  destruct (reuse_cache_ (exe st) !! op) as [entries|] eqn:Hop; [|by exists tt, st].
  destruct (foreach_invariant
              (λ st', ready st' ∧ reuse_cache_ (exe st') = reuse_cache_ (exe st))
              update_cluster (map_to_list entries)) with (s := st)
    as (st' & Hrun & Hready & _); [|done|by exists tt, st'].
  intros [t c] st1 Hin ([Hs1 Hlive1] & Hrc). apply elem_of_map_to_list in Hin.
  destruct (update_cluster_live st1 t c) as (st2 & Hrun & Hlive2 & Hplan);
    [rewrite Hrc; by exists op, entries|done|].
  exists st2. split; [done|]. split; [split; [|done]|].
  - by rewrite (sp_scope _ _ Hplan).
  - by rewrite (sp_cache _ _ Hplan).
Qed.

Lemma hand_over_ready op (callee : M Env unit) :
  (∀ env, ∃ env', callee env = (Done tt, env') ∧
                  tensors_kept (env_world env) (env_world env')) →
  returns ready (hand_over op callee).
Proof.
  intros Hm st [Hs [Hlive Hbuf]]. unfold hand_over.
  destruct (ops_ (exe st) !! op) as [o|]; [|by exists tt, st].
  destruct (Hm {| env_op := o; env_world := world st; env_trace := trace st |})
    as (env' & -> & Hkept). cbn in Hkept.
  eexists tt, _. split; [done|]. split; [done|]. split.
  - intros c q Hq. destruct (Hlive c q Hq) as [Hq1 Hp]. split; [by apply Hkept|done].
  - intros c p Hp. by apply Hkept, (Hbuf c).
Qed.

Hypothesis hook_call_returns :
  ∀ h op sc env, ∃ env', hook_call h op sc env = (Done tt, env') ∧
                         tensors_kept (env_world env) (env_world env').
Hypothesis op_run_returns :
  ∀ op sc p env, ∃ env', op_run op sc p env = (Done tt, env') ∧
                         tensors_kept (env_world env) (env_world env').

Lemma gets_exe_ready {A} (f : NaiveExecutor → M State A) :
  (∀ e, scope_ e = Some s → returns ready (f e)) → returns ready (gets exe ≫= f).
Proof. intros Hf st Hst. apply (Hf (exe st)); [by destruct Hst|done]. Qed.

Lemma run_op_ready i : returns ready (run_op hook_call op_run i).
Proof.
  unfold run_op.
  apply returns_bind; [by apply returns_modify|intros _].
  apply gets_exe_ready. intros e He. rewrite He. cbv beta iota.
  repeat first
    [ apply update_shared_holder_ready
    | apply hand_over_ready; first [apply hook_call_returns | apply op_run_returns]
    | returns_along ].
Qed.

Lemma Run_ready st :
  scope_ (exe st) = Some s → plan_live st →
  ∃ st', Run hook_call op_run st = (Done tt, st') ∧ plan_live st'.
Proof.
  intros Hs Hlive. unfold Run. erewrite bind_Done; [|reflexivity].
  destruct (returns_foreach ready (seq 0 (length (ops_ (exe st))))
              (run_op hook_call op_run) run_op_ready st) as ([] & st' & Hrun & _ & Hlive');
    [done|]. eauto.
Qed.

End RunWithPlan.

(** X11: With a reuse plan whose tensors all exist, [Run] returns normally when
    the hooks and the operators return and delete no tensor; the plan's
    tensors all exist afterwards, so the executor can be run again. *)
Theorem Run_returns_with_plan hook_call op_run s st :
  (∀ h op sc env, ∃ env', hook_call h op sc env = (Done tt, env') ∧
                          tensors_kept (env_world env) (env_world env')) →
  (∀ op sc p env, ∃ env', op_run op sc p env = (Done tt, env') ∧
                          tensors_kept (env_world env) (env_world env')) →
  scope_ (exe st) = Some s → plan_live st →
  ∃ st', Run hook_call op_run st = (Done tt, st') ∧ plan_live st' ∧
    ∃ st'', Run hook_call op_run st' = (Done tt, st'').
Proof.
  intros Hhook Hop Hs Hlive.
  destruct (Run_ready hook_call op_run s Hhook Hop st Hs Hlive) as (st' & Hrun & Hlive').
  exists st'. split; [done|]. split; [done|].
  destruct (Run_ready hook_call op_run s Hhook Hop st') as (st'' & Hrun' & _); [|done|eauto].
  pose proof (Run_plan_shape hook_call op_run st) as Hshape.
  rewrite Hrun in Hshape. cbn in Hshape. unfold plan_shape in Hshape.
  injection Hshape as _ Hscope _ _ _ _ _ _. congruence.
Qed.

Lemma lookup_resize_Some {A} n (l : list (option A)) c p :
  resize n None l !! c = Some (Some p) → l !! c = Some (Some p).
Proof.
  intros H. destruct (decide (c < n)) as [Hn|Hn].
  - destruct (decide (c < length l)) as [Hl|Hl].
    + by rewrite lookup_resize in H.
    + rewrite lookup_resize_new in H by lia. done.
  - apply lookup_lt_Some in H. rewrite length_resize in H. lia.
Qed.

(** X12: Planning and then running: on an executor without a plan whose scope has
    a finite parent chain, in a world where the tensor of every dense
    variable (and of every slot that is already set) exists,
    [MakeReusePlan] returns with a plan whose tensors all exist, and [Run]
    then returns normally whenever the hooks and the operators return and
    delete no tensor. *)
Theorem MakeReusePlan_then_Run_returns
    hook_call op_run fuel (reuse_table : gmap string string) st s anc n :
  scope_ (exe st) = Some s → root_path (world st) s anc n → n < fuel →
  reuse_cache_ (exe st) = ∅ →
  (∀ c p, cluster_buffer_ (exe st) !! c = Some (Some p) →
          is_Some (tensors (world st) !! p)) →
  (∀ name v p, FindVar fuel (world st) s name = Done (Some v) →
               var_holder v = Some {| ph_type := DENSE_TENSOR; ph_obj := p |} →
               is_Some (tensors (world st) !! p)) →
  (∀ h op sc env, ∃ env', hook_call h op sc env = (Done tt, env') ∧
                          tensors_kept (env_world env) (env_world env')) →
  (∀ op sc p env, ∃ env', op_run op sc p env = (Done tt, env') ∧
                          tensors_kept (env_world env) (env_world env')) →
  ∃ st1 st2,
    MakeReusePlan fuel reuse_table st = (Done tt, st1) ∧ plan_live st1 ∧
    Run hook_call op_run st1 = (Done tt, st2).
Proof.
  intros Hs Hpath Hfuel Hempty Hslots Hwf Hhook Hop.
  destruct (MakeReusePlan_planned fuel reuse_table st s anc n Hs Hpath Hfuel)
    as (st1 & Hrun & (Hw & Hs1 & _ & Hinv & Hset) & _).
  { intros op m t c. by rewrite Hempty, lookup_empty. }
  destruct (MakeReusePlan_spec fuel reuse_table st s anc n Hs Hpath Hfuel)
    as (st1' & Hrun' & (_ & _ & _ & _ & Hsound) & _).
  rewrite Hrun in Hrun'. injection Hrun' as <-.
  assert (Hlive : plan_live st1).
  { split.
    - intros c q (op & m & Hm & Hq). split.
      + destruct (Hsound op m q c Hm Hq) as [(m0 & Hm0 & _)|Hplanned].
        { by rewrite Hempty, lookup_empty in Hm0. }
        destruct Hplanned as (o & name & rn & v & rv & _ & _ & _ & Hv & _ & Hh & _).
        rewrite Hw. by eapply Hwf.
      + destruct (Hinv op m q c Hm Hq) as (rn & p & _ & _ & _ & Hp). eauto.
    - intros c p Hc. rewrite Hw. destruct (Hset c p Hc) as [(rn & v & Hv & Hh)|Hold].
      + by eapply Hwf.
      + apply lookup_resize_Some in Hold. by eapply Hslots. }
  destruct (Run_ready hook_call op_run s Hhook Hop st1 Hs1 Hlive)
    as (st2 & Hrun2 & _).
  by exists st1, st2.
Qed.

Lemma chained_state_dense name v p :
  FindVar 1 (world chained_state) 0 name = Done (Some v) →
  var_holder v = Some {| ph_type := DENSE_TENSOR; ph_obj := p |} →
  is_Some (tensors (world chained_state) !! p).
Proof.
  rewrite (FindVar_root 0 (world chained_state) 0
             {| parent_ := None;
                vars_ := {[ "x" := dense 101 1; "b" := dense 102 2;
                            "a" := dense 103 3; "c" := dense 104 4 ]} |} name
             eq_refl eq_refl).
  change (lookup_var (world chained_state) 0 name)
    with (({[ "x" := dense 101 1; "b" := dense 102 2;
              "a" := dense 103 3; "c" := dense 104 4 ]} : gmap string Variable_) !! name).
  intros [= Hv].
  repeat (apply lookup_insert_Some in Hv as [[_ <-]|[_ Hv]];
          [intros [= <-]; by eexists|]).
  apply lookup_singleton_Some in Hv as [_ <-]. intros [= <-]. by eexists.
Defined.

Lemma MakeReusePlan_then_Run_returns_witness :
  ∃ st1 st2,
    MakeReusePlan 1 chained_table chained_state = (Done tt, st1) ∧ plan_live st1 ∧
    Run idle_hook idle_op st1 = (Done tt, st2).
Proof.
  apply (MakeReusePlan_then_Run_returns idle_hook idle_op 1 chained_table chained_state
           0 0 0 eq_refl chained_state_path ltac:(lia) eq_refl).
  - intros c p Hc. destruct c; discriminate Hc.
  - exact chained_state_dense.
  - intros h o sc w. exists w. split; [reflexivity|]. by intros q.
  - intros o sc p w. exists w. split; [reflexivity|]. by intros q.
Defined.

Lemma Run_returns_with_plan_witness :
  ∃ st', Run idle_hook idle_op growing_state = (Done tt, st') ∧ plan_live st'.
Proof.
  destruct (Run_returns_with_plan idle_hook idle_op 0 growing_state)
    as (st' & Hrun & Hlive & _).
  - intros h o sc w. exists w. split; [reflexivity|]. by intros q.
  - intros o sc p w. exists w. split; [reflexivity|]. by intros q.
  - reflexivity.
  - exact (proj2 growing_state_unchained).
  - exists st'. split; [exact Hrun|exact Hlive].
Defined.

(** ** More on creating variables *)

Section CreateVariablesFrame.
Variable kEmptyVarName : string.

(** The block declares a variable [name] that a call with the flag
    [persistable] creates. *)
Definition declares (b : BlockDesc) (persistable : bool) (name : string) : Prop :=
  ∃ var, var ∈ AllVars b ∧ vd_name var = name ∧ name ≠ kEmptyVarName ∧
         vd_persistable var = persistable.

(** X13: A call whose flag matches no declared variable creates nothing: when every
    variable of the block has the empty name or the other persistence, the
    call returns and leaves the world as it is. *)
Theorem CreateVariables_other_flag_creates_nothing
    fuel desc block_id b persistable s anc n w :
  desc !! block_id = Some b → root_path w s anc n → n < fuel →
  (∀ name, ¬ declares b persistable name) →
  CreateVariables kEmptyVarName fuel desc block_id persistable (Some s) w = (Done tt, w).
Proof.
  intros Hb Hpath Hfuel Hnone.
  destruct (root_path_start w s anc n Hpath) as (sc & Hs & Hself).
  rewrite (CreateVariables_enter kEmptyVarName fuel desc block_id b persistable s sc anc n w)
    by done.
  apply foreach_noop. intros var Hvar. unfold create_variable.
  case_decide as Hname; [done|]. case_decide as Hpers; [|done].
  destruct (Hnone (vd_name var)). by exists var.
Qed.

(** What the loop of [CreateVariables] keeps true from the world [w0] it
    started in, writing to the scope [target]. *)
Definition frame_inv (b : BlockDesc) (persistable : bool) (target anc : nat)
    (w0 w : World) : Prop :=
  is_Some (scopes w !! target) ∧ is_root w anc ∧ same_parents w0 w ∧
  next_addr w0 ≤ next_addr w ∧
  (∀ p, p < next_addr w0 → tensors w !! p = tensors w0 !! p) ∧
  (∀ s' name', ¬ (s' = target ∧ declares b persistable name') →
               lookup_var w s' name' = lookup_var w0 s' name').

Lemma create_variable_frame fuel b persistable s anc w0 var w :
  var ∈ AllVars b →
  frame_inv b persistable (if persistable then anc else s) anc w0 w →
  ∃ w', create_variable kEmptyVarName (S fuel) persistable s anc var w = (Done tt, w') ∧
        frame_inv b persistable (if persistable then anc else s) anc w0 w'.
Proof.
  intros Hvar Hinv. pose proof Hinv as ([sc Hsc] & Hroot & Hpar & Haddr & Hts & Hframe).
  unfold create_variable.
  case_decide as Hname; [by exists w|]. case_decide as Hpers; [|by exists w].
  assert (Hstep : ∃ w',
            (ptr ← Scope_Var (if persistable then anc else s) (vd_name var);
             InitializeVariable ptr (vd_type var)) w = (Done tt, w') ∧
            frame_inv b persistable (if persistable then anc else s) anc w0 w').
  { destruct (create_and_initialize (if persistable then anc else s)
                (vd_name var) (vd_type var) w sc Hsc)
      as (w' & v & Hrun & _ & _ & _ & Hframe' & Hpar' & Hmono & Hts').
    exists w'. split; [done|]. split; [|split; [|split; [|split; [|split]]]].
    - destruct (same_parents_scope w w' _ sc Hpar' Hsc) as (sc' & -> & _). eauto.
    - destruct Hroot as (rc & Hrc & Hnone).
      destruct (same_parents_scope w w' anc rc Hpar' Hrc) as (rc' & Hrc' & Hp').
      exists rc'. split; [done|]. congruence.
    - intros x. by rewrite Hpar', Hpar.
    - lia.
    - intros p Hp. rewrite Hts' by lia. by apply Hts.
    - intros s' name' Hnot. rewrite Hframe'; [by apply Hframe|].
      intros [= -> ->]. apply Hnot. split; [done|]. by exists var. }
  destruct persistable; [|exact Hstep].
  erewrite bind_Done; [|reflexivity].
  destruct Hroot as (rc & Hrc & Hnone).
  rewrite (FindVar_root fuel w anc rc _ Hrc Hnone).
  erewrite bind_Done; [|reflexivity].
  destruct (lookup_var w anc (vd_name var)); [by exists w|]. exact Hstep.
Qed.

(** X14: [CreateVariables] writes nowhere else: the call returns, and apart from
    the variables it is asked to create (the declared ones of the given
    persistence, in the root scope when persistent and in the given scope
    otherwise) every variable of every scope is what it was, every tensor
    that existed keeps its contents, and the parent links are the same. *)
Theorem CreateVariables_frame fuel desc block_id b persistable s anc n w :
  desc !! block_id = Some b → root_path w s anc n → n < fuel →
  ∃ w1,
    CreateVariables kEmptyVarName fuel desc block_id persistable (Some s) w = (Done tt, w1) ∧
    (∀ s' name',
       ¬ (s' = (if persistable then anc else s) ∧ declares b persistable name') →
       lookup_var w1 s' name' = lookup_var w s' name') ∧
    (∀ p, p < next_addr w → tensors w1 !! p = tensors w !! p) ∧
    same_parents w w1.
Proof.
  intros Hb Hpath Hfuel. destruct (root_path_start w s anc n Hpath) as (sc & Hs & Hself).
  rewrite (CreateVariables_enter kEmptyVarName fuel desc block_id b persistable s sc anc n w)
    by done.
  destruct fuel as [|fuel]; [lia|].
  destruct (foreach_invariant
              (frame_inv b persistable (if persistable then anc else s) anc w)
              (create_variable kEmptyVarName (S fuel) persistable s anc) (AllVars b))
    with (s := w) as (w1 & Hrun & (_ & _ & Hpar & _ & Hts & Hframe)).
  - intros var w' Hvar Hinv. by apply create_variable_frame.
  - split; [|split; [by eapply root_path_root|]].
    + destruct persistable; [|by eexists].
      destruct (root_path_root w s anc n Hpath) as (rc & -> & _). eauto.
    + split; [done|]. split; [done|]. split; done.
  - by exists w1.
Qed.

(** The variable [name] of the scope [s] holds a dense tensor. *)
Definition holds_dense (s : nat) (name : string) (w : World) : Prop :=
  ∃ v ph, lookup_var w s name = Some v ∧ var_holder v = Some ph ∧
          ph_type ph = DENSE_TENSOR.

Lemma create_variable_holds_dense fuel b s anc name w0 w var :
  var ∈ AllVars b →
  (∀ var', var' ∈ AllVars b → vd_name var' = name → vd_persistable var' = false →
           vd_type var' = DENSE_TENSOR) →
  local_inv w0 s w →
  ∃ w', create_variable kEmptyVarName fuel false s anc var w = (Done tt, w') ∧
    local_inv w0 s w' ∧
    (vd_name var = name ∧ name ≠ kEmptyVarName ∧ vd_persistable var = false →
       holds_dense s name w') ∧
    (holds_dense s name w → holds_dense s name w').
Proof.
  intros Hvar Hty Hinv.
  destruct (create_local_step kEmptyVarName fuel w0 s anc var w Hinv)
    as (w' & Hrun & Hinv' & _ & _).
  exists w'. split; [done|]. split; [done|].
  revert Hrun. unfold create_variable.
  case_decide as Hname; [intros [= <-]; split; [intros (<- & ? & _)|]; done|].
  case_decide as Hpers; [|intros [= <-]; split; [intros (_ & _ & ?)|]; congruence].
  destruct Hinv as ([sc Hsc] & _).
  destruct (create_and_initialize s (vd_name var) (vd_type var) w sc Hsc)
    as (w2 & v & Hrun & Hlook & _ & (p & Hhold & _) & Hframe & _).
  rewrite Hrun. intros [= <-].
  destruct (decide (vd_name var = name)) as [Heq|Hne].
  - assert (holds_dense s name w2); [|done].
    subst name. exists v, {| ph_type := vd_type var; ph_obj := p |}.
    split; [done|]. split; [done|]. cbn. by apply Hty.
  - split; [by intros [? _]|]. intros (v' & ph & Hv' & Hph & Hd).
    exists v', ph. rewrite Hframe by congruence. done.
Qed.

End CreateVariablesFrame.

(** X15: Creating and then finding: after [CreateVariables] with
    [persistable = false] on the executor's scope, [FindTensor] on the name of
    a declared non-persistent variable of dense-tensor kind returns, without
    changing anything, a tensor that this call has allocated and that is
    empty. *)
Theorem CreateVariables_then_FindTensor
    kEmptyVarName fuel desc block_id b s anc n st var :
  desc !! block_id = Some b → root_path (world st) s anc n → n < fuel →
  scope_ (exe st) = Some s →
  var ∈ AllVars b → vd_name var ≠ kEmptyVarName → vd_persistable var = false →
  (∀ var', var' ∈ AllVars b → vd_name var' = vd_name var → vd_persistable var' = false →
           vd_type var' = DENSE_TENSOR) →
  ∃ w1 p,
    CreateVariables kEmptyVarName fuel desc block_id false (Some s) (world st)
      = (Done tt, w1) ∧
    FindTensor fuel (vd_name var) (on_world (λ _, w1) st)
      = (Done p, on_world (λ _, w1) st) ∧
    next_addr (world st) ≤ p ∧ tensors w1 !! p = Some empty_tensor.
Proof.
  intros Hb Hpath Hfuel Hscope Hvar Hname Hpers Hty.
  destruct (CreateVariables_local kEmptyVarName fuel desc block_id b s anc n (world st))
    as (w1 & Hrun & _ & Hfresh); [done..|].
  destruct (Hfresh var Hvar Hname Hpers) as (v & ph & Hv & Hph & Hrange & Hempty).
  assert (Hdense : holds_dense s (vd_name var) w1).
  { destruct (root_path_start _ s anc n Hpath) as (sc & Hs & Hself).
    rewrite (CreateVariables_enter kEmptyVarName fuel desc block_id b false s sc anc n)
      in Hrun by done.
    destruct (foreach_establish (local_inv (world st) s)
                (λ (_ : VarDesc) w, holds_dense s (vd_name var) w)
                (λ var', vd_name var' = vd_name var ∧ vd_name var ≠ kEmptyVarName ∧
                         vd_persistable var' = false)
                (create_variable kEmptyVarName fuel false s anc) (AllVars b))
      with (s := world st) as (w1' & Hrun' & _ & Hall & _).
    - intros var' w' Hvar' Hinv.
      destruct (create_variable_holds_dense kEmptyVarName fuel b s anc (vd_name var)
                  (world st) w' var' Hvar' Hty Hinv) as (w2 & H2 & Hinv2 & Hnew & Hkeep).
      exists w2. split; [done|]. split; [done|]. split; [done|]. by intros _.
    - split; [by eexists|]. split; [done|]. split; [done|]. eauto.
    - rewrite Hrun in Hrun'. injection Hrun' as <-. by apply (Hall var). }
  destruct Hdense as (v' & ph' & Hv' & Hph' & Htype).
  assert (v' = v) as -> by congruence. assert (ph' = ph) as -> by congruence.
  exists w1, (ph_obj ph). split; [done|]. split; [|split; [lia|by apply Hempty]].
  unfold FindTensor. erewrite bind_Done; [|reflexivity]. cbn [exe on_world]. rewrite Hscope.
  do 2 (erewrite bind_Done; [|reflexivity]). cbn [world on_world].
  assert (Hfind : FindVar fuel w1 s (vd_name var) = Done (Some v)).
  { destruct fuel as [|fuel]; [lia|]. cbn. unfold lookup_var in Hv.
    destruct (scopes w1 !! s) as [sc1|]; [|done]. cbn in Hv. by rewrite Hv. }
  rewrite Hfind. do 2 (erewrite bind_Done; [|reflexivity]).
  unfold lift, Get_DenseTensor. rewrite Hph. by rewrite decide_True.
Qed.

Lemma CreateVariables_other_flag_creates_nothing_witness :
  CreateVariables "@EMPTY@" 2 [persistent_block] 0 false (Some 1) two_scope_world
  = (Done tt, two_scope_world).
Proof.
  apply (CreateVariables_other_flag_creates_nothing "@EMPTY@" 2 [persistent_block] 0
           persistent_block false 1 0 1 two_scope_world eq_refl two_scope_world_path
           ltac:(lia)).
  intros name (var & Hin & Hname & Hne & Hpers).
  apply elem_of_cons in Hin as [->|Hin]; [discriminate|].
  apply elem_of_cons in Hin as [->|Hin]; [by subst name|].
  by apply elem_of_nil in Hin.
Defined.

Lemma CreateVariables_frame_witness :
  ∃ w1,
    CreateVariables "@EMPTY@" 2 [var_block] 0 false (Some 1) two_scope_world = (Done tt, w1) ∧
    lookup_var w1 0 "w0" = lookup_var two_scope_world 0 "w0" ∧
    tensors w1 !! 11 = Some weights.
Proof.
  destruct (CreateVariables_frame "@EMPTY@" 2 [var_block] 0 var_block false
              1 0 1 two_scope_world eq_refl two_scope_world_path ltac:(lia))
    as (w1 & Hrun & Hvars & Hts & _).
  exists w1. split; [exact Hrun|]. split.
  - apply Hvars. intros [Heq _]. discriminate Heq.
  - rewrite Hts; [reflexivity|]. cbn. lia.
Defined.

Lemma CreateVariables_then_FindTensor_witness :
  ∃ w1 p,
    CreateVariables "@EMPTY@" 2 [var_block] 0 false (Some 1) two_scope_world = (Done tt, w1) ∧
    FindTensor 2 "x" (on_world (λ _, w1) child_scope_state)
      = (Done p, on_world (λ _, w1) child_scope_state) ∧
    tensors w1 !! p = Some empty_tensor.
Proof.
  destruct (CreateVariables_then_FindTensor "@EMPTY@" 2 [var_block] 0 var_block 1 0 1
              child_scope_state
              {| vd_name := "x"; vd_persistable := false; vd_type := DENSE_TENSOR |}
              eq_refl two_scope_world_path ltac:(lia) eq_refl)
    as (w1 & p & Hrun & Hfind & _ & Hempty).
  - do 2 apply list_elem_of_further. apply list_elem_of_here.
  - discriminate.
  - reflexivity.
  - intros var' Hin _ _.
    repeat (apply elem_of_cons in Hin as [->|Hin]; [reflexivity|]).
    by apply elem_of_nil in Hin.
  - exists w1, p. split; [exact Hrun|]. split; [exact Hfind|exact Hempty].
Defined.

(** * Further properties of the patch parser *)

Module PatchBuilderFacts.
Import PatchUtil.

(** ** Reading and writing fields of a JSON object *)

Lemma assoc_jset_fields_eq key v fields : assoc key (jset_fields key v fields) = Some v.
Proof.
  induction fields as [|kv rest IH]; cbn; [by rewrite decide_True|].
  case_decide as Hk; cbn; [by rewrite decide_True|]. by rewrite decide_False.
Qed.

Lemma assoc_jset_fields_ne key key' v fields :
  key ≠ key' → assoc key (jset_fields key' v fields) = assoc key fields.
Proof.
  intros Hne. induction fields as [|kv rest IH]; cbn; [by rewrite decide_False|].
  case_decide as Hk; cbn.
  - rewrite decide_False by done. by rewrite decide_False by congruence.
  - case_decide; [done|apply IH].
Qed.

Lemma jget_jset_eq key v obj : jget key (jset key v obj) = v.
Proof.
  destruct obj; cbn; rewrite ?decide_True by done; try done.
  by rewrite assoc_jset_fields_eq.
Qed.

Lemma jget_jset_ne key key' v obj : key ≠ key' → jget key (jset key' v obj) = jget key obj.
Proof.
  intros Hne. destruct obj; cbn; rewrite ?decide_False by done; try done.
  by rewrite assoc_jset_fields_ne.
Qed.

Lemma bind_outcome_Done {A B} (m : outcome A) (f : A → outcome B) b :
  m ≫= f = Done b → ∃ a, m = Done a ∧ f a = Done b.
Proof. destruct m as [a|e]; [eauto|done]. Qed.

(** ** The attribute builder *)

(** The type names for which [GetAttrJson] builds an attribute. *)
Definition builtin_attribute_names : list string :=
  ["pir::BoolAttribute"; "pir::FloatAttribute"; "pir::DoubleAttribute";
   "pir::Int32Attribute"; "pir::Int64Attribute"; "pir::IndexAttribute";
   "pir::ArrayAttribute"; "pir::TypeAttribute"; "pir::TensorNameAttribute";
   "pir::Complex64Attribute"; "pir::Complex128Attribute"; "pir::StrAttribute"].

(** The type names [BuildTypeJsonPatch] knows. *)
Definition builtin_type_names : list (string * BuiltinType) :=
  [("pir::BoolType", BoolType); ("pir::BFloat16Type", BFloat16Type);
   ("pir::Float16Type", Float16Type); ("pir::Float32Type", Float32Type);
   ("pir::Float64Type", Float64Type); ("pir::Int8Type", Int8Type);
   ("pir::UInt8Type", UInt8Type); ("pir::Int16Type", Int16Type);
   ("pir::Int32Type", Int32Type); ("pir::Int64Type", Int64Type);
   ("pir::IndexType", IndexType); ("pir::Complex64Type", Complex64Type);
   ("pir::Complex128Type", Complex128Type); ("pir::VectorType", VectorType);
   ("pir::DenseTensorType", DenseTensorType)].

Definition unknown_attr (at_name : string) : outcome Json :=
  Raise (InvalidArgument ("Unknown Attr " +:+ at_name +:+ " in the OpPatches.")).

Section BuilderFacts.
Variable key_index : string → option nat.
Variables ID DATA : string.
Variables builtin_dialect_id operator_dialect_id : string.
Variable attribute_name : Attribute → string.
Variable builtin_type_name : BuiltinType → string.
Variables as_bool as_float as_double as_int32_t as_int64_t : option Yaml → outcome Json.
Variables as_int as_int_vector as_int_matrix : option Yaml → outcome Json.

Local Abbreviation GetAttrJson_with' :=
  (GetAttrJson_with key_index ID DATA builtin_dialect_id operator_dialect_id attribute_name
                    as_bool as_float as_double as_int32_t as_int64_t).
Local Abbreviation BuildAttrJsonPatch' :=
  (BuildAttrJsonPatch key_index ID DATA builtin_dialect_id operator_dialect_id
                      attribute_name as_bool as_float as_double as_int32_t as_int64_t).
Local Abbreviation GetAttrJson' :=
  (GetAttrJson key_index ID DATA builtin_dialect_id operator_dialect_id attribute_name
               as_bool as_float as_double as_int32_t as_int64_t).
Local Abbreviation GetTypeJson' :=
  (GetTypeJson key_index ID DATA builtin_dialect_id operator_dialect_id attribute_name
               as_bool as_float as_double as_int32_t as_int64_t).
Local Abbreviation BuildTypeJsonPatch' :=
  (BuildTypeJsonPatch key_index ID DATA builtin_dialect_id builtin_type_name
                      as_int as_int_vector as_int_matrix).

Lemma GetAttrJson_with_unknown build action at_name :
  as_string (yget "type" action) = Done at_name →
  at_name ∉ builtin_attribute_names →
  GetAttrJson_with' build action = unknown_attr at_name.
Proof.
  intros Hty Hnot. unfold GetAttrJson_with. rewrite Hty. cbn.
  repeat (case_decide as Heq;
          [exfalso; apply Hnot; rewrite Heq; unfold builtin_attribute_names; set_solver|];
          clear Heq).
  done.
Qed.

Lemma BuildAttrJsonPatch_defined fuel action :
  is_Some (yget "type" action) → is_Some (yget "default" action) →
  BuildAttrJsonPatch' (S fuel) action =
    GetAttrJson_with' (on_defined (BuildAttrJsonPatch' fuel)) action.
Proof.
  intros Hty Hdef. cbn [BuildAttrJsonPatch]. unfold is_defined.
  destruct action as [s|items|fields]; [by destruct Hty..|].
  cbn [mbind outcome_bind]. by rewrite !bool_decide_eq_true_2.
Qed.

Lemma BuildAttrJsonPatch_undefined fuel fields :
  assoc "type" fields = None ∨ assoc "default" fields = None →
  BuildAttrJsonPatch' (S fuel) (YMap fields) = Done JNull.
Proof.
  intros Hno. cbn [BuildAttrJsonPatch is_defined yget mbind outcome_bind].
  destruct (assoc "type" fields) as [ty|] eqn:Hty.
  - rewrite bool_decide_eq_true_2 by done. cbn.
    destruct Hno as [Hno|Hno]; [done|]. rewrite Hno.
    by rewrite bool_decide_eq_false_2 by (by intros []).
  - by rewrite bool_decide_eq_false_2 by (by intros []).
Qed.

(** X16: [GetAttrJson] raises the invalid-argument error "Unknown Attr ..." for
    every type name other than the twelve builtin attribute names, the four
    names of the operator dialect that it compares with included; so do
    [GetTypeJson], which only calls it, and [BuildAttrJsonPatch] on an action
    that has a default. *)
Theorem GetAttrJson_unknown_attr fuel action at_name :
  as_string (yget "type" action) = Done at_name →
  at_name ∉ builtin_attribute_names →
  GetAttrJson' fuel action = unknown_attr at_name ∧
  GetTypeJson' fuel action = unknown_attr at_name ∧
  (is_Some (yget "default" action) →
   BuildAttrJsonPatch' (S fuel) action = unknown_attr at_name).
Proof.
  intros Hty Hnot. split; [by apply GetAttrJson_with_unknown|].
  split; [by apply GetAttrJson_with_unknown|]. intros Hdef.
  rewrite (BuildAttrJsonPatch_defined _ action); [by apply GetAttrJson_with_unknown| |done].
  unfold as_string in Hty. by destruct (yget "type" action).
Qed.

(** X17: [GetTypeJson] builds no type: on a node whose type is one of the names
    that [BuildTypeJsonPatch] knows it raises the "Unknown Attr" error,
    because it hands the node to the attribute builder. *)
Theorem GetTypeJson_rejects_type_names fuel action type_name T :
  as_string (yget "type" action) = Done type_name →
  assoc type_name builtin_type_names = Some T →
  GetTypeJson' fuel action = unknown_attr type_name.
Proof.
  intros Hty Hknown. apply GetAttrJson_with_unknown; [done|].
  intros Hin. revert Hknown. unfold builtin_attribute_names in Hin.
  repeat (apply elem_of_cons in Hin as [->|Hin]; [by vm_compute|]).
  by apply elem_of_nil in Hin.
Qed.

Lemma push_back_each_spec {A} (build : A → outcome Json) items id l0 :
  ID ≠ DATA →
  push_back_each DATA build items (JObj [(ID, id); (DATA, JArr l0)]) =
  (l ← mapM build items; mret (JObj [(ID, id); (DATA, JArr (l0 ++ l))])).
Proof.
  intros Hne. revert l0. induction items as [|x items IH]; intros l0; cbn.
  - by rewrite app_nil_r.
  - destruct (build x) as [j|e]; cbn; [|done].
    rewrite decide_False by done. rewrite decide_True by done. cbn.
    rewrite decide_False by done. rewrite decide_True by done. cbn.
    rewrite IH. destruct (mapM build items) as [l|e]; cbn; [|done].
    by rewrite <- app_assoc.
Qed.

Lemma mapM_on_defined {A} (build : Yaml → outcome A) (items : list Yaml) :
  mapM (on_defined build) (Some <$> items) = mapM build items.
Proof. induction items as [|x items IH]; cbn; [done|]. by rewrite IH. Qed.

Lemma mapM_null (build : Yaml → outcome Json) (items : list Yaml) :
  (∀ x, x ∈ items → build x = Done JNull) →
  mapM build items = Done (replicate (length items) JNull).
Proof.
  induction items as [|x items IH]; intros Hall; cbn; [done|].
  rewrite (Hall x) by (by left). cbn. rewrite IH; [done|].
  intros y Hy. apply Hall. by right.
Qed.

(** X18: An array attribute: the elements of the default sequence are built one
    by one, in order, by [BuildAttrJsonPatch], and the first that fails makes
    the whole call fail; the result carries the array class name under [ID]
    and the built elements under [DATA]. An element that is a map without a
    type or without a default contributes a JSON null. *)
Theorem BuildAttrJsonPatch_array fuel action items :
  ID ≠ DATA →
  as_string (yget "type" action) = Done "pir::ArrayAttribute" →
  yget "default" action = Some (YSeq items) →
  let object l :=
    JObj [(ID, JStr ((builtin_dialect_id +:+ ".") +:+ attribute_name ArrayAttribute));
          (DATA, JArr l)] in
  BuildAttrJsonPatch' (S fuel) action =
    (l ← mapM (BuildAttrJsonPatch' fuel) items; mret (object l)) ∧
  ((∀ x, x ∈ items → ∃ fields, x = YMap fields ∧
                       (assoc "type" fields = None ∨ assoc "default" fields = None)) →
   BuildAttrJsonPatch' (S (S fuel)) action = Done (object (replicate (length items) JNull))).
Proof.
  intros Hne Hty Hdef object.
  assert (Hstep : ∀ fuel', BuildAttrJsonPatch' (S fuel') action =
            (l ← mapM (BuildAttrJsonPatch' fuel') items; mret (object l))).
  { intros fuel'. rewrite BuildAttrJsonPatch_defined.
    2:{ unfold as_string in Hty. by destruct (yget "type" action). }
    2:{ by rewrite Hdef. }
    unfold GetAttrJson_with, default_items. rewrite Hty, Hdef.
    cbn -[mapM push_back_each decide].
    repeat (rewrite decide_False by done). rewrite decide_True by done.
    unfold set_id. cbn -[mapM push_back_each decide]. rewrite decide_False by done.
    cbn -[mapM push_back_each decide].
    by rewrite push_back_each_spec, mapM_on_defined. }
  split; [apply Hstep|]. intros Hall. rewrite Hstep.
  rewrite mapM_null; [done|]. intros x Hx. destruct (Hall x Hx) as (fields & -> & Hno).
  by apply BuildAttrJsonPatch_undefined.
Qed.

(** X19: On a type name other than the vector and the dense-tensor type,
    [BuildTypeJsonPatch] never fails: for the thirteen scalar type names it
    returns an object with the class name under [ID] and nothing else, and
    for an unknown type name it returns a JSON null. *)
Theorem BuildTypeJsonPatch_scalar_or_unknown fuel action type_name :
  as_string (yget "type" action) = Done type_name →
  type_name ≠ "pir::VectorType" → type_name ≠ "pir::DenseTensorType" →
  BuildTypeJsonPatch' (S fuel) action =
    Done (match assoc type_name builtin_type_names with
          | Some T => JObj [(ID, JStr ((builtin_dialect_id +:+ ".") +:+ builtin_type_name T))]
          | None => JNull
          end).
Proof.
  intros Hty Hv Hd. cbn [BuildTypeJsonPatch]. unfold BuildTypeJsonPatch_with.
  rewrite Hty. cbn -[assoc builtin_type_names].
  repeat (case_decide; [first [done | subst type_name; vm_compute; reflexivity]|]).
  unfold builtin_type_names. cbn [assoc fst snd].
  by repeat (rewrite decide_False by (cbn; congruence)).
Qed.

End BuilderFacts.

Lemma GetAttrJson_unknown_attr_witness :
  BuildAttrJsonPatch (λ _, None) "#" "D" "0" "1" (λ _, "a_array")
    (λ _, Done JNull) (λ _, Done JNull)
    (λ _, Done JNull) (λ _, Done JNull) (λ _, Done JNull) 1
    (YMap [("type", YScalar "paddle::dialect::IntArrayAttribute");
           ("default", YSeq [])])
  = unknown_attr "paddle::dialect::IntArrayAttribute".
Proof.
  refine (proj2 (proj2 (GetAttrJson_unknown_attr (λ _, None) "#" "D" "0" "1" (λ _, "a_array")
            (λ _, Done JNull) (λ _, Done JNull) (λ _, Done JNull) (λ _, Done JNull)
            (λ _, Done JNull) 0
            (YMap [("type", YScalar "paddle::dialect::IntArrayAttribute");
                   ("default", YSeq [])])
            "paddle::dialect::IntArrayAttribute" eq_refl _)) _).
  - vm_compute. intros Hin. repeat (inversion Hin as [|? ? ? Hin']; subst; clear Hin; rename Hin' into Hin).
  - by eexists.
Defined.

Lemma GetTypeJson_rejects_type_names_witness :
  GetTypeJson (λ _, None) "#" "D" "0" "1" (λ _, "a_array") (λ _, Done JNull) (λ _, Done JNull)
    (λ _, Done JNull) (λ _, Done JNull) (λ _, Done JNull) 1
    (YMap [("type", YScalar "pir::Float32Type")])
  = unknown_attr "pir::Float32Type".
Proof.
  apply (GetTypeJson_rejects_type_names (λ _, None) "#" "D" "0" "1" (λ _, "a_array")
           (λ _, Done JNull) (λ _, Done JNull) (λ _, Done JNull) (λ _, Done JNull)
           (λ _, Done JNull) 1 (YMap [("type", YScalar "pir::Float32Type")])
           "pir::Float32Type" Float32Type).
  - reflexivity.
  - vm_compute. reflexivity.
Defined.

(** An array attribute whose default lists two elements that give a value
    but no type. *)
Definition untyped_array_action : Yaml :=
  YMap [("action", YScalar "add_attr"); ("object", YScalar "axis");
        ("type", YScalar "pir::ArrayAttribute");
        ("default", YSeq [YMap [("default", YScalar "1")];
                          YMap [("default", YScalar "2")]])].

Lemma BuildAttrJsonPatch_array_witness :
  BuildAttrJsonPatch (λ _, None) "#" "D" "0" "1" (λ _, "a_array")
    (λ _, Done JNull) (λ _, Done JNull)
    (λ _, Done JNull) (λ _, Done JNull) (λ _, Done JNull) 2 untyped_array_action
  = Done (JObj [("#", JStr "0.a_array"); ("D", JArr [JNull; JNull])]).
Proof.
  refine (proj2 (BuildAttrJsonPatch_array (λ _, None) "#" "D" "0" "1" (λ _, "a_array")
            (λ _, Done JNull) (λ _, Done JNull) (λ _, Done JNull) (λ _, Done JNull)
            (λ _, Done JNull) 0 untyped_array_action _ _ eq_refl eq_refl) _).
  - discriminate.
  - intros x Hx.
    apply elem_of_cons in Hx as [->|Hx]; [eexists; split; [reflexivity|by left]|].
    apply elem_of_cons in Hx as [->|Hx]; [eexists; split; [reflexivity|by left]|].
    by apply elem_of_nil in Hx.
Defined.

Lemma BuildTypeJsonPatch_scalar_or_unknown_witness :
  BuildTypeJsonPatch (λ _, None) "#" "D" "0" (λ _, "t_f32") (λ _, Done JNull) (λ _, Done JNull)
    (λ _, Done JNull) 1 (YMap [("type", YScalar "pir::Float32Type")])
  = Done (JObj [("#", JStr "0.t_f32")]) ∧
  BuildTypeJsonPatch (λ _, None) "#" "D" "0" (λ _, "t_f32") (λ _, Done JNull) (λ _, Done JNull)
    (λ _, Done JNull) 1 (YMap [("type", YScalar "pir::NoSuchType")])
  = Done JNull.
Proof.
  split.
  - apply (BuildTypeJsonPatch_scalar_or_unknown (λ _, None) "#" "D" "0" (λ _, "t_f32")
             (λ _, Done JNull) (λ _, Done JNull) (λ _, Done JNull) 0
             (YMap [("type", YScalar "pir::Float32Type")]) "pir::Float32Type" eq_refl);
      discriminate.
  - apply (BuildTypeJsonPatch_scalar_or_unknown (λ _, None) "#" "D" "0" (λ _, "t_f32")
             (λ _, Done JNull) (λ _, Done JNull) (λ _, Done JNull) 0
             (YMap [("type", YScalar "pir::NoSuchType")]) "pir::NoSuchType" eq_refl);
      discriminate.
Defined.

(** ** The three patch tables *)

Lemma mapM_outcome_Forall2 {A B} (f : A → outcome B) (l : list A) (k : list B) :
  mapM f l = Done k → Forall2 (λ x y, f x = Done y) l k.
Proof.
  revert k. induction l as [|x l IH]; intros k; cbn.
  - intros [= <-]. constructor.
  - destruct (f x) as [y|e] eqn:Hx; cbn; [|done].
    destruct (mapM f l) as [k'|e]; cbn; [|done]. intros [= <-]. constructor; auto.
Qed.

Section OpPatches.
Variable key_index : string → option nat.
Variables NAME ATTR_TYPE ATTRS OPRESULTS_ATTRS OPRESULTS VALUE_ID TYPE_TYPE : string.
Variable BuildAttrJsonPatch : Yaml → outcome Json.
Variable GetCompressOpName : string → string.

Lemma parse_action_ignores_type_builder B1 B2 (I1 I2 : option Yaml → outcome Z)
    action j_patch :
  parse_action NAME ATTR_TYPE ATTRS OPRESULTS_ATTRS OPRESULTS VALUE_ID TYPE_TYPE
    BuildAttrJsonPatch B1 I1 action j_patch =
  parse_action NAME ATTR_TYPE ATTRS OPRESULTS_ATTRS OPRESULTS VALUE_ID TYPE_TYPE
    BuildAttrJsonPatch B2 I2 action j_patch.
Proof.
  unfold parse_action. destruct (as_string (yget "action" action)) as [name|e]; [|done].
  cbn [mbind outcome_bind]. do 2 (case_decide; [done|]).
  by rewrite PatchUtilFacts.modify_attr_name_condition_true.
Qed.

(** X20: [ParseOpPatches] never calls [BuildTypeJsonPatch] and never reads an
    operand number with [as<int>]: whatever these two do, the result is the
    same. *)
Theorem ParseOpPatches_ignores_type_builder
    (B1 B2 : Yaml → outcome Json) (I1 I2 : option Yaml → outcome Z) (root : Yaml) :
  ParseOpPatches key_index NAME ATTR_TYPE ATTRS OPRESULTS_ATTRS OPRESULTS VALUE_ID TYPE_TYPE
    BuildAttrJsonPatch B1 I1 GetCompressOpName root =
  ParseOpPatches key_index NAME ATTR_TYPE ATTRS OPRESULTS_ATTRS OPRESULTS VALUE_ID TYPE_TYPE
    BuildAttrJsonPatch B2 I2 GetCompressOpName root.
Proof.
  unfold ParseOpPatches. f_equal. generalize (@nil Json).
  induction (yitems key_index (Some root)) as [|node nodes IH]; intros acc; [done|].
  cbn [parse_op_patches].
  assert (Hnode : on_defined (parse_op_patch key_index NAME ATTR_TYPE ATTRS OPRESULTS_ATTRS
                    OPRESULTS VALUE_ID TYPE_TYPE BuildAttrJsonPatch B1 I1
                    GetCompressOpName) node =
                  on_defined (parse_op_patch key_index NAME ATTR_TYPE ATTRS OPRESULTS_ATTRS
                    OPRESULTS VALUE_ID TYPE_TYPE BuildAttrJsonPatch B2 I2
                    GetCompressOpName) node).
  { destruct node as [node|]; [|done]. cbn [on_defined].
    unfold parse_op_patch. destruct (as_string (yget "op_name" node)); [|done].
    cbn [mbind outcome_bind]. generalize (yitems key_index (yget "actions" node)).
    intros actions. generalize (JObj [("op_name",
      JStr (if decide (GetCompressOpName a = "0.parameter") then "p"
            else GetCompressOpName a)); ("patch", JObj [])]).
    induction actions as [|action actions IHa]; intros j; [done|].
    cbn [parse_actions]. destruct action as [action|]; [|done]. cbn [on_defined].
    rewrite (parse_action_ignores_type_builder B1 B2 I1 I2).
    destruct (parse_action _ _ _ _ _ _ _ _ B2 I2 action j); [|done]. apply IHa. }
  rewrite Hnode.
  destruct (on_defined (parse_op_patch _ _ _ _ _ _ _ _ _ B2 I2 _) node); [|done].
  cbn [mbind outcome_bind]. apply IH.
Qed.

Variable BuildTypeJsonPatch : Yaml → outcome Json.
Variable as_int : option Yaml → outcome Z.

Local Abbreviation parse_action' :=
  (parse_action NAME ATTR_TYPE ATTRS OPRESULTS_ATTRS OPRESULTS VALUE_ID TYPE_TYPE
                BuildAttrJsonPatch BuildTypeJsonPatch as_int).
Local Abbreviation parse_actions' :=
  (parse_actions NAME ATTR_TYPE ATTRS OPRESULTS_ATTRS OPRESULTS VALUE_ID TYPE_TYPE
                 BuildAttrJsonPatch BuildTypeJsonPatch as_int).
Local Abbreviation parse_op_patch' :=
  (parse_op_patch key_index NAME ATTR_TYPE ATTRS OPRESULTS_ATTRS OPRESULTS VALUE_ID TYPE_TYPE
                  BuildAttrJsonPatch BuildTypeJsonPatch as_int GetCompressOpName).
Local Abbreviation parse_op_patches' :=
  (parse_op_patches key_index NAME ATTR_TYPE ATTRS OPRESULTS_ATTRS OPRESULTS VALUE_ID TYPE_TYPE
                    BuildAttrJsonPatch BuildTypeJsonPatch as_int GetCompressOpName).

(** The patch of an operator keeps its name and has entries in the two
    attribute columns only. *)
Definition op_patch_shape (op_name : string) (j : Json) : Prop :=
  jget "op_name" j = JStr op_name ∧
  ∀ col, col ≠ ATTRS → col ≠ OPRESULTS_ATTRS → jget col (jget "patch" j) = JNull.

Lemma push_patch_shape op_name col item j :
  col = ATTRS ∨ col = OPRESULTS_ATTRS →
  op_patch_shape op_name j → op_patch_shape op_name (push_patch col item j).
Proof.
  intros Hcol [Hname Hcols]. unfold push_patch. split.
  - by rewrite jget_jset_ne.
  - intros col' H1 H2. rewrite jget_jset_eq, jget_jset_ne; [by apply Hcols|].
    destruct Hcol; congruence.
Qed.

Lemma parse_action_shape op_name action j j' :
  parse_action' action j = Done j' → op_patch_shape op_name j → op_patch_shape op_name j'.
Proof.
  unfold parse_action. intros Hrun Hj.
  apply bind_outcome_Done in Hrun as (name & _ & Hrun).
  case_decide.
  { apply bind_outcome_Done in Hrun as (? & _ & Hrun).
    apply bind_outcome_Done in Hrun as (? & _ & [= <-]). apply push_patch_shape; auto. }
  case_decide.
  { apply bind_outcome_Done in Hrun as (? & _ & Hrun).
    apply bind_outcome_Done in Hrun as (? & _ & [= <-]). apply push_patch_shape; auto. }
  rewrite PatchUtilFacts.modify_attr_name_condition_true in Hrun.
  apply bind_outcome_Done in Hrun as (? & _ & Hrun).
  apply bind_outcome_Done in Hrun as (? & _ & [= <-]).
  apply push_patch_shape; [|done]. case_decide; auto.
Qed.

Lemma parse_op_patches_mapM nodes acc :
  parse_op_patches' nodes acc =
    (l ← mapM (on_defined parse_op_patch') nodes; mret (acc ++ l)).
Proof.
  revert acc. induction nodes as [|node nodes IH]; intros acc; cbn.
  - by rewrite app_nil_r.
  - destruct (on_defined parse_op_patch' node) as [j|e]; cbn; [|done]. rewrite IH.
    destruct (mapM _ nodes); cbn; [|done]. by rewrite <- app_assoc.
Qed.

(** X21: What a successful [ParseOpPatches] returns on a sequence: an array with
    one patch per node, in order; each carries the operator's compressed name
    (with "p" for "0.parameter") under "op_name", and its "patch" object has
    entries in the two attribute columns only: nothing is ever written under
    any other key, the column of the operand types included. *)
Theorem ParseOpPatches_shape nodes j :
  ParseOpPatches key_index NAME ATTR_TYPE ATTRS OPRESULTS_ATTRS OPRESULTS VALUE_ID TYPE_TYPE
    BuildAttrJsonPatch BuildTypeJsonPatch as_int GetCompressOpName (YSeq nodes) = Done j →
  ∃ l, j = JArr l ∧ length l = length nodes ∧
    ∀ k node j_patch, nodes !! k = Some node → l !! k = Some j_patch →
      ∃ op_name, as_string (yget "op_name" node) = Done op_name ∧
        jget "op_name" j_patch =
          JStr (if decide (GetCompressOpName op_name = "0.parameter") then "p"
                else GetCompressOpName op_name) ∧
        ∀ col, col ≠ ATTRS → col ≠ OPRESULTS_ATTRS →
               jget col (jget "patch" j_patch) = JNull.
Proof.
  unfold ParseOpPatches. cbn [yitems]. rewrite parse_op_patches_mapM, mapM_on_defined.
  intros Hrun.
  apply bind_outcome_Done in Hrun as (l0 & Hrun & [= <-]).
  apply bind_outcome_Done in Hrun as (l & Hmap & [= <-]).
  apply mapM_outcome_Forall2 in Hmap. exists l. split; [done|].
  split; [symmetry; by eapply Forall2_length|].
  intros k node j_patch Hnode Hj.
  pose proof (Forall2_lookup_lr _ _ _ _ _ _ Hmap Hnode Hj) as Hpatch.
  unfold parse_op_patch in Hpatch.
  apply bind_outcome_Done in Hpatch as (op_name & Hname & Hpatch).
  exists op_name. split; [done|].
  set (short := if decide (GetCompressOpName op_name = "0.parameter") then "p"
                else GetCompressOpName op_name) in *.
  assert (Hshape : op_patch_shape short j_patch); [|by destruct Hshape].
  assert (Hstart : op_patch_shape short (JObj [("op_name", JStr short); ("patch", JObj [])])).
  { split; [done|]. intros col _ _. done. }
  revert Hstart Hpatch. generalize (JObj [("op_name", JStr short); ("patch", JObj [])]).
  induction (yitems key_index (yget "actions" node)) as [|action actions IH];
    intros j0 Hj0; cbn.
  - by intros [= <-].
  - intros Hrun. apply bind_outcome_Done in Hrun as (j1 & H1 & Hrun).
    destruct action as [action|]; [|done].
    apply (IH j1); [|done]. by eapply parse_action_shape.
Qed.

End OpPatches.

(** The patch of an operator with an action that deletes an attribute and
    one that would retype an output. *)
Definition two_action_nodes : list Yaml :=
  [YMap [("op_name", YScalar "pd_op.relu");
              ("actions", YSeq [
                 YMap [("action", YScalar "delete_attr"); ("object", YScalar "axis")];
                 retype_action])]].

Lemma ParseOpPatches_shape_witness :
  ∃ l, ParseOpPatches (λ _, None) "N" "AT" "A" "OA" "O" "%" "TT"
         (λ _, Done JNull) (λ _, Done JNull)
         (λ _, Done 0%Z) (λ n, n) (YSeq two_action_nodes) = Done (JArr l) ∧
       length l = 1 ∧
       ∀ j_patch, l !! 0 = Some j_patch →
         jget "op_name" j_patch = JStr "pd_op.relu" ∧
         jget "O" (jget "patch" j_patch) = JNull.
Proof.
  destruct (ParseOpPatches_shape (λ _, None) "N" "AT" "A" "OA" "O" "%" "TT" (λ _, Done JNull)
              (λ n, n) (λ _, Done JNull) (λ _, Done 0%Z) two_action_nodes _ eq_refl)
    as (l & Hl & Hlen & Hall).
  exists l. split; [by rewrite <- Hl|]. split; [exact Hlen|].
  intros j_patch Hj.
  destruct (Hall 0 _ j_patch eq_refl Hj) as (op_name & [= <-] & Hname & Hcols).
  split; [exact Hname|]. apply Hcols; discriminate.
Defined.

(** *** Type patches and attribute patches *)

(** The action names that set the new name, and the new name the last of
    them among [names] leaves: the name under "default" of the patch node
    after "modify_name", the empty string after the deleting action, and none
    when there is no such action. *)
Definition new_name_after (delete_action : string) (node : Yaml) (names : list string)
  : Json :=
  match last (filter (λ a, a = "modify_name" ∨ a = delete_action) names) with
  | None => JNull
  | Some a =>
      if decide (a = "modify_name") then
        match as_string (yget "default" node) with
        | Done new_name => JStr new_name
        | Raise _ => JNull
        end
      else JStr ""
  end.

(** The loop over the actions that [ParseTypePatches] and [ParseAttrPatches]
    share, up to the name of the deleting action. *)
Definition rename_action (delete_action : string) (node action : Yaml) (j_patch : Json)
  : outcome Json :=
  action_name ← as_string (yget "action" action);
  if decide (action_name = "modify_name") then
    new_name ← as_string (yget "default" node);
    mret (jset "NEW_NAME" (JStr new_name) j_patch)
  else if decide (action_name = delete_action) then
    mret (jset "NEW_NAME" (JStr "") j_patch)
  else mret j_patch.

Fixpoint rename_actions (delete_action : string) (node : Yaml) (actions : list Yaml)
  (j_patch : Json) : outcome Json :=
  match actions with
  | [] => mret j_patch
  | action :: rest =>
      j ← rename_action delete_action node action j_patch;
      rename_actions delete_action node rest j
  end.

Lemma parse_type_actions_rename node actions j_patch :
  parse_type_actions node (Some <$> actions) j_patch =
    rename_actions "delete_type" node actions j_patch.
Proof.
  revert j_patch. induction actions as [|a actions IH]; intros j; [done|]. cbn.
  change (parse_type_action node a j) with (rename_action "delete_type" node a j).
  destruct (rename_action _ node a j); [apply IH|done].
Qed.

Lemma parse_attr_actions_rename node actions j_patch :
  parse_attr_actions node (Some <$> actions) j_patch =
    rename_actions "delete_attr" node actions j_patch.
Proof.
  revert j_patch. induction actions as [|a actions IH]; intros j; [done|]. cbn.
  change (parse_attr_action node a j) with (rename_action "delete_attr" node a j).
  destruct (rename_action _ node a j); [apply IH|done].
Qed.

Lemma rename_actions_spec delete_action node actions j0 j :
  rename_actions delete_action node actions j0 = Done j →
  ∃ names, mapM (λ a, as_string (yget "action" a)) actions = Done names ∧
    (∀ key, key ≠ "NEW_NAME" → jget key j = jget key j0) ∧
    jget "NEW_NAME" j =
      match last (filter (λ a, a = "modify_name" ∨ a = delete_action) names) with
      | None => jget "NEW_NAME" j0
      | Some _ => new_name_after delete_action node names
      end.
Proof.
  revert j0. induction actions as [|a actions IH]; intros j0; cbn.
  - intros [= <-]. by exists [].
  - intros Hrun. apply bind_outcome_Done in Hrun as (j1 & H1 & Hrun).
    destruct (IH j1 Hrun) as (names & Hnames & Hkeys & Hnew).
    unfold rename_action in H1.
    apply bind_outcome_Done in H1 as (name & Hname & H1).
    exists (name :: names). rewrite Hname, Hnames. split; [done|].
    unfold new_name_after in *. rewrite filter_cons.
    set (rest := filter _ names) in *.
    case_decide as Hmod.
    + apply bind_outcome_Done in H1 as (new_name & Hdef & [= <-]).
      rewrite decide_True by auto. split.
      * intros key Hkey. rewrite Hkeys by done. by rewrite jget_jset_ne.
      * rewrite last_cons. destruct (last rest) as [b|] eqn:Hlast; [done|].
        rewrite Hnew, jget_jset_eq, decide_True, Hdef by done. done.
    + case_decide as Hdel.
      * injection H1 as <-. rewrite decide_True by auto. split.
        -- intros key Hkey. rewrite Hkeys by done. by rewrite jget_jset_ne.
        -- rewrite last_cons. destruct (last rest) as [b|] eqn:Hlast; [done|].
           rewrite Hnew, jget_jset_eq. by rewrite decide_False.
      * injection H1 as <-. rewrite decide_False by (by intros [|]). done.
Qed.

Lemma parse_type_patches_mapM key_index nodes acc :
  parse_type_patches key_index nodes acc =
    (l ← mapM (on_defined (parse_type_patch key_index)) nodes; mret (acc ++ l)).
Proof.
  revert acc. induction nodes as [|node nodes IH]; intros acc; cbn.
  - by rewrite app_nil_r.
  - destruct (on_defined (parse_type_patch key_index) node) as [j|e]; cbn; [|done].
    rewrite IH.
    destruct (mapM _ nodes); cbn; [|done]. by rewrite <- app_assoc.
Qed.

Lemma parse_attr_patches_mapM key_index nodes acc :
  parse_attr_patches key_index nodes acc =
    (l ← mapM (on_defined (parse_attr_patch key_index)) nodes; mret (acc ++ l)).
Proof.
  revert acc. induction nodes as [|node nodes IH]; intros acc; cbn.
  - by rewrite app_nil_r.
  - destruct (on_defined (parse_attr_patch key_index) node) as [j|e]; cbn; [|done].
    rewrite IH.
    destruct (mapM _ nodes); cbn; [|done]. by rewrite <- app_assoc.
Qed.

(** X22: What a successful [ParseTypePatches] returns on a sequence: one patch per
    node, in order. For a node whose actions are a sequence, the patch
    carries the node's "type_name"; its "patch" object stays empty whatever
    the actions are; and its "NEW_NAME" is set by the last "modify_name" or
    "delete_type" action only, to the name under "default" of the patch node
    (not of the action) or to the empty string. *)
Theorem ParseTypePatches_spec key_index nodes j :
  ParseTypePatches key_index (YSeq nodes) = Done j →
  ∃ l, j = JArr l ∧ length l = length nodes ∧
    ∀ k node actions j_patch,
      nodes !! k = Some node → yget "actions" node = Some (YSeq actions) →
      l !! k = Some j_patch →
      ∃ type_name names,
        as_string (yget "type_name" node) = Done type_name ∧
        mapM (λ a, as_string (yget "action" a)) actions = Done names ∧
        jget "type_name" j_patch = JStr type_name ∧
        jget "patch" j_patch = JObj [] ∧
        jget "NEW_NAME" j_patch = new_name_after "delete_type" node names.
Proof.
  unfold ParseTypePatches. cbn [yitems]. rewrite parse_type_patches_mapM, mapM_on_defined.
  intros Hrun.
  apply bind_outcome_Done in Hrun as (l0 & Hrun & [= <-]).
  apply bind_outcome_Done in Hrun as (l & Hmap & [= <-]).
  apply mapM_outcome_Forall2 in Hmap. exists l. split; [done|].
  split; [symmetry; by eapply Forall2_length|].
  intros k node actions j_patch Hnode Hactions Hj.
  pose proof (Forall2_lookup_lr _ _ _ _ _ _ Hmap Hnode Hj) as Hpatch.
  unfold parse_type_patch in Hpatch. rewrite Hactions in Hpatch. cbn [yitems] in Hpatch.
  apply bind_outcome_Done in Hpatch as (type_name & Hname & Hpatch).
  rewrite parse_type_actions_rename in Hpatch.
  destruct (rename_actions_spec _ _ _ _ _ Hpatch) as (names & Hnames & Hkeys & Hnew).
  exists type_name, names. split; [done|]. split; [done|].
  split; [by rewrite Hkeys|]. split; [by rewrite Hkeys|].
  rewrite Hnew. unfold new_name_after. by destruct (last _).
Qed.

(** X23: What a successful [ParseAttrPatches] returns: the same as for the type
    patches, with "attr_name" for the name and "delete_attr" for the deleting
    action. *)
Theorem ParseAttrPatches_spec key_index nodes j :
  ParseAttrPatches key_index (YSeq nodes) = Done j →
  ∃ l, j = JArr l ∧ length l = length nodes ∧
    ∀ k node actions j_patch,
      nodes !! k = Some node → yget "actions" node = Some (YSeq actions) →
      l !! k = Some j_patch →
      ∃ attr_name names,
        as_string (yget "attr_name" node) = Done attr_name ∧
        mapM (λ a, as_string (yget "action" a)) actions = Done names ∧
        jget "attr_name" j_patch = JStr attr_name ∧
        jget "patch" j_patch = JObj [] ∧
        jget "NEW_NAME" j_patch = new_name_after "delete_attr" node names.
Proof.
  unfold ParseAttrPatches. cbn [yitems]. rewrite parse_attr_patches_mapM, mapM_on_defined.
  intros Hrun.
  apply bind_outcome_Done in Hrun as (l0 & Hrun & [= <-]).
  apply bind_outcome_Done in Hrun as (l & Hmap & [= <-]).
  apply mapM_outcome_Forall2 in Hmap. exists l. split; [done|].
  split; [symmetry; by eapply Forall2_length|].
  intros k node actions j_patch Hnode Hactions Hj.
  pose proof (Forall2_lookup_lr _ _ _ _ _ _ Hmap Hnode Hj) as Hpatch.
  unfold parse_attr_patch in Hpatch. rewrite Hactions in Hpatch. cbn [yitems] in Hpatch.
  apply bind_outcome_Done in Hpatch as (attr_name & Hname & Hpatch).
  rewrite parse_attr_actions_rename in Hpatch.
  destruct (rename_actions_spec _ _ _ _ _ Hpatch) as (names & Hnames & Hkeys & Hnew).
  exists attr_name, names. split; [done|]. split; [done|].
  split; [by rewrite Hkeys|]. split; [by rewrite Hkeys|].
  rewrite Hnew. unfold new_name_after. by destruct (last _).
Qed.

(** A type patch that renames and then deletes, and an attribute patch whose
    action carries a "default" of its own. *)
Definition rename_then_delete : list Yaml :=
  [YMap [("type_name", YScalar "pir::Float32Type");
         ("default", YScalar "pir::Float64Type");
         ("actions", YSeq [YMap [("action", YScalar "modify_name")];
                           YMap [("action", YScalar "delete_type")]])]].

Definition rename_with_own_default : list Yaml :=
  [YMap [("attr_name", YScalar "pir::StrAttribute");
         ("default", YScalar "pir::TextAttribute");
         ("actions", YSeq [YMap [("action", YScalar "modify_name");
                                 ("default", YScalar "ignored")];
                           YMap [("action", YScalar "delete_type")]])]].

Lemma ParseTypePatches_spec_witness :
  ∃ l, ParseTypePatches (λ _, None) (YSeq rename_then_delete) = Done (JArr l) ∧
    length l = 1 ∧
    ∀ j_patch, l !! 0 = Some j_patch →
      jget "type_name" j_patch = JStr "pir::Float32Type" ∧
      jget "patch" j_patch = JObj [] ∧ jget "NEW_NAME" j_patch = JStr "".
Proof.
  destruct (ParseTypePatches_spec (λ _, None) rename_then_delete _ eq_refl)
    as (l & Hl & Hlen & Hall).
  exists l. split; [by rewrite <- Hl|]. split; [exact Hlen|]. intros j_patch Hj.
  destruct (Hall 0 _ _ j_patch eq_refl eq_refl Hj)
    as (type_name & names & [= <-] & [= <-] & Hname & Hpatch & Hnew).
  split; [exact Hname|]. split; [exact Hpatch|]. rewrite Hnew. reflexivity.
Defined.

Lemma ParseAttrPatches_spec_witness :
  ∃ l, ParseAttrPatches (λ _, None) (YSeq rename_with_own_default) = Done (JArr l) ∧
    length l = 1 ∧
    ∀ j_patch, l !! 0 = Some j_patch →
      jget "attr_name" j_patch = JStr "pir::StrAttribute" ∧
      jget "patch" j_patch = JObj [] ∧
      jget "NEW_NAME" j_patch = JStr "pir::TextAttribute".
Proof.
  destruct (ParseAttrPatches_spec (λ _, None) rename_with_own_default _ eq_refl)
    as (l & Hl & Hlen & Hall).
  exists l. split; [by rewrite <- Hl|]. split; [exact Hlen|]. intros j_patch Hj.
  destruct (Hall 0 _ _ j_patch eq_refl eq_refl Hj)
    as (attr_name & names & [= <-] & [= <-] & Hname & Hpatch & Hnew).
  split; [exact Hname|]. split; [exact Hpatch|]. rewrite Hnew. reflexivity.
Defined.

(** A map is gone through like a sequence when its keys read as the numbers
    0, 1, ...: the loops count its pairs and look each number up among the
    keys. With any other key the lookup finds nothing and the parser throws
    on the missing node. *)
Definition reads_one_digit (key : string) : option nat :=
  if decide (key = "0") then Some 0 else if decide (key = "1") then Some 1 else None.

Example ParseTypePatches_on_a_map :
  ParseTypePatches reads_one_digit (YMap (zip ["0"] rename_then_delete)) =
    ParseTypePatches reads_one_digit (YSeq rename_then_delete) ∧
  ParseTypePatches reads_one_digit (YMap (zip ["first"] rename_then_delete)) =
    Raise (External 1) ∧
  ParseTypePatches reads_one_digit (YMap []) = Done (JArr []) ∧
  ParseTypePatches reads_one_digit (YScalar "none") = Done (JArr []).
Proof. vm_compute. done. Qed.

(** ** The recursion of the builders *)







Section Fuel.
Variable key_index : string → option nat.
Variables ID DATA : string.
Variables builtin_dialect_id operator_dialect_id : string.
Variable attribute_name : Attribute → string.
Variable builtin_type_name : BuiltinType → string.
Variables as_bool as_float as_double as_int32_t as_int64_t : option Yaml → outcome Json.
Variables as_int as_int_vector as_int_matrix : option Yaml → outcome Json.



End Fuel.


End PatchBuilderFacts.
